(** * PDBEnsemble: heterogeneous conformational ensembles

    A verification development for [prody/ensemble/pdbensemble.py].  The
    class [PDBEnsemble] stores a reference coordinate set, a growing stack
    of conformations, one weight per atom and conformation (weight [0]
    marks an atom that is not resolved), labels, an optional atom
    selection, an optional multiple sequence alignment and the
    transformations of the last tracked superposition.

    numpy's [float64] is IEEE binary64, which is exactly Rocq's primitive
    [float]; arrays are lists of rows.  Python exceptions are an error
    monad; methods that assign to attributes of [self] thread the
    ensemble through a state-and-exception monad in which a raised
    exception keeps the assignments made before it. *)

From Stdlib Require Import ZArith Floats Uint63 Lia Sorted.
From stdpp Require Import base option list strings pretty gmap.

Set Warnings "-inexact-float".

(** ** Exceptions *)

Inductive exn : Set :=
  | TypeError | ValueError | IndexError | AttributeError | RuntimeError.

Inductive result (A : Type) : Type :=
  | Ok (a : A)
  | Raise (x : exn).
Arguments Ok {A} a.
Arguments Raise {A} x.

#[export] Instance result_ret : MRet result := @Ok.
#[export] Instance result_bind : MBind result := λ A B f m,
  match m with Ok a => f a | Raise x => Raise x end.
#[export] Instance result_fmap : FMap result := λ A B f m,
  match m with Ok a => Ok (f a) | Raise x => Raise x end.

(** [need x o]: the value of an attribute that must not be [None]. *)
Definition need {A} (x : exn) (o : option A) : result A :=
  match o with Some a => Ok a | None => Raise x end.

Fixpoint foldM {A B} (f : B → A → result B) (b : B) (l : list A) : result B :=
  match l with
  | [] => Ok b
  | a :: l => b' ← f b a; foldM f b' l
  end.

Fixpoint mapM_r {A B} (f : A → result B) (l : list A) : result (list B) :=
  match l with
  | [] => Ok []
  | a :: l => b ← f a; bs ← mapM_r f l; Ok (b :: bs)
  end.

(** Python's [enumerate]. *)
Definition enumerate {A} (l : list A) : list (nat * A) := imap pair l.

(** ** Points, coordinate sets and numpy's elementwise arithmetic *)

Abbreviation vec3 := (float * float * float)%type.
(** A coordinate set: an array of shape [(n_atoms, 3)]. *)
Abbreviation coordset := (list vec3).
(** The weights of one conformation: an array of shape [(n_atoms, 1)]. *)
Abbreviation weightset := (list float).

Abbreviation mat3 := (vec3 * vec3 * vec3)%type.
Abbreviation vec4 := (float * float * float * float)%type.
Abbreviation mat4 := (vec4 * vec4 * vec4 * vec4)%type.

Module np.

(** [bool] and [int64] operands are converted to [float64]. *)
Definition of_bool (b : bool) : float := if b then 1%float else 0%float.
Definition of_count (n : nat) : float :=
  PrimFloat.of_uint63 (Uint63.of_Z (Z.of_nat n)).

Definition v3zero : vec3 := (0, 0, 0)%float.
Definition v3map2 (f : float → float → float) (a b : vec3) : vec3 :=
  let '(ax, ay, az) := a in let '(bx, by_, bz) := b in
  (f ax bx, f ay by_, f az bz).
Definition v3scal (f : float → float → float) (a : vec3) (s : float) : vec3 :=
  let '(ax, ay, az) := a in (f ax s, f ay s, f az s).
(** [x ** 2] on one row. *)
Definition v3sq (a : vec3) : vec3 :=
  let '(ax, ay, az) := a in (ax * ax, ay * ay, az * az)%float.
(** [.sum(1)] on one row. *)
Definition v3sum (a : vec3) : float :=
  let '(ax, ay, az) := a in (ax + ay + az)%float.

(** Elementwise operations need operands of the same length (numpy raises
    [ValueError] when shapes cannot be broadcast; stretching an axis of
    length one against a longer one is not modelled). *)
Definition zip_same {A B C} (f : A → B → C) (a : list A) (b : list B)
    : result (list C) :=
  if decide (length a = length b) then Ok (zip_with f a b)
  else Raise ValueError.

Definition zeros (n : nat) : coordset := replicate n v3zero.
Definition add (a b : coordset) : result coordset :=
  zip_same (v3map2 PrimFloat.add) a b.
Definition sub (a b : coordset) : result coordset :=
  zip_same (v3map2 PrimFloat.sub) a b.
(** An [(n, 3)] array times an [(n, 1)] boolean array. *)
Definition mul_mask (a : coordset) (m : list bool) : result coordset :=
  zip_same (λ p b, v3scal PrimFloat.mul p (of_bool b)) a m.
(** An [(n, 3)] array divided by an [(n, 1)] integer array. *)
Definition div_count (a : coordset) (c : list nat) : result coordset :=
  zip_same (λ p n, v3scal PrimFloat.div p (of_count n)) a c.
Definition square (a : coordset) : coordset := map v3sq a.

(** [a[idx]] for an integer index array [idx] along the first axis. *)
Definition take {A} (idx : list nat) (a : list A) : result (list A) :=
  mapM_r (λ i, need IndexError (a !! i)) idx.
(** [a[:, idx]]. *)
Definition take_cols {A} (idx : list nat) (a : list (list A))
    : result (list (list A)) :=
  mapM_r (take idx) a.

(** [w > 0], elementwise. *)
Definition gt0 (w : list weightset) : list (list bool) :=
  map (map (λ x, PrimFloat.ltb 0 x)) w.

(** [m.sum(0)] for a boolean array of shape [(n_frames, ncols, 1)]; the
    rows of an array with no frame are not there to give [ncols]. *)
Definition sum0 (ncols : nat) (m : list (list bool)) : result (list nat) :=
  foldM (λ acc row, zip_same (λ c (b : bool), if b then S c else c) acc row)
        (replicate (match m with [] => ncols | r :: _ => length r end) 0)
        m.

End np.

(** ** Collaborators

    [prody.measure], [prody.sequence], [prody.atomic] and the base class
    [Ensemble] are not part of the verified file. *)

(** Modelled from the spec: the rigid-alignment collaborator,
    [getTransformation(mob, tar, weights)] returning the optimal rotation
    and translation, and [getRMSD(ref, mob, weights)] returning the weighted
    root mean square deviation.  Both are black boxes. *)
Class RigidAlignment : Type := {
  getTransformation : coordset → coordset → weightset → mat3 * vec3;
  getRMSD : coordset → coordset → option weightset → float;
  (* [getRMSD] of a reference against a stack: one value per conformation *)
  getRMSD_stack :
    coordset → list coordset → option (list weightset) → list float;
}.

(** Modelled from the spec: the labelled-sequence collection [MSA], an
    opaque container of one sequence per label that is built from a list of
    strings, extended, indexed by rows, and is false when it is empty.  The
    spec names no failure of building or extending one, and none is
    modelled: what is proved of a call that reaches [msa_extend] is proved
    of a call whose extension succeeds. *)
Record MSA : Type := mkMSA {
  msa_seqs : list string;
  msa_title : string;
  msa_labels : list string;
}.

Definition msa_extend (m other : MSA) : MSA :=
  mkMSA (msa_seqs m ++ msa_seqs other) (msa_title m)
        (msa_labels m ++ msa_labels other).

(** Modelled from the spec: an atomic structure set with [setAtoms]; only
    its optional [getSequence] is consulted here. *)
Record Atomic : Type := mkAtomic {
  atomic_title : string;
  atomic_sequence : option string;
}.

(** ** The ensemble *)

Record PDBEnsemble : Type := mkEnsemble {
  _title : string;
  _coords : option coordset;            (* reference, shape (n_atoms, 3) *)
  _n_atoms : nat;
  _n_csets : nat;
  _weights : option (list weightset);   (* shape (n_csets, n_atoms, 1) *)
  _confs : option (list coordset);      (* shape (n_csets, n_atoms, 3) *)
  _atoms : option Atomic;
  _indices : option (list nat);         (* selected atoms *)
  _labels : list string;
  _trans : option (list mat4);          (* shape (n_csets, 4, 4) *)
  _msa : option MSA;
}.

(** Attribute assignment, [self._x = v]. *)
Definition set_n_atoms (v : nat) (e : PDBEnsemble) : PDBEnsemble :=
  mkEnsemble (_title e) (_coords e) v (_n_csets e) (_weights e) (_confs e)
             (_atoms e) (_indices e) (_labels e) (_trans e) (_msa e).
Definition set_n_csets (v : nat) (e : PDBEnsemble) : PDBEnsemble :=
  mkEnsemble (_title e) (_coords e) (_n_atoms e) v (_weights e) (_confs e)
             (_atoms e) (_indices e) (_labels e) (_trans e) (_msa e).
Definition set_coords (v : option coordset) (e : PDBEnsemble) : PDBEnsemble :=
  mkEnsemble (_title e) v (_n_atoms e) (_n_csets e) (_weights e) (_confs e)
             (_atoms e) (_indices e) (_labels e) (_trans e) (_msa e).
Definition set_weights (v : option (list weightset)) (e : PDBEnsemble)
    : PDBEnsemble :=
  mkEnsemble (_title e) (_coords e) (_n_atoms e) (_n_csets e) v (_confs e)
             (_atoms e) (_indices e) (_labels e) (_trans e) (_msa e).
Definition set_confs (v : option (list coordset)) (e : PDBEnsemble)
    : PDBEnsemble :=
  mkEnsemble (_title e) (_coords e) (_n_atoms e) (_n_csets e) (_weights e) v
             (_atoms e) (_indices e) (_labels e) (_trans e) (_msa e).
Definition set_atoms (v : option Atomic) (e : PDBEnsemble) : PDBEnsemble :=
  mkEnsemble (_title e) (_coords e) (_n_atoms e) (_n_csets e) (_weights e)
             (_confs e) v (_indices e) (_labels e) (_trans e) (_msa e).
Definition set_indices (v : option (list nat)) (e : PDBEnsemble) : PDBEnsemble :=
  mkEnsemble (_title e) (_coords e) (_n_atoms e) (_n_csets e) (_weights e)
             (_confs e) (_atoms e) v (_labels e) (_trans e) (_msa e).
Definition set_labels (v : list string) (e : PDBEnsemble) : PDBEnsemble :=
  mkEnsemble (_title e) (_coords e) (_n_atoms e) (_n_csets e) (_weights e)
             (_confs e) (_atoms e) (_indices e) v (_trans e) (_msa e).
Definition set_trans (v : option (list mat4)) (e : PDBEnsemble) : PDBEnsemble :=
  mkEnsemble (_title e) (_coords e) (_n_atoms e) (_n_csets e) (_weights e)
             (_confs e) (_atoms e) (_indices e) (_labels e) v (_msa e).
Definition set_msa (v : option MSA) (e : PDBEnsemble) : PDBEnsemble :=
  mkEnsemble (_title e) (_coords e) (_n_atoms e) (_n_csets e) (_weights e)
             (_confs e) (_atoms e) (_indices e) (_labels e) (_trans e) v.

(** [PDBEnsemble(title)]: [Ensemble.__init__] leaves every array unset. *)
Definition new_ensemble (title : string) : PDBEnsemble :=
  mkEnsemble title None 0 0 None None None None [] None None.

(** Modelled from the spec: the accessors of the base class [Ensemble]. *)
Definition numAtoms (e : PDBEnsemble) : nat := _n_atoms e.
Definition numCoordsets (e : PDBEnsemble) : nat := _n_csets e.
Definition numConfs (e : PDBEnsemble) : nat := _n_csets e.
Definition isSelected (e : PDBEnsemble) : bool := bool_decide (is_Some (_indices e)).
Definition numSelected (e : PDBEnsemble) : nat :=
  match _indices e with None => _n_atoms e | Some idx => length idx end.

(** ** Statistics *)

(** The statements of [getMSFs] after the selection: the masks are summed
    over the frames, the masked positions are averaged, and the masked
    squared deviations are summed and divided by the sum of the masks. *)
Definition msf_tail (ncols : nat) (coords : coordset) (confs : list coordset)
    (weights : list (list bool)) : result (option (list float)) :=
  weightsum ← np.sum0 ncols weights;
  mean ← foldM (λ mean '(i, conf),
                  w ← need IndexError (weights !! i);
                  t ← np.mul_mask conf w;
                  np.add mean t)
               (np.zeros (length coords)) (enumerate confs);
  mean ← np.div_count mean weightsum;
  ssqf ← foldM (λ ssqf '(i, conf),
                  w ← need IndexError (weights !! i);
                  d ← np.sub conf mean;
                  t ← np.mul_mask d w;
                  np.add ssqf (np.square t))
               (np.zeros (length mean)) (enumerate confs);
  r ← np.zip_same (λ s n, (s / np.of_count n)%float)
                  (map np.v3sum ssqf) weightsum;
  Ok (Some r).

(** [getMSFs]: mean square fluctuations of the selected atoms. *)
Definition getMSFs (e : PDBEnsemble) : result (option (list float)) :=
  match _confs e with
  | None => Ok None
  | Some all_confs =>
    '(coords, confs, weights) ←
      match _indices e with
      | None =>
        w ← need TypeError (_weights e);
        coords ← need AttributeError (_coords e);
        Ok (coords, all_confs, np.gt0 w)
      | Some indices =>
        c ← need TypeError (_coords e);
        coords ← np.take indices c;
        confs ← np.take_cols indices all_confs;
        w ← need TypeError (_weights e);
        w ← np.take_cols indices w;
        Ok (coords, confs, np.gt0 w)
      end;
    msf_tail (numSelected e) coords confs weights
  end.

(** What [getRMSDs] returns: a vector, or the pairwise matrix. *)
Inductive rmsds : Type :=
  | RMSDVector (v : list float)
  | RMSDMatrix (m : list (list float)).

(** [M[i, j] = v] on a matrix stored as a list of rows. *)
Definition set2 (i j : nat) (v : float) (m : list (list float))
    : list (list float) :=
  alter (λ row, <[j := v]> row) i m.

(** [a.shape[1]] of a stack whose rows are lists; [ncols] stands for it
    when the stack has no frame. *)
Definition shape1 {A} (ncols : nat) (a : list (list A)) : nat :=
  match a with [] => ncols | r :: _ => length r end.

(** [range(a, b)]. *)
Definition range (a b : nat) : list nat := seq a (b - a).

Section statistics.
Context `{RigidAlignment}.

(** The body of the two nested loops of [getRMSDs]. *)
Definition pairwise_step (confs : list coordset) (indices : list nat)
    (weights : option (list weightset)) (i j : nat) (RMSDs : list (list float))
    : result (list (list float)) :=
  w ← match weights with
      | None => Ok None
      | Some weights =>
        wi ← need IndexError (weights !! i);
        wj ← need IndexError (weights !! j);
        Some <$> np.zip_same PrimFloat.mul wi wj
      end;
  ci ← need IndexError (confs !! i);
  ci ← np.take indices ci;
  cj ← need IndexError (confs !! j);
  cj ← np.take indices cj;
  let v := getRMSD ci cj w in
  Ok (set2 j i v (set2 i j v RMSDs)).

(** [getRMSDs]: root mean square deviations from the reference, or the
    pairwise matrix. *)
Definition getRMSDs (pairwise : bool) (e : PDBEnsemble)
    : result (option rmsds) :=
  match _confs e, _coords e with
  | Some confs, Some coords =>
    let indices :=
      match _indices e with
      | None => seq 0 (shape1 (_n_atoms e) confs)
      | Some indices => indices
      end in
    weights ← match _weights e with
              | None => Ok None
              | Some w => Some <$> np.take_cols indices w
              end;
    if pairwise then
      let n_confs := numConfs e in
      RMSDs ← foldM (λ RMSDs i,
                 foldM (λ RMSDs j, pairwise_step confs indices weights i j RMSDs)
                       RMSDs (range (i + 1) n_confs))
              (replicate n_confs (replicate n_confs 0%float))
              (range 0 n_confs);
      Ok (Some (RMSDMatrix RMSDs))
    else
      ref ← np.take indices coords;
      sel ← np.take_cols indices confs;
      Ok (Some (RMSDVector (getRMSD_stack ref sel weights)))
  | _, _ => Ok None
  end.

End statistics.

(** ** Retrieval *)

(** An index into an axis of length [n]; negative indices count from the
    end. *)
Definition norm_index (n : nat) (i : Z) : result nat :=
  if decide (0 ≤ i < Z.of_nat n)%Z then Ok (Z.to_nat i)
  else if decide (- Z.of_nat n ≤ i < 0)%Z then Ok (Z.to_nat (Z.of_nat n + i))
  else Raise IndexError.

(** [a[idx]] for the flattened index array [np.array([indices]).flatten()].
    An empty list flattens to an empty [float64] array, which numpy refuses
    as an index. *)
Definition take_frames {A} (idx : list Z) (a : list A) : result (list A) :=
  match idx with
  | [] => Raise IndexError
  | _ => rows ← mapM_r (norm_index (length a)) idx; np.take rows a
  end.

(** [conf[which] = coords[which]] with [which = (w == 0)]: the rows of
    [conf] whose weight is zero are replaced by those of [coords].  A
    boolean mask must be as long as the axis it indexes. *)
Definition replace_unresolved (coords : coordset) (w : weightset)
    (conf : coordset) : result coordset :=
  let which := map (λ x, PrimFloat.eqb x 0) w in
  if decide (length which = length coords ∧ length which = length conf)
  then Ok (zip_with (λ (b : bool) cr, if b then cr.1 else cr.2)
                    which (zip coords conf))
  else Raise IndexError.

(** Two integer index arrays in one subscript, [a[rows, cols]], are
    broadcast against each other and select one element per pair; the
    result has one axis less than [a[rows][:, cols]]. *)
Definition broadcast_pairs (rows cols : list nat) : result (list (nat * nat)) :=
  if decide (length rows = length cols) then Ok (zip rows cols)
  else match rows, cols with
       | [r], _ => Ok (map (pair r) cols)
       | _, [c] => Ok (map (λ r, (r, c)) rows)
       | _, _ => Raise IndexError
       end.

(** [a[indices]] where [indices] is [slice(None)] or the flattened index
    array. *)
Definition frames_of {A} (indices : option (list Z)) (a : list A)
    : result (list A) :=
  match indices with None => Ok a | Some idx => take_frames idx a end.

(** What [getCoordsets] hands back: a stack of coordinate sets, or (from
    paired index arrays) a two-dimensional array. *)
Inductive coordsets : Type :=
  | Stack (frames : list coordset)
  | Flat (rows : coordset).

(** [getCoordsets(indices, selected)].  [indices] is [None] or the list of
    frame indices (a single integer [i] is the list [[i]]). *)
Definition getCoordsets (indices : option (list Z)) (selected : bool)
    (e : PDBEnsemble) : result (option coordsets) :=
  match _confs e with
  | None => Ok None
  | Some all_confs =>
    match _indices e, selected with
    | Some selids, true =>
      coords ← need TypeError (_coords e);
      coords ← np.take selids coords;
      match indices with
      | None =>
        confs ← np.take_cols selids all_confs;
        weights ← need TypeError (_weights e);
        confs ← foldM (λ confs '(i, w),
                   w ← np.take selids w;
                   conf ← need IndexError (confs !! i);
                   conf ← replace_unresolved coords w conf;
                   Ok (<[i := conf]> confs))
                 confs (enumerate weights);
        Ok (Some (Stack confs))
      | Some idx =>
        (* [self._confs[indices, selids]] pairs the two index arrays: the
           copy is two-dimensional, one row per pair *)
        match idx with [] => Raise IndexError | _ => Ok () end;;
        rows ← mapM_r (norm_index (length all_confs)) idx;
        pairs ← broadcast_pairs rows selids;
        confs ← mapM_r (λ '(f, a),
                   conf ← need IndexError (all_confs !! f);
                   need IndexError (conf !! a)) pairs;
        weights ← need TypeError (_weights e);
        weights ← take_frames idx weights;
        (* [confs[i, which] = coords[which]] now indexes row [i], three
           numbers long, with the mask over the selected atoms: a mask of
           another length is an [IndexError], and a mask of length three
           selects numbers to which rows of [coords] cannot be assigned *)
        confs ← foldM (λ (confs : coordset) '(i, w),
                   w ← np.take selids w;
                   _ ← need IndexError (confs !! i);
                   if decide (length w = 3) then Raise ValueError
                   else Raise IndexError)
                 confs (enumerate weights);
        Ok (Some (Flat confs))
      end
    | _, _ =>
      confs ← frames_of indices all_confs;
      weights ← need TypeError (_weights e);
      weights ← frames_of indices weights;
      confs ← foldM (λ confs '(i, w),
                 coords ← need TypeError (_coords e);
                 conf ← need IndexError (confs !! i);
                 conf ← replace_unresolved coords w conf;
                 Ok (<[i := conf]> confs))
               confs (enumerate weights);
      Ok (Some (Stack confs))
    end
  end.

(** ** Methods that assign to [self]

    A method runs on the ensemble and gives the ensemble back with the
    outcome; an exception does not undo the assignments made before it was
    raised. *)

Definition method (A : Type) : Type := PDBEnsemble → PDBEnsemble * result A.

Definition mreturn {A} (a : A) : method A := λ e, (e, Ok a).
Definition mraise {A} (x : exn) : method A := λ e, (e, Raise x).
Definition mthen {A B} (m : method A) (f : A → method B) : method B :=
  λ e, match m e with
       | (e', Ok a) => f a e'
       | (e', Raise x) => (e', Raise x)
       end.
(** An expression that reads [self] and may raise. *)
Definition mread {A} (f : PDBEnsemble → result A) : method A := λ e, (e, f e).
(** An assignment to an attribute of [self]. *)
Definition massign (f : PDBEnsemble → PDBEnsemble) : method unit :=
  λ e, (f e, Ok ()).

#[export] Instance method_ret : MRet method := @mreturn.
#[export] Instance method_bind : MBind method := λ A B f m, mthen m f.

(** [for x in l: body], stopping at the first exception. *)
Fixpoint mfor {A} (l : list A) (body : A → method unit) : method unit :=
  match l with
  | [] => mreturn ()
  | a :: l => mthen (body a) (λ _, mfor l body)
  end.

(** ** Superposition *)

(** [tvec + np.dot(conf, rmat.T)]: every point is rotated, then translated.
    (The three products of a row are added from left to right.) *)
Definition dot3 (p r : vec3) : float :=
  let '(px, py, pz) := p in let '(rx, ry, rz) := r in
  (px * rx + py * ry + pz * rz)%float.
Definition apply_transformation (rmat : mat3) (tvec : vec3) (conf : coordset)
    : coordset :=
  let '(r0, r1, r2) := rmat in
  map (λ p, np.v3map2 PrimFloat.add tvec (dot3 p r0, dot3 p r1, dot3 p r2))
      conf.

Definition zeros4 : mat4 :=
  ((0, 0, 0, 0), (0, 0, 0, 0), (0, 0, 0, 0), (0, 0, 0, 0))%float.
(** [t[:3, :3] = rmat]. *)
Definition set_rotation (rmat : mat3) (t : mat4) : mat4 :=
  let '((_, _, _, a), (_, _, _, b), (_, _, _, c), last) := t in
  let '((r00, r01, r02), (r10, r11, r12), (r20, r21, r22)) := rmat in
  ((r00, r01, r02, a), (r10, r11, r12, b), (r20, r21, r22, c), last).
(** [t[:3, 3] = tvec]. *)
Definition set_translation (tvec : vec3) (t : mat4) : mat4 :=
  let '((a0, a1, a2, _), (b0, b1, b2, _), (c0, c1, c2, _), last) := t in
  let '(tx, ty, tz) := tvec in
  ((a0, a1, a2, tx), (b0, b1, b2, ty), (c0, c1, c2, tz), last).

Section superposition.
Context `{RigidAlignment}.

(** One turn of the loop of [_superpose]: [conf] is row [i] of
    [confs_selected]; [confs[i] = ...] writes into the array [self._confs]. *)
Definition superpose_step (coords : option coordset)
    (weights : option (list weightset)) (i : nat) (conf : coordset)
    (trans : option (list mat4)) : method (option (list mat4)) :=
  weights ← mread (λ _, need TypeError weights);
  w ← mread (λ _, need IndexError (weights !! i));
  coords ← mread (λ _, need TypeError coords);
  let '(rmat, tvec) := getTransformation conf coords w in
  trans ← mread (λ _,
    match trans with
    | None => Ok None
    | Some trans =>
      t ← need IndexError (trans !! i);
      Ok (Some (<[i := set_translation tvec (set_rotation rmat t)]> trans))
    end);
  confs ← mread (λ e, need TypeError (_confs e));
  row ← mread (λ _, need IndexError (confs !! i));
  massign (set_confs (Some (<[i := apply_transformation rmat tvec row]> confs)));;
  mreturn trans.

Fixpoint superpose_loop (coords : option coordset)
    (weights : option (list weightset)) (l : list (nat * coordset))
    (trans : option (list mat4)) : method (option (list mat4)) :=
  match l with
  | [] => mreturn trans
  | (i, conf) :: l =>
    trans ← superpose_step coords weights i conf trans;
    superpose_loop coords weights l trans
  end.

(** What [_superpose] works on: the weights, the reference and the
    conformations, all at the selected atoms. *)
Definition superpose_operands (e : PDBEnsemble)
    : result (option (list weightset) * option coordset
              * option (list coordset)) :=
  match _indices e with
  | None => Ok (_weights e, _coords e, _confs e)
  | Some indices =>
    weights ← need TypeError (_weights e);
    weights ← np.take_cols indices weights;
    coords ← need TypeError (_coords e);
    coords ← np.take indices coords;
    confs ← need TypeError (_confs e);
    confs ← np.take_cols indices confs;
    Ok (Some weights, Some coords, Some confs)
  end.

(** [_superpose(trans=...)]: superpose the conformations onto the reference
    and update the coordinates. *)
Definition _superpose (trans : bool) : method unit :=
  e ← mread Ok;
  let trans :=
    if trans then Some (replicate (_n_csets e) zeros4) else None in
  '(weights, coords, confs_selected) ← mread superpose_operands;
  confs_selected ← mread (λ _, need TypeError confs_selected);
  trans ← superpose_loop coords weights (enumerate confs_selected) trans;
  massign (set_trans trans).

End superposition.

(** ** Adding coordinate sets *)

(** A coordinate argument: a two-dimensional array, or a stack of shape
    [(len frames, n_nodes, 3)]. *)
Inductive ndarray : Type :=
  | A2 (c : coordset)
  | A3 (n_nodes : nat) (frames : list coordset).

(** A weight argument: one weight per atom, or one row per coordinate set. *)
Inductive warray : Type :=
  | W1 (w : weightset)
  | W3 (w : list weightset).

(** The [label] argument. *)
Inductive label_arg : Type :=
  | LNone
  | LStr (s : string)
  | LList (l : list string).

(** The [sequence] keyword. *)
Inductive sequence_arg : Type :=
  | SeqNone
  | SeqSequence (s : string)    (* a [Sequence] instance *)
  | SeqMSA (m : MSA)
  | SeqStr (s : string).

(** Modelled from the spec: the validators of [prody.utilities].
    [checkCoords(coords, csets=True, natoms=n)] raises when the shape of
    [coords] does not fit [n] atoms; [checkWeights(weights, natoms, ncsets)]
    raises on a length mismatch and returns the weights in shape
    [(ncsets, natoms, 1)]. *)
Class Utilities : Type := {
  checkCoords : ndarray → nat → result unit;
  checkWeights : warray → nat → nat → result (list weightset);
}.

(** [label or 'Unknown']. *)
Definition label_or_unknown (label : label_arg) : label_arg :=
  match label with
  | LNone | LStr "" | LList [] => LStr "Unknown"
  | _ => label
  end.

(** [full[indices] = src] on one frame. *)
Definition scatter (indices : list nat) (src full : coordset) : result coordset :=
  foldM (λ acc '(i, p),
           if decide (i < length acc) then Ok (<[i := p]> acc)
           else Raise IndexError)
        full (zip indices src).

(** [np.concatenate((a, b), axis=0)]; the rows of both must have the same
    length (the shape of a stack with no frame is not tracked). *)
Definition concatenate {A} (a b : list (list A)) : result (list (list A)) :=
  match a, b with
  | r1 :: _, r2 :: _ =>
    if decide (length r1 = length r2) then Ok (a ++ b) else Raise ValueError
  | _, _ => Ok (a ++ b)
  end.

(** Truth value of [self._msa]. *)
Definition msa_true (m : option MSA) : bool :=
  match m with Some m => bool_decide (msa_seqs m ≠ []) | None => false end.

(** [''.join('X' for _ in range(n))]. *)
Definition unknown_sequence (n : nat) : string :=
  String.concat "" (replicate n "X").

Section mutation.
Context `{Utilities}.

(** The sequences to record for this call ([seqs]), or [None]. *)
Definition resolve_sequences (e : PDBEnsemble) (sequence : sequence_arg)
    (n_atoms n_repeats : nat) : option (list string) :=
  let sequence :=
    match sequence with
    | SeqNone =>
      match _atoms e ≫= atomic_sequence with
      | Some s => SeqStr s
      | None =>
        if msa_true (_msa e) then SeqStr (unknown_sequence n_atoms)
        else SeqNone
      end
    | _ => sequence
    end in
  match sequence with
  | SeqSequence s => Some [s]
  | SeqMSA m => Some (msa_seqs m)
  | SeqStr s => Some (replicate n_repeats s)
  | SeqNone => None
  end.

(** The labels of the new coordinate sets. *)
Definition resolve_labels (label : label_arg) (n_csets : nat)
    (degeneracy : bool) : result (list string) :=
  if bool_decide (1 < n_csets) && negb degeneracy then
    match label with
    | LStr s => Ok (map (λ i, s +:+ "_m" +:+ pretty (i + 1)) (seq 0 n_csets))
    | LList l =>
      if decide (length l ≠ n_csets) then Raise ValueError else Ok l
    | LNone => Raise TypeError
    end
  else
    match label with
    | LStr s => Ok [s]
    | LList l => Ok l
    | LNone => Raise TypeError
    end.

(** [addCoordset(coords, weights, label, degeneracy=..., sequence=...)] for
    [coords] an array or [None]. *)
Definition addCoordset (coords : option ndarray) (weights : option warray)
    (label : label_arg) (degeneracy : bool) (sequence : sequence_arg)
    : method unit :=
  e ← mread Ok;
  let n_atoms := numAtoms e in
  let n_select := numSelected e in
  let n_confs := numCoordsets e in
  coords ← mread (λ _, need ValueError coords);
  let label := label_or_unknown label in
  (* check coordinates *)
  mread (λ _, match checkCoords coords n_atoms with
              | Ok _ => Ok ()
              | Raise _ => checkCoords coords n_select
              end);;
  let '(n_csets, n_nodes, coords) :=
    match coords with
    | A2 c => (1, length c, [c])
    | A3 n_nodes frames =>
      (length frames, n_nodes, if degeneracy then take 1 frames else frames)
    end in
  let n_repeats := if degeneracy then 1 else n_csets in
  (if decide (n_atoms = 0) then massign (set_n_atoms n_nodes) else mreturn ());;
  coords ← mread (λ e,
    if bool_decide (n_nodes = n_select) && isSelected e then
      ref ← need TypeError (_coords e);
      indices ← need TypeError (_indices e);
      (* a single frame is broadcast over the [n_csets] copies *)
      let srcs :=
        if decide (length coords = n_csets) then coords
        else replicate n_csets (default [] (head coords)) in
      mapM_r (λ src, scatter indices src ref) srcs
    else Ok coords);
  (* check weights *)
  weights ← mread (λ _,
    match weights with
    | None => Ok (replicate n_csets (replicate n_atoms 1%float))
    | Some weights => checkWeights weights n_atoms n_csets
    end);
  let weights := if degeneracy then take 1 weights else weights in
  (* check sequences *)
  seqs ← mread (λ e, Ok (resolve_sequences e sequence n_atoms n_repeats));
  mread (λ _, match seqs with
              | Some ((_ :: _) as seqs) =>
                if decide (length seqs ≠ n_repeats) then Raise ValueError
                else Ok ()
              | _ => Ok ()
              end);;
  (* assign new values: update labels *)
  labels ← mread (λ _, resolve_labels label n_csets degeneracy);
  massign (λ e, set_labels (_labels e ++ labels) e);;
  (* update sequences *)
  match seqs with
  | Some ((_ :: _) as seqs) =>
    e ← mread Ok;
    let msa := mkMSA seqs (_title e) labels in
    match _msa e with
    | None =>
      if decide (0 < n_confs) then
        old_labels ← mread (λ e,
          mapM_r (λ i, need IndexError (_labels e !! i)) (seq 0 n_confs));
        let def_seqs := replicate n_confs (unknown_sequence n_atoms) in
        massign (set_msa
          (Some (msa_extend (mkMSA def_seqs (_title e) old_labels) msa)))
      else massign (set_msa (Some msa))
    | Some old => massign (set_msa (Some (msa_extend old msa)))
    end
  | _ => mreturn ()
  end;;
  (* update coordinates *)
  e ← mread Ok;
  match _confs e, _weights e with
  | None, None =>
    massign (set_confs (Some coords));;
    massign (set_weights (Some weights));;
    massign (set_n_csets n_repeats)
  | Some old_confs, Some old_weights =>
    confs ← mread (λ _, concatenate old_confs coords);
    massign (set_confs (Some confs));;
    weights ← mread (λ _, concatenate old_weights weights);
    massign (set_weights (Some weights));;
    massign (λ e, set_n_csets (_n_csets e + n_repeats) e)
  | _, _ => mraise RuntimeError
  end.

End mutation.

(** ** Python slices *)

Record slice : Type := mkSlice {
  slice_start : option Z;
  slice_stop : option Z;
  slice_step : option Z;
}.

(** [slice.indices(n)]: the normalized start, stop and step. *)
Definition slice_adjust (n : nat) (s : slice) : result (Z * Z * Z) :=
  let n := Z.of_nat n in
  let step := default 1%Z (slice_step s) in
  if decide (step = 0)%Z then Raise ValueError else
  let neg := bool_decide (step < 0)%Z in
  let lower := if neg then (-1)%Z else 0%Z in
  let upper := if neg then (n - 1)%Z else n in
  let clamp (i : Z) : Z :=
    if decide (i < 0)%Z then Z.max (i + n) lower else Z.min i upper in
  let start := from_option clamp (if neg then upper else lower) (slice_start s) in
  let stop := from_option clamp (if neg then lower else upper) (slice_stop s) in
  Ok (start, stop, step).

(** The rows [a[s]] selects from an axis of length [n]. *)
Definition slice_rows (n : nat) (s : slice) : result (list nat) :=
  '(start, stop, step) ← slice_adjust n s;
  let len :=
    if decide (step < 0)%Z then
      if decide (stop < start)%Z then ((start - stop - 1) / (- step) + 1)%Z
      else 0%Z
    else
      if decide (start < stop)%Z then ((stop - start - 1) / step + 1)%Z
      else 0%Z in
  Ok (map (λ k, Z.to_nat (start + Z.of_nat k * step)) (seq 0 (Z.to_nat len))).

(** The subscript of [__getitem__]. *)
Inductive selector : Type :=
  | IInt (i : Z)
  | ISlice (s : slice)
  | IList (l : list Z).

(** The rows a slice or an index list selects from an axis of length [n]. *)
Definition selector_rows (n : nat) (index : selector) : result (list nat) :=
  match index with
  | IInt i => i ← norm_index n i; Ok [i]
  | ISlice s => slice_rows n s
  | IList l => mapM_r (norm_index n) l
  end.

(** Modelled from the spec: [Ensemble.setCoords] sets the reference
    coordinates, fixing the number of atoms, and refuses [None];
    [Ensemble.setAtoms] records the atoms. *)
Definition setCoords (coords : option coordset) : method unit :=
  coords ← mread (λ _, need ValueError coords);
  massign (set_coords (Some coords));;
  massign (set_n_atoms (length coords)).
Definition setAtoms (atoms : option Atomic) : method unit :=
  massign (set_atoms atoms).

(** Modelled from the spec: [msa[index]] keeps the rows at [index]. *)
Definition msa_rows (rows : list nat) (m : MSA) : result MSA :=
  seqs ← np.take rows (msa_seqs m);
  labels ← np.take rows (msa_labels m);
  Ok (mkMSA seqs (msa_title m) labels).

(** ** Extracting a sub-ensemble: what the new ensemble holds *)

(** [getConformation(index)]: the position of the conformation a
    [PDBConformation] is made for. *)
Definition getConformation (index : Z) (e : PDBEnsemble) : result nat :=
  match _confs e with
  | None => Raise AttributeError
  | Some _ =>
    let n_confs := Z.of_nat (_n_csets e) in
    if decide (- n_confs ≤ index < n_confs)%Z then
      Ok (Z.to_nat (if decide (index < 0)%Z then n_confs + index else index))
    else Raise IndexError
  end.

(** ['{0} ({1[0]}:{1[1]}:{1[2]})'.format(title, index.indices(len(self)))]. *)
Definition slice_title (title : string) (n : nat) (s : slice) : result string :=
  '(start, stop, step) ← slice_adjust n s;
  Ok (title +:+ " (" +:+ pretty start +:+ ":" +:+ pretty stop +:+ ":"
            +:+ pretty step +:+ ")").

(** [msa = self._msa; if msa: msa = self._msa[index]]. *)
Definition getitem_msa (index : selector) (e : PDBEnsemble)
    : result (option MSA) :=
  match _msa e with
  | Some m =>
    if msa_true (Some m) then
      rows ← selector_rows (length (msa_seqs m)) index;
      Some <$> msa_rows rows m
    else Ok (Some m)
  | None => Ok None
  end.

Section extraction.
Context `{Utilities}.

(** The ensemble [__getitem__] builds for a slice or an index list, after
    [ens.setCoords(...)] and [ens.addCoordset(...)]. *)
Definition getitem_ensemble (index : selector) (msa : option MSA)
    (e : PDBEnsemble) : result PDBEnsemble :=
  title ← match index with
          | ISlice s => slice_title (_title e) (_n_csets e) s
          | _ => Ok (_title e)
          end;
  let (ens, r) := setCoords (_coords e) (new_ensemble title) in
  r;;
  confs ← need TypeError (_confs e);
  rows ← selector_rows (length confs) index;
  frames ← np.take rows confs;
  weights ← need TypeError (_weights e);
  rows ← selector_rows (length weights) index;
  weights ← np.take rows weights;
  rows ← selector_rows (length (_labels e)) index;
  labels ← np.take rows (_labels e);
  let (ens, r) :=
    addCoordset (Some (A3 (shape1 (_n_atoms e) confs) frames))
                (Some (W3 weights)) (LList labels) false
                (match msa with Some m => SeqMSA m | None => SeqNone end)
                ens in
  r;;
  Ok ens.

End extraction.

(** ** Concatenation *)

Section concatenation.
Context `{Utilities}.

(** [copy(e._confs)], an array of shape [(n_csets, n_atoms, 3)] or [None],
    as the [coords] argument of [addCoordset]. *)
Definition stack_arg (e : PDBEnsemble) : option ndarray :=
  (λ confs, A3 (shape1 (_n_atoms e) confs) confs) <$> _confs e.

(** [sequence=e._msa]. *)
Definition msa_arg (e : PDBEnsemble) : sequence_arg :=
  match _msa e with Some m => SeqMSA m | None => SeqNone end.

(** [self + other] for [other] a [PDBEnsemble]. *)
Definition __add__ (self other : PDBEnsemble) : result PDBEnsemble :=
  if decide (numAtoms self ≠ numAtoms other) then Raise ValueError else
  let ensemble :=
    new_ensemble (_title self +:+ " + " +:+ _title other) in
  let (ensemble, r) := setCoords (_coords self) ensemble in
  r;;
  let (ensemble, r) :=
    match _confs self with
    | Some _ =>
      addCoordset (stack_arg self) (W3 <$> _weights self)
                  (LList (_labels self)) false (msa_arg self) ensemble
    | None => (ensemble, Ok ())
    end in
  r;;
  let (ensemble, r) :=
    addCoordset (stack_arg other) (W3 <$> _weights other)
                (LList (_labels other)) false (msa_arg other) ensemble in
  r;;
  let (ensemble, r) :=
    match _atoms self with
    | Some _ =>
      mthen (setAtoms (_atoms self))
            (λ _, massign (set_indices (_indices self))) ensemble
    | None =>
      mthen (setAtoms (_atoms other))
            (λ _, massign (set_indices (_indices other))) ensemble
    end in
  r;;
  Ok ensemble.

End concatenation.

(** ** Deleting coordinate sets: labels and sequences *)

(** [index.sort(reverse=True)]. *)
Fixpoint insert_desc (i : Z) (l : list Z) : list Z :=
  match l with
  | [] => [i]
  | j :: l' => if decide (j ≤ i)%Z then i :: l else j :: insert_desc i l'
  end.
Definition sort_desc (l : list Z) : list Z := foldr insert_desc [] l.

(** [l.pop(i)]: the list without entry [i]; a negative [i] counts from the
    end. *)
Definition pop {A} (i : Z) (l : list A) : result (list A) :=
  k ← norm_index (length l) i; Ok (delete k l).

(** The statements of [delCoordset(index)] after the call of
    [Ensemble.delCoordset]: the labels at [index] are popped, from the
    largest index down, and the alignment keeps the rows whose number is not
    in [index].  ([index] is the list of indices; a single integer [i] is
    the list [[i]].) *)
Definition delCoordset_labels (index : list Z) : method unit :=
  let index := sort_desc index in
  mfor index (λ i,
    labels ← mread (λ e, pop i (_labels e));
    massign (set_labels labels));;
  e ← mread Ok;
  match _msa e with
  | Some m =>
    let rest :=
      filter (λ i, Z.of_nat i ∉ index) (seq 0 (length (msa_seqs m))) in
    m ← mread (λ _, msa_rows rest m);
    massign (set_msa (Some m))
  | None => mreturn ()
  end.

(** * Arrays as objects

    The attributes of an ensemble name numpy arrays.  Two names can share
    one buffer: an assignment binds a name to an array, [a[i] = x] writes
    into the buffer, [a.copy()] and indexing with a list allocate a new
    buffer, and indexing with a slice gives a view of the old one.  The
    methods that depend on the difference are given here on a heap of
    buffers; what an array holds is computed by the definitions above. *)

Module Store.

Definition loc : Type := positive.

(** The rows (first-axis entries) of the arrays an ensemble uses. *)
Inductive row : Type :=
  | RPoint (p : vec3)
  | RFrame (c : coordset)
  | RWeights (w : weightset)
  | RMat (t : mat4)
  | RIndex (i : nat).

Class Rowlike (A : Type) : Type := {
  to_row : A → row;
  of_row : row → option A;
}.
#[global] Instance rowlike_point : Rowlike vec3 :=
  {| to_row := RPoint; of_row r := match r with RPoint p => Some p | _ => None end |}.
#[global] Instance rowlike_frame : Rowlike coordset :=
  {| to_row := RFrame; of_row r := match r with RFrame c => Some c | _ => None end |}.
#[global] Instance rowlike_weights : Rowlike weightset :=
  {| to_row := RWeights; of_row r := match r with RWeights w => Some w | _ => None end |}.
#[global] Instance rowlike_mat : Rowlike mat4 :=
  {| to_row := RMat; of_row r := match r with RMat t => Some t | _ => None end |}.
#[global] Instance rowlike_index : Rowlike nat :=
  {| to_row := RIndex; of_row r := match r with RIndex i => Some i | _ => None end |}.

Abbreviation heap := (gmap loc (list row)).

(** An array object: the buffer it lives in and, for a view, the rows of
    the buffer it shows. *)
Record array : Type := mkArray {
  base : loc;
  window : option (list nat);
}.

(** The row of the buffer behind row [k] of the array. *)
Definition buffer_row (a : array) (k : nat) : option nat :=
  match window a with None => Some k | Some w => w !! k end.

Definition read_rows (h : heap) (a : array) : option (list row) :=
  buf ← h !! base a;
  match window a with
  | None => Some buf
  | Some w => mapM (λ i, buf !! i) w
  end.

Definition read {A} `{Rowlike A} (h : heap) (a : array) : option (list A) :=
  read_rows h a ≫= mapM of_row.

(** A new array with the given rows: [np.zeros], [a.copy()], [a[list]],
    [np.concatenate], ... *)
Definition alloc {A} `{Rowlike A} (l : list A) (h : heap) : heap * array :=
  let p := fresh (dom h) in (<[p := to_row <$> l]> h, mkArray p None).

(** [a[k] = x]: written into the buffer, so seen through every array that
    shares it. *)
Definition setitem {A} `{Rowlike A} (a : array) (k : nat) (x : A) (h : heap)
    : heap :=
  match buffer_row a k with
  | Some i => alter (λ buf, <[i := to_row x]> buf) (base a) h
  | None => h
  end.

(** [a[k] = x] for every row [k] of [l]. *)
Definition setitems {A} `{Rowlike A} (a : array) (l : list A) (h : heap)
    : heap :=
  foldl (λ h '(k, x), setitem a k x h) h (enumerate l).

(** [a[rows]] for a slice: a view of the same buffer. *)
Definition view (rows : list nat) (a : array) : option array :=
  match window a with
  | None => Some (mkArray (base a) (Some rows))
  | Some w => w' ← mapM (λ k, w !! k) rows; Some (mkArray (base a) (Some w'))
  end.

(** The ensemble as an object: its arrays by name. *)
Record object : Type := mkObject {
  o_title : string;
  o_coords : option array;
  o_n_atoms : nat;
  o_n_csets : nat;
  o_weights : option array;
  o_confs : option array;
  o_atoms : option Atomic;
  o_indices : option array;
  o_labels : list string;
  o_trans : option array;
  o_msa : option MSA;
}.

Definition read_attr {A} `{Rowlike A} (h : heap) (a : option array)
    : option (option (list A)) :=
  match a with
  | None => Some None
  | Some a => Some <$> read h a
  end.

(** What the attributes of the object hold. *)
Definition load (h : heap) (o : object) : option PDBEnsemble :=
  coords ← read_attr h (o_coords o);
  weights ← read_attr h (o_weights o);
  confs ← read_attr h (o_confs o);
  indices ← read_attr h (o_indices o);
  trans ← read_attr h (o_trans o);
  Some (mkEnsemble (o_title o) coords (o_n_atoms o) (o_n_csets o) weights confs
                   (o_atoms o) indices (o_labels o) trans (o_msa o)).

(** The buffers the object can reach. *)
Definition locs (o : object) : list loc :=
  base <$> omap id [o_coords o; o_weights o; o_confs o; o_indices o; o_trans o].

Definition bind_confs (a : option array) (o : object) : object :=
  mkObject (o_title o) (o_coords o) (o_n_atoms o) (o_n_csets o) (o_weights o)
           a (o_atoms o) (o_indices o) (o_labels o) (o_trans o) (o_msa o).
Definition bind_trans (a : option array) (o : object) : object :=
  mkObject (o_title o) (o_coords o) (o_n_atoms o) (o_n_csets o) (o_weights o)
           (o_confs o) (o_atoms o) (o_indices o) (o_labels o) a (o_msa o).

(** A call on the heap: the new heap and object with the outcome, or
    nothing when an attribute names no array of the heap. *)
Definition call (A : Type) : Type := option (heap * object * result A).

Definition alloc_attr {A} `{Rowlike A} (l : option (list A)) (h : heap)
    : heap * option array :=
  match l with
  | None => (h, None)
  | Some l => let '(h, a) := alloc l h in (h, Some a)
  end.

Section methods.
Context `{RigidAlignment}.

(** [_superpose]: [confs[i] = ...] writes into the array [self._confs];
    [self._trans = trans] binds the new array of transformations, and is
    not reached when the loop raises. *)
Definition _superpose (trans : bool) (h : heap) (self : object) : call unit :=
  e ← load h self;
  let '(e', r) := _superpose trans e in
  let h :=
    match o_confs self, _confs e' with
    | Some a, Some confs => setitems a confs h
    | _, _ => h
    end in
  match r with
  | Ok _ =>
    let '(h, t) := alloc_attr (_trans e') h in
    Some (h, bind_trans t self, Ok ())
  | Raise x => Some (h, self, Raise x)
  end.

End methods.

(** The base class [Ensemble], which is not part of the verified file:
    [Ensemble.iterpose(self, rmsd)] runs the convergence loop on the object,
    and [Ensemble.superpose(self)] calls [self._superpose(trans=...)]. *)
Class EnsembleBase : Type := {
  Ensemble_iterpose : float → heap → object → call unit;
  superpose_trans : bool;
}.

Section iterpose.
Context `{RigidAlignment} `{EnsembleBase}.

(** Modelled from the spec: [Ensemble.superpose], the superposition of every
    conformation onto the reference by [_superpose]. *)
Definition superpose (h : heap) (self : object) : call unit :=
  _superpose superpose_trans h self.

(** [iterpose(rmsd)]. *)
Definition iterpose (rmsd : float) (h : heap) (self : object) : call unit :=
  match o_confs self with
  | None => Some (h, self, Raise AttributeError)
  | Some a =>
    (* confs = self._confs.copy() *)
    match read (A:=coordset) h a with
    | None => None
    | Some old =>
      let '(h, confs) := alloc old h in
      (* Ensemble.iterpose(self, rmsd) *)
      match Ensemble_iterpose rmsd h self with
      | None => None
      | Some (h, self, Raise x) => Some (h, self, Raise x)
      | Some (h, self, Ok _) =>
        (* self._confs = confs; self.superpose() *)
        superpose h (bind_confs (Some confs) self)
      end
    end
  end.

End iterpose.

(** What [__getitem__] returns: a [PDBConformation] for a position, or a
    new ensemble. *)
Inductive item : Type :=
  | Conformation (index : nat)
  | SubEnsemble (ens : object).

Section getitem.
Context `{Utilities}.

(** [ens._trans = self._trans[index]]: a slice of an array is a view of it,
    an index list makes a new array. *)
Definition getitem_trans (index : selector) (h : heap) (trans : option array)
    : option (heap * result (option array)) :=
  match trans with
  | None => Some (h, Ok None)
  | Some t =>
    old ← read (A:=mat4) h t;
    match selector_rows (length old) index with
    | Raise x => Some (h, Raise x)
    | Ok rows =>
      match index with
      | ISlice _ => v ← view rows t; Some (h, Ok (Some v))
      | _ =>
        match np.take rows old with
        | Raise x => Some (h, Raise x)
        | Ok new => let '(h, a) := alloc new h in Some (h, Ok (Some a))
        end
      end
    end
  end.

(** [__getitem__(index)].  The copies of the reference, of the selected
    conformations and of their weights are new arrays; the atoms and the
    array of selected indices are those of [self]. *)
Definition __getitem__ (index : selector) (h : heap) (self : object)
    : option (heap * result item) :=
  e ← load h self;
  match getitem_msa index e with
  | Raise x => Some (h, Raise x)
  | Ok msa =>
    match index with
    | IInt i => Some (h, Conformation <$> getConformation i e)
    | _ =>
      match getitem_ensemble index msa e with
      | Raise x => Some (h, Raise x)
      | Ok ens =>
        let '(h, coords) := alloc_attr (_coords ens) h in
        let '(h, confs) := alloc_attr (_confs ens) h in
        let '(h, weights) := alloc_attr (_weights ens) h in
        '(h, trans) ← getitem_trans index h (o_trans self);
        match trans with
        | Raise x => Some (h, Raise x)
        | Ok trans =>
          Some (h, Ok (SubEnsemble
            (mkObject (_title ens) coords (_n_atoms ens) (_n_csets ens)
                      weights confs (o_atoms self) (o_indices self)
                      (_labels ens) trans (_msa ens))))
        end
      end
    end
  end.

End getitem.

End Store.

(** * Instances of the collaborators

    Used to run the model on concrete ensembles. *)

(** Modelled from the spec: [checkCoords] accepts a stack whose atom count
    is [natoms], and any stack while no atom count is fixed ([natoms = 0]);
    [checkWeights] accepts weights that are not negative, one per atom,
    repeated for every coordinate set, or one row of [natoms] weights per
    coordinate set. *)
Definition spec_checkCoords (coords : ndarray) (natoms : nat) : result unit :=
  let n_nodes := match coords with A2 c => length c | A3 n _ => n end in
  if decide (natoms = 0 ∨ n_nodes = natoms) then Ok () else Raise ValueError.
Definition not_negative (w : weightset) : bool :=
  forallb (λ x, PrimFloat.leb 0 x) w.
Definition spec_checkWeights (weights : warray) (natoms ncsets : nat)
    : result (list weightset) :=
  match weights with
  | W1 w =>
    if decide (length w = natoms) then
      if not_negative w then Ok (replicate ncsets w) else Raise ValueError
    else Raise ValueError
  | W3 w =>
    if decide (length w = ncsets ∧ Forall (λ r, length r = natoms) w)
    then if forallb not_negative w then Ok w else Raise ValueError
    else Raise ValueError
  end.
#[export] Instance spec_utilities : Utilities :=
  {| checkCoords := spec_checkCoords; checkWeights := spec_checkWeights |}.

(** A stand-in for the alignment collaborator: the translation that moves
    the first atom of the mobile set onto the first atom of the target, and
    the weighted root mean square deviation. *)
Definition first_atom_transformation (mob tar : coordset) (w : weightset)
    : mat3 * vec3 :=
  (((1, 0, 0), (0, 1, 0), (0, 0, 1))%float,
   np.v3map2 PrimFloat.sub (default np.v3zero (head tar))
                            (default np.v3zero (head mob))).
Definition weighted_rmsd (ref mob : coordset) (w : option weightset) : float :=
  let w := default (replicate (length ref) 1%float) w in
  let d := zip_with (λ a b, np.v3sum (np.v3sq (np.v3map2 PrimFloat.sub a b)))
                    ref mob in
  let num := foldl PrimFloat.add 0%float (zip_with PrimFloat.mul w d) in
  let den := foldl PrimFloat.add 0%float w in
  PrimFloat.sqrt (num / den).
#[export] Instance first_atom_alignment : RigidAlignment :=
  {| getTransformation := first_atom_transformation;
     getRMSD := weighted_rmsd;
     getRMSD_stack ref confs w :=
       imap (λ i c, weighted_rmsd ref c (w ≫= (.!! i))) confs |}.

(** * What the theorems speak of *)

(** ** Well-formed ensembles *)

(** The arrays of an ensemble agree on the number of atoms and of
    coordinate sets, and the selected indices are atoms. *)
Record well_formed (e : PDBEnsemble) : Prop := {
  wf_coords : ∀ ref, _coords e = Some ref → length ref = _n_atoms e;
  wf_confs : ∀ confs, _confs e = Some confs →
    length confs = _n_csets e ∧ Forall (λ c, length c = _n_atoms e) confs;
  wf_weights : ∀ weights, _weights e = Some weights →
    length weights = _n_csets e ∧ Forall (λ w, length w = _n_atoms e) weights;
  wf_indices : ∀ indices, _indices e = Some indices →
    Forall (λ i, i < _n_atoms e) indices;
  wf_labels : length (_labels e) = _n_csets e;
  wf_both : _confs e = None ↔ _weights e = None;
  wf_empty : _confs e = None → _n_csets e = 0;
}.

(** ** Arguments of [addCoordset] *)

(** The frames of a coordinate argument and their number of atoms. *)
Definition array_frames (coords : ndarray) : list coordset :=
  match coords with A2 c => [c] | A3 _ frames => frames end.
Definition array_nodes (coords : ndarray) : nat :=
  match coords with A2 c => length c | A3 n_nodes _ => n_nodes end.

(** Every frame of a stack has the atoms its shape announces. *)
Definition array_wf (coords : ndarray) : Prop :=
  Forall (λ c, length c = array_nodes coords) (array_frames coords).

(** What the validators promise: accepted coordinates fit the atom count
    they were checked against (none is fixed while it is zero), and accepted
    weights come back as one row of [natoms] weights per coordinate set. *)
Class UtilitiesSpec `{Utilities} : Prop := {
  checkCoords_fits : ∀ coords n,
    checkCoords coords n = Ok () → n = 0 ∨ array_nodes coords = n;
  checkWeights_shape : ∀ w natoms ncsets ws,
    checkWeights w natoms ncsets = Ok ws →
    length ws = ncsets ∧ Forall (λ r, length r = natoms) ws;
}.

(** The validators with the one of the weights replaced by the stand-in:
    the same validators to a call that passes no weights. *)
Definition with_spec_weights (U : Utilities) : Utilities :=
  {| checkCoords := @checkCoords U; checkWeights := spec_checkWeights |}.

(** The atom at position [k] of the selection. *)
Definition selected_atom (e : PDBEnsemble) (k : nat) : option nat :=
  match _indices e with
  | None => if decide (k < _n_atoms e) then Some k else None
  | Some indices => indices !! k
  end.

(** ** The mean square fluctuation of one atom, in the words of the
    specification *)

(** What one frame knows of an atom: its position and its weight. *)
Definition observation : Type := vec3 * float.

(** The observations of atom [a], one per frame. *)
Definition observations (confs : list coordset) (weights : list weightset)
    (a : nat) : option (list observation) :=
  mapM (λ cw : coordset * weightset, p ← cw.1 !! a; w ← cw.2 !! a; Some (p, w))
       (zip confs weights).

(** A weight is an inclusion mask: positive weights are in, zero is out. *)
Definition included (w : float) : bool := PrimFloat.ltb 0 w.
Definition masked (obs : list observation) : list (vec3 * bool) :=
  (λ o : observation, (o.1, included o.2)) <$> obs.

(** The normalizer: the sum of the inclusion weights over the frames. *)
Definition inclusion_sum (obs : list (vec3 * bool)) : nat :=
  foldl (λ n (o : vec3 * bool), if o.2 then S n else n) 0 obs.

(** The sum of the positions in the included frames, and their mean. *)
Definition masked_sum (obs : list (vec3 * bool)) : vec3 :=
  foldl (λ acc (o : vec3 * bool),
           np.v3map2 PrimFloat.add acc
             (np.v3scal PrimFloat.mul o.1 (np.of_bool o.2)))
        np.v3zero obs.
Definition masked_mean (obs : list (vec3 * bool)) : vec3 :=
  np.v3scal PrimFloat.div (masked_sum obs) (np.of_count (inclusion_sum obs)).

(** The sum of the squared deviations from [mean] in the included frames. *)
Definition masked_ssq (mean : vec3) (obs : list (vec3 * bool)) : vec3 :=
  foldl (λ acc (o : vec3 * bool),
           np.v3map2 PrimFloat.add acc
             (np.v3sq (np.v3scal PrimFloat.mul
                         (np.v3map2 PrimFloat.sub o.1 mean)
                         (np.of_bool o.2))))
        np.v3zero obs.

(** The variance of the position over the included frames: the squared
    deviations from the mean, summed over the three axes and divided by the
    sum of the inclusion weights. *)
Definition atom_msf (obs : list (vec3 * bool)) : float :=
  (np.v3sum (masked_ssq (masked_mean obs) obs)
   / np.of_count (inclusion_sum obs))%float.

(** Componentwise tests on a point. *)
Definition v3finite (p : vec3) : Prop :=
  is_finite p.1.1 = true ∧ is_finite p.1.2 = true ∧ is_finite p.2 = true.
Definition v3eqb (p q : vec3) : bool :=
  PrimFloat.eqb p.1.1 q.1.1 && PrimFloat.eqb p.1.2 q.1.2 && PrimFloat.eqb p.2 q.2.

(** The frames that count for an atom: those where its weight is positive. *)
Definition included_frames (obs : list observation) : list observation :=
  filter (λ o : observation, included o.2 = true) obs.

(** The positions of an atom in the frames that count. *)
Definition included_positions (obs : list observation) : list vec3 :=
  fst <$> included_frames obs.

(** The sum and the mean of positions. *)
Definition position_sum (ps : list vec3) : vec3 :=
  foldl (np.v3map2 PrimFloat.add) np.v3zero ps.
Definition position_mean (ps : list vec3) : vec3 :=
  np.v3scal PrimFloat.div (position_sum ps) (np.of_count (length ps)).

(** The variance of positions: their squared distances from the mean,
    summed over the positions and the three axes, divided by the number of
    positions. *)
Definition position_variance (ps : list vec3) : float :=
  (np.v3sum
     (foldl (λ acc p,
               np.v3map2 PrimFloat.add acc
                 (np.v3sq (np.v3map2 PrimFloat.sub p (position_mean ps))))
            np.v3zero ps)
   / np.of_count (length ps))%float.

(** ** One axis at a time *)

(** The three axes of a point, and the coordinate of a point along one. *)
Inductive axis : Set := AxisX | AxisY | AxisZ.
Definition along (k : axis) (p : vec3) : float :=
  match k with AxisX => p.1.1 | AxisY => p.1.2 | AxisZ => p.2 end.
Definition axis_obs (k : axis) (obs : list (vec3 * bool))
    : list (float * bool) :=
  (λ o : vec3 * bool, (along k o.1, o.2)) <$> obs.

(** The count, the sum, the mean and the sum of squared deviations that
    [atom_msf] computes, along one axis. *)
Definition axis_count (l : list (float * bool)) : nat :=
  foldl (λ n (o : float * bool), if o.2 then S n else n) 0 l.
Definition axis_sum (acc : float) (l : list (float * bool)) : float :=
  foldl (λ a (o : float * bool), (a + o.1 * np.of_bool o.2)%float) acc l.
Definition axis_mean (l : list (float * bool)) : float :=
  (axis_sum 0 l / np.of_count (axis_count l))%float.
Definition axis_ssq (mean acc : float) (l : list (float * bool)) : float :=
  foldl (λ a (o : float * bool),
           (a + (o.1 - mean) * np.of_bool o.2
                * ((o.1 - mean) * np.of_bool o.2))%float) acc l.

(** ** Example ensembles *)

Definition tenth : float := (1 / 10)%float.

(** Three frames of two atoms.  The first atom sits at [(0.1, 0, 0)] in
    every frame, with weight [1]; the second is resolved in no frame. *)
Definition still_ensemble : PDBEnsemble :=
  mkEnsemble "still" (Some [(0, 0, 0); (1, 0, 0)]%float) 2 3
    (Some [[1; 0]; [1; 0]; [1; 0]]%float)
    (Some [[(tenth, 0, 0); (1, 0, 0)]; [(tenth, 0, 0); (2, 0, 0)];
           [(tenth, 0, 0); (3, 0, 0)]]%float)
    None None ["a"; "b"; "c"] None None.

(** The same with the first atom at [(0.5, 0, 0)], and only it selected. *)
Definition half_ensemble : PDBEnsemble :=
  mkEnsemble "half" (Some [(0, 0, 0); (1, 0, 0)]%float) 2 3
    (Some [[1; 0]; [1; 0]; [1; 0]]%float)
    (Some [[(0.5, 0, 0); (1, 0, 0)]; [(0.5, 0, 0); (2, 0, 0)];
           [(0.5, 0, 0); (3, 0, 0)]]%float)
    None (Some [0]) ["a"; "b"; "c"] None None.

(** Three atoms in three frames: the reference, the reference turned a
    quarter about the third axis, and the reference with its last atom moved
    by [(0, 0, 5)] and marked as unresolved. *)
Definition outlier_ensemble : PDBEnsemble :=
  mkEnsemble "outlier" (Some [(0, 0, 0); (1, 0, 0); (0, 1, 0)]%float) 3 3
    (Some [[1; 1; 1]; [1; 1; 1]; [1; 1; 0]]%float)
    (Some [[(0, 0, 0); (1, 0, 0); (0, 1, 0)];
           [(0, 0, 0); (0, 1, 0); (-1, 0, 0)];
           [(0, 0, 0); (1, 0, 0); (0, 1, 5)]]%float)
    None None ["A"; "B"; "C"] None None.

(** The same with an infinite coordinate stored for the unresolved atom. *)
Definition unbounded_ensemble : PDBEnsemble :=
  set_confs (Some [[(0, 0, 0); (1, 0, 0); (0, 1, 0)];
                   [(0, 0, 0); (0, 1, 0); (-1, 0, 0)];
                   [(0, 0, 0); (1, 0, 0); (0, 1, infinity)]]%float)
            outlier_ensemble.

(** ** Pairwise deviations, in the words of the specification *)

(** The selected atoms: the indices set by an atom selection, or all. *)
Definition selection (e : PDBEnsemble) : list nat :=
  match _indices e with
  | None => seq 0 (_n_atoms e)
  | Some indices => indices
  end.

(** The entries of a row at the selected atoms. *)
Definition selected_of {A} (e : PDBEnsemble) (row : list A) : option (list A) :=
  mapM (λ a, row !! a) (selection e).

(** The selected atoms of frame [i], and their weights. *)
Definition selected_frame (e : PDBEnsemble) (i : nat) : option coordset :=
  confs ← _confs e; c ← confs !! i; selected_of e c.
Definition selected_weights (e : PDBEnsemble) (i : nat) : option weightset :=
  weights ← _weights e; w ← weights !! i; selected_of e w.

(** The elementwise product of two weight vectors. *)
Definition pair_weights (wi wj : weightset) : weightset :=
  zip_with PrimFloat.mul wi wj.

(** The deviation between frames [i] and [j] over the selected atoms,
    weighted by the product of their weights. *)
Definition pair_rmsd `{RigidAlignment} (e : PDBEnsemble) (i j : nat)
    : option float :=
  ci ← selected_frame e i; cj ← selected_frame e j;
  wi ← selected_weights e i; wj ← selected_weights e j;
  Some (getRMSD ci cj (Some (pair_weights wi wj))).

(** Entry [(i, j)] of a matrix. *)
Definition entry (M : list (list float)) (i j : nat) : option float :=
  row ← M !! i; row !! j.

(** A fresh ensemble, and one of three atoms with the first and the last
    selected. *)
Definition fresh_ensemble : PDBEnsemble := new_ensemble "fresh".
Definition pt (x : float) : vec3 := (x, 0, 0)%float.
Definition selected_ensemble : PDBEnsemble :=
  mkEnsemble "selected" (Some [pt 10; pt 20; pt 30]) 3 0 None None None
             (Some [0; 2]) [] None None.

(** ** Objects on the heap *)

(** The object of an ensemble, each of its arrays in a buffer of its own. *)
Definition stored (e : PDBEnsemble) (h : Store.heap) : Store.heap * Store.object :=
  let '(h, coords) := Store.alloc_attr (_coords e) h in
  let '(h, weights) := Store.alloc_attr (_weights e) h in
  let '(h, confs) := Store.alloc_attr (_confs e) h in
  let '(h, indices) := Store.alloc_attr (_indices e) h in
  let '(h, trans) := Store.alloc_attr (_trans e) h in
  (h, Store.mkObject (_title e) coords (_n_atoms e) (_n_csets e) weights confs
                     (_atoms e) indices (_labels e) trans (_msa e)).

(** A stand-in for the base class: its loop is one round of superposition,
    written into the conformations in place, and its [superpose] keeps the
    transformations. *)
Definition superpose_once `{RigidAlignment} : Store.EnsembleBase :=
  {| Store.Ensemble_iterpose := λ _ h self, Store._superpose false h self;
     Store.superpose_trans := true |}.

(** The still ensemble with matrices from an earlier superposition. *)
Definition tracked_ensemble : PDBEnsemble :=
  set_trans (Some [zeros4; zeros4; zeros4]) still_ensemble.

(** The rotation that turns nothing, and the translation that takes the
    first atom of a frame of the still ensemble onto the first atom of the
    reference. *)
Definition identity3 : mat3 := ((1, 0, 0), (0, 1, 0), (0, 0, 1))%float.
Definition still_shift : vec3 := (0 - tenth, 0, 0)%float.

(** ** Deletion *)

(** The positions of an axis of [n] rows that are not in [index]. *)
Definition positions_left (index : list Z) (n : nat) : list nat :=
  filter (λ i, Z.of_nat i ∉ index) (seq 0 n).

(** The still ensemble with an alignment labelled like it. *)
Definition labelled : PDBEnsemble :=
  set_msa (Some (mkMSA ["AC"; "AG"; "AT"] "still" ["a"; "b"; "c"]))
          still_ensemble.

(** ** IEEE classes *)

Module ieee.

(** The class of a float: the signed zeros, or not a number. *)
Definition zero_or_nan (x : float) : Prop :=
  Prim2SF x = S754_nan ∨ ∃ s, Prim2SF x = S754_zero s.
Definition zero (x : float) : Prop := ∃ s, Prim2SF x = S754_zero s.

(** Two floats that are the same number: equal, or zeros of either sign. *)
Definition same_number (x y : float) : Prop := x = y ∨ (zero x ∧ zero y).

(** A float that carries no minus sign: not a number, or one whose sign bit
    is clear. *)
Definition unsigned (x : float) : Prop :=
  match Prim2SF x with
  | S754_nan => True
  | S754_zero s | S754_infinity s | S754_finite s _ _ => s = false
  end.

End ieee.
Import ieee.

(** ** Selections *)

(** [out] holds the entries of [l] at the positions [sel]. *)
Definition picks {A} (sel : list nat) (l out : list A) : Prop :=
  Forall2 (λ i x, l !! i = Some x) sel out.

(** Entry [k] of every frame, with its mask. *)
Definition column (k : nat) (frames : list (coordset * list bool))
    : option (list (vec3 * bool)) :=
  mapM (λ cr : coordset * list bool, p ← cr.1 !! k; b ← cr.2 !! k; Some (p, b))
       frames.

(** A property of the three components of a point. *)
Definition v3all (P : float → Prop) (p : vec3) : Prop :=
  P p.1.1 ∧ P p.1.2 ∧ P p.2.

(** ** The pairwise matrix *)

(** An [n] by [n] matrix. *)
Definition square_shape (n : nat) (M : list (list float)) : Prop :=
  length M = n ∧ Forall (λ row, length row = n) M.

(** The matrix after the pairs below [(I, J)] in the order of the loops:
    those pairs hold their deviation at both places, every other entry is
    zero. *)
Definition filled `{RigidAlignment} (e : PDBEnsemble) (I J : nat)
    (M : list (list float)) : Prop :=
  square_shape (_n_csets e) M ∧
  ∀ a b, a < _n_csets e → b < _n_csets e →
    entry M a b =
    if decide (a ≠ b ∧ (a `min` b < I ∨ (a `min` b = I ∧ a `max` b < J)))
    then pair_rmsd e (a `min` b) (a `max` b) else Some 0%float.

(** ** The stages of [addCoordset] *)

Section stages.
Context `{Utilities}.

(** The checks on the coordinates. *)
Definition check_coordinates (e : PDBEnsemble) (coords : ndarray)
    : result unit :=
  match checkCoords coords (numAtoms e) with
  | Ok _ => Ok ()
  | Raise _ => checkCoords coords (numSelected e)
  end.

(** The frames kept, after [coords[:1]] when degenerate. *)
Definition kept_frames (coords : ndarray) (degeneracy : bool)
    : list coordset :=
  match coords with
  | A2 c => [c]
  | A3 _ frames => if degeneracy then take 1 frames else frames
  end.

(** Everything computed between fixing the atom count and the first
    assignment of new values: the frames, weights, sequences and labels to
    store. *)
Definition computed (e0 e1 : PDBEnsemble) (coords : ndarray)
    (weights : option warray) (label : label_arg) (degeneracy : bool)
    (sequence : sequence_arg)
    : result (list coordset * list weightset * option (list string)
              * list string) :=
  let n_atoms := numAtoms e0 in
  let n_csets := length (array_frames coords) in
  let n_nodes := array_nodes coords in
  let frames := kept_frames coords degeneracy in
  let n_repeats := if degeneracy then 1 else n_csets in
  frames ←
    (if bool_decide (n_nodes = numSelected e0) && isSelected e1 then
       ref ← need TypeError (_coords e1);
       indices ← need TypeError (_indices e1);
       mapM_r (λ src, scatter indices src ref)
              (if decide (length frames = n_csets) then frames
               else replicate n_csets (default [] (head frames)))
     else Ok frames);
  weights ←
    match weights with
    | None => Ok (replicate n_csets (replicate n_atoms 1%float))
    | Some weights => checkWeights weights n_atoms n_csets
    end;
  let weights := if degeneracy then take 1 weights else weights in
  let seqs := resolve_sequences e1 sequence n_atoms n_repeats in
  match seqs with
  | Some ((_ :: _) as seqs) =>
    if decide (length seqs ≠ n_repeats) then Raise ValueError else Ok ()
  | _ => Ok ()
  end;;
  labels ← resolve_labels (label_or_unknown label) n_csets degeneracy;
  Ok (frames, weights, seqs, labels).

(** The assignments of the new values. *)
Definition commit (n_atoms n_confs n_repeats : nat) (frames : list coordset)
    (weights : list weightset) (seqs : option (list string))
    (labels : list string) : method unit :=
  massign (λ e, set_labels (_labels e ++ labels) e);;
  match seqs with
  | Some ((_ :: _) as seqs) =>
    e ← mread Ok;
    let msa := mkMSA seqs (_title e) labels in
    match _msa e with
    | None =>
      if decide (0 < n_confs) then
        old_labels ← mread (λ e,
          mapM_r (λ i, need IndexError (_labels e !! i)) (seq 0 n_confs));
        let def_seqs := replicate n_confs (unknown_sequence n_atoms) in
        massign (set_msa
          (Some (msa_extend (mkMSA def_seqs (_title e) old_labels) msa)))
      else massign (set_msa (Some msa))
    | Some old => massign (set_msa (Some (msa_extend old msa)))
    end
  | _ => mreturn ()
  end;;
  e ← mread Ok;
  match _confs e, _weights e with
  | None, None =>
    massign (set_confs (Some frames));;
    massign (set_weights (Some weights));;
    massign (set_n_csets n_repeats)
  | Some old_confs, Some old_weights =>
    confs ← mread (λ _, concatenate old_confs frames);
    massign (set_confs (Some confs));;
    weights ← mread (λ _, concatenate old_weights weights);
    massign (set_weights (Some weights));;
    massign (λ e, set_n_csets (_n_csets e + n_repeats) e)
  | _, _ => mraise RuntimeError
  end.

(** The alignment after the assignments. *)
Definition committed_msa (n_atoms n_confs : nat) (seqs : option (list string))
    (labels : list string) (e : PDBEnsemble) : option MSA :=
  match seqs with
  | Some ((_ :: _) as seqs) =>
    let msa := mkMSA seqs (_title e) labels in
    match _msa e with
    | None =>
      if decide (0 < n_confs) then
        Some (msa_extend
                (mkMSA (replicate n_confs (unknown_sequence n_atoms))
                       (_title e) (take n_confs (_labels e ++ labels)))
                msa)
      else Some msa
    | Some old => Some (msa_extend old msa)
    end
  | _ => _msa e
  end.

(** The ensemble after the assignments. *)
Definition committed (n_atoms n_confs n_repeats : nat) (frames : list coordset)
    (weights : list weightset) (seqs : option (list string))
    (labels : list string) (e : PDBEnsemble) : PDBEnsemble :=
  mkEnsemble (_title e) (_coords e) (_n_atoms e)
    (match _confs e with None => n_repeats | Some _ => _n_csets e + n_repeats end)
    (Some (default [] (_weights e) ++ weights))
    (Some (default [] (_confs e) ++ frames))
    (_atoms e) (_indices e) (_labels e ++ labels) (_trans e)
    (committed_msa n_atoms n_confs seqs labels e).

End stages.

(** ** Retrieval *)

(** The coordinate of atom [a] as retrieval shows it: the stored one, or
    the reference one where the weight is zero. *)
Definition shown (ref : coordset) (w : weightset) (conf : coordset) (a : nat)
    : option vec3 :=
  x ← w !! a; r ← ref !! a; c ← conf !! a;
  Some (if PrimFloat.eqb x 0 then r else c).

(** The atoms a retrieval ranges over. *)
Definition retrieved_atoms (selected : bool) (e : PDBEnsemble) : list nat :=
  if selected then selection e else seq 0 (_n_atoms e).

(** ** Superposition *)

(** The matrix that holds a rotation in its upper left block and a
    translation in its last column, and zeros in its last row. *)
Definition transformation_matrix (rmat : mat3) (tvec : vec3) : mat4 :=
  let '((r00, r01, r02), (r10, r11, r12), (r20, r21, r22)) := rmat in
  let '(tx, ty, tz) := tvec in
  ((r00, r01, r02, tx), (r10, r11, r12, ty), (r20, r21, r22, tz),
   (0, 0, 0, 0))%float.

(** Where a rotation [R] and a translation [t] take a point [p]: to
    [R p + t].  Coordinate [j] of the image is [t_j] plus the products of
    the coordinates of [p] with row [j] of [R], added from left to right. *)
Definition moved (rmat : mat3) (tvec : vec3) (p : vec3) : vec3 :=
  let '((r00, r01, r02), (r10, r11, r12), (r20, r21, r22)) := rmat in
  let '(tx, ty, tz) := tvec in
  let '(x, y, z) := p in
  (tx + (x * r00 + y * r01 + z * r02),
   ty + (x * r10 + y * r11 + z * r12),
   tz + (x * r20 + y * r21 + z * r22))%float.

(** The transformation that [_superpose] computes for frame [i]: from the
    selected atoms of the frame, of the reference, and their weights. *)
Definition frame_transformation `{RigidAlignment} (e : PDBEnsemble) (i : nat)
    : option (mat3 * vec3) :=
  conf ← selected_frame e i; w ← selected_weights e i;
  coords ← _coords e ≫= selected_of e;
  Some (getTransformation conf coords w).

(** ** Arrays on the heap *)

(** A row read back is the row written. *)
Class RowlikeLaws (A : Type) `{Store.Rowlike A} : Prop :=
  of_to_row : ∀ x : A, Store.of_row (Store.to_row x) = Some x.

(** The buffers of the arrays that [_superpose] reads but does not write. *)
Definition read_only (o : Store.object) : list Store.loc :=
  Store.base <$> omap id [Store.o_coords o; Store.o_weights o;
                          Store.o_indices o].

(** ** Methods *)

(** A method keeps [f] when the ensemble it leaves has the [f] of the
    ensemble it found, whether it returns or raises. *)
Definition keeps {A B} (f : PDBEnsemble → B) (m : method A) : Prop :=
  ∀ e e' r, m e = (e', r) → f e' = f e.

(** * Proofs *)

(** * IEEE facts *)
Module ieee_facts.

Lemma is_nan_eq x : Prim2SF x = S754_nan → x = nan.
Proof. intros Hx. by apply Prim2SF_inj. Qed.

Lemma pos_zero_eq x : Prim2SF x = S754_zero false → x = 0%float.
Proof. intros Hx. by apply Prim2SF_inj. Qed.

Lemma mul_zero_class x : zero_or_nan (x * 0).
Proof.
  unfold zero_or_nan. rewrite FloatAxioms.mul_spec.
  change (Prim2SF 0) with (S754_zero false).
  destruct (Prim2SF x); cbn; eauto.
Qed.

Lemma add_class a b : zero_or_nan a → zero_or_nan b → zero_or_nan (a + b).
Proof.
  unfold zero_or_nan. rewrite FloatAxioms.add_spec.
  intros [-> | [s ->]] [-> | [s' ->]]; cbn; eauto.
  destruct s, s'; eauto.
Qed.

Lemma div_zero_nan a : zero_or_nan a → (a / 0 = nan)%float.
Proof.
  intros Ha. apply Prim2SF_inj. rewrite FloatAxioms.div_spec.
  change (Prim2SF 0) with (S754_zero false).
  by destruct Ha as [-> | [s ->]].
Qed.

Lemma sub_nan_r x : (x - nan = nan)%float.
Proof.
  apply Prim2SF_inj. rewrite FloatAxioms.sub_spec.
  change (Prim2SF nan) with S754_nan. by destruct (Prim2SF x).
Qed.
Lemma mul_nan_l x : (nan * x = nan)%float.
Proof. apply Prim2SF_inj. by rewrite FloatAxioms.mul_spec. Qed.
Lemma add_nan_r x : (x + nan = nan)%float.
Proof.
  apply Prim2SF_inj. rewrite FloatAxioms.add_spec.
  change (Prim2SF nan) with S754_nan. by destruct (Prim2SF x).
Qed.
Lemma add_nan_l x : (nan + x = nan)%float.
Proof. apply Prim2SF_inj. by rewrite FloatAxioms.add_spec. Qed.
Lemma div_nan_l x : (nan / x = nan)%float.
Proof. apply Prim2SF_inj. by rewrite FloatAxioms.div_spec. Qed.

(** Finite floats are the zeros and the finite non-zero numbers. *)
Lemma finite_class x :
  is_finite x = true →
  (∃ s, Prim2SF x = S754_zero s) ∨ ∃ s m e, Prim2SF x = S754_finite s m e.
Proof.
  unfold is_finite, is_nan, is_infinity.
  rewrite !FloatAxioms.eqb_spec, abs_spec.
  change (Prim2SF infinity) with (S754_infinity false).
  destruct (Prim2SF x) as [s|s| |s m e]; cbn; eauto; try done.
  rewrite orb_true_r. done.
Qed.

Lemma compare_finite_eq s1 m1 e1 s2 m2 e2 :
  SFcompare (S754_finite s1 m1 e1) (S754_finite s2 m2 e2) = Some Eq →
  s1 = s2 ∧ m1 = m2 ∧ e1 = e2.
Proof.
  cbn. destruct s1, s2; try done; intros [= Hc];
    destruct (Z.compare_spec e1 e2) as [->| |]; try done.
  - destruct (Pos.compare_cont Eq m1 m2) eqn:Hm; try done.
    by apply Pcompare_Eq_eq in Hm as ->.
  - by apply Pcompare_Eq_eq in Hc as ->.
Qed.

Lemma sub_finite_diag s m e :
  SFsub prec emax (S754_finite s m e) (S754_finite s m e) = S754_zero false.
Proof. cbn. by rewrite Z.sub_diag. Qed.

(** The difference of two equal finite floats is a zero. *)
Lemma sub_eqb_zero x y :
  is_finite x = true → (x =? y)%float = true → zero (x - y).
Proof.
  unfold zero. intros Hx. rewrite FloatAxioms.eqb_spec, FloatAxioms.sub_spec.
  unfold SFeqb, SF64sub.
  destruct (finite_class x Hx) as [[s ->] | (s & m & e & ->)].
  - destruct (Prim2SF y) as [s'|s'| |s' m' e']; cbn; try done;
      destruct s, s'; eauto; done.
  - destruct (Prim2SF y) as [s'|s'| |s' m' e'] eqn:Hy;
      try (cbn; by repeat case_match).
    destruct (SFcompare _ _) as [[]|] eqn:Hc; try done.
    apply compare_finite_eq in Hc as (-> & -> & ->).
    rewrite sub_finite_diag. eauto.
Qed.

Lemma zero_mul_one d : zero d → zero (d * 1).
Proof.
  unfold zero. intros [s Hd]. rewrite FloatAxioms.mul_spec, Hd. cbn. eauto.
Qed.

Lemma zero_square d : zero d → (d * d = 0)%float.
Proof.
  intros [s Hd]. apply pos_zero_eq. rewrite FloatAxioms.mul_spec, Hd. cbn.
  by destruct s.
Qed.

(** Rounding keeps the sign it is given. *)
Lemma binary_round_aux_sign sx mx ex lx :
  match binary_round_aux prec emax sx mx ex lx with
  | S754_zero s | S754_infinity s | S754_finite s _ _ => s = sx
  | S754_nan => True
  end.
Proof. unfold binary_round_aux. repeat case_match; by simplify_eq. Qed.

Lemma of_uint63_sign i :
  match Prim2SF (of_uint63 i) with
  | S754_zero s | S754_infinity s | S754_finite s _ _ => s = false
  | S754_nan => True
  end.
Proof.
  rewrite of_uint63_spec. unfold binary_normalize.
  destruct (to_Z i) as [|p|p] eqn:Hi; try done.
  - unfold binary_round. destruct (shl_align _ _ _) as [mz ez].
    apply binary_round_aux_sign.
  - pose proof (to_Z_bounded i). lia.
Qed.

(** If a quotient by a converted count is a finite number, zero divided by
    that count is zero. *)
Lemma zero_div_count c s i :
  is_finite c = true → (c =? s / of_uint63 i)%float = true →
  (0 / of_uint63 i = 0)%float.
Proof.
  intros Hc. rewrite FloatAxioms.eqb_spec, FloatAxioms.div_spec.
  intros Heq. apply pos_zero_eq. rewrite FloatAxioms.div_spec.
  change (Prim2SF 0) with (S754_zero false).
  pose proof (of_uint63_sign i) as Hs. unfold SFeqb, SF64div in *.
  destruct (Prim2SF (of_uint63 i)) as [sy|sy| |sy my ey]; cbn; subst; try done.
  - destruct (finite_class c Hc) as [[sc Hc'] | (sc & mc & ec & Hc')];
      rewrite Hc' in Heq;
      destruct (Prim2SF s) as [ss|ss| |ss ms es]; cbn in Heq;
      repeat case_match; done.
  - destruct (Prim2SF s) as [ss|ss| |ss ms es]; cbn in Heq;
      destruct (Prim2SF c); cbn in Heq; done.
Qed.

(** A zero weight times a finite weight is a zero. *)
Lemma mul_zero_finite x y :
  (x =? 0)%float = true → is_finite y = true → ((x * y) =? 0)%float = true.
Proof.
  rewrite !FloatAxioms.eqb_spec, FloatAxioms.mul_spec. intros Hx Hy.
  change (Prim2SF 0) with (S754_zero false) in *. unfold SFeqb in *.
  destruct (Prim2SF x) as [s|s| |s m e]; cbn in Hx; try done;
    try (by repeat case_match).
  by destruct (finite_class y Hy) as [[sy ->] | (sy & my & ey & ->)].
Qed.

Lemma mul_finite_zero x y :
  is_finite x = true → (y =? 0)%float = true → ((x * y) =? 0)%float = true.
Proof.
  rewrite !FloatAxioms.eqb_spec, FloatAxioms.mul_spec. intros Hx Hy.
  change (Prim2SF 0) with (S754_zero false) in *. unfold SFeqb in *.
  destruct (Prim2SF y) as [s|s| |s m e]; cbn in Hy; try done;
    try (by repeat case_match).
  by destruct (finite_class x Hx) as [[sx ->] | (sx & mx & ex & ->)].
Qed.

(** ** Zeros of either sign *)

Lemma same_refl x : same_number x x.
Proof. by left. Qed.

Lemma same_zero x y : zero x → zero y → same_number x y.
Proof. by right. Qed.

(** Adding a zero changes at most the sign of a zero. *)
Lemma add_zero_same a z : zero z → same_number (a + z) a.
Proof.
  intros [s Hz]. unfold same_number, zero. rewrite FloatAxioms.add_spec, Hz.
  destruct (Prim2SF a) as [sa|sa| |sa ma ea] eqn:Ha; unfold SF64add; cbn.
  - right. split; [|by eexists]. destruct sa, s; by eexists.
  - left. apply Prim2SF_inj. by rewrite FloatAxioms.add_spec, Hz, Ha.
  - left. apply Prim2SF_inj. by rewrite FloatAxioms.add_spec, Hz, Ha.
  - left. apply Prim2SF_inj. by rewrite FloatAxioms.add_spec, Hz, Ha.
Qed.

Lemma add_same_l a a' y : same_number a a' → same_number (a + y) (a' + y).
Proof.
  intros [-> | [[s Ha] [s' Ha']]]; [apply same_refl|].
  destruct (Prim2SF y) as [sy|sy| |sy my ey] eqn:Hy.
  - right. unfold zero. rewrite !FloatAxioms.add_spec, Ha, Ha', Hy.
    unfold SF64add; cbn. split; [destruct s, sy|destruct s', sy]; by eexists.
  - left. apply Prim2SF_inj. by rewrite !FloatAxioms.add_spec, Ha, Ha', Hy.
  - left. apply Prim2SF_inj. by rewrite !FloatAxioms.add_spec, Ha, Ha', Hy.
  - left. apply Prim2SF_inj. by rewrite !FloatAxioms.add_spec, Ha, Ha', Hy.
Qed.

Lemma same_trans x y z : same_number x y → same_number y z → same_number x z.
Proof.
  intros [-> | [Hx Hy]] [-> | [Hy' Hz]]; [by left|by right..].
Qed.

Lemma div_same_l a a' c : same_number a a' → same_number (a / c) (a' / c).
Proof.
  intros [-> | [[s Ha] [s' Ha']]]; [apply same_refl|].
  destruct (Prim2SF c) as [sc|sc| |sc mc ec] eqn:Hc.
  - left. apply Prim2SF_inj. by rewrite !FloatAxioms.div_spec, Ha, Ha', Hc.
  - right. unfold zero. rewrite !FloatAxioms.div_spec, Ha, Ha', Hc.
    split; by eexists.
  - left. apply Prim2SF_inj. by rewrite !FloatAxioms.div_spec, Ha, Ha', Hc.
  - right. unfold zero. rewrite !FloatAxioms.div_spec, Ha, Ha', Hc.
    split; by eexists.
Qed.

Lemma sub_same_r x m m' : same_number m m' → same_number (x - m) (x - m').
Proof.
  intros [-> | [[s Hm] [s' Hm']]]; [apply same_refl|].
  destruct (Prim2SF x) as [sx|sx| |sx mx ex] eqn:Hx.
  - right. unfold zero. rewrite !FloatAxioms.sub_spec, Hm, Hm', Hx.
    unfold SF64sub; cbn. split; [destruct sx, s|destruct sx, s']; by eexists.
  - left. apply Prim2SF_inj. by rewrite !FloatAxioms.sub_spec, Hm, Hm', Hx.
  - left. apply Prim2SF_inj. by rewrite !FloatAxioms.sub_spec, Hm, Hm', Hx.
  - left. apply Prim2SF_inj. by rewrite !FloatAxioms.sub_spec, Hm, Hm', Hx.
Qed.

Lemma mul_same_l d d' y : same_number d d' → same_number (d * y) (d' * y).
Proof.
  intros [-> | [[s Hd] [s' Hd']]]; [apply same_refl|].
  destruct (Prim2SF y) as [sy|sy| |sy my ey] eqn:Hy.
  - right. unfold zero. rewrite !FloatAxioms.mul_spec, Hd, Hd', Hy.
    split; by eexists.
  - left. apply Prim2SF_inj. by rewrite !FloatAxioms.mul_spec, Hd, Hd', Hy.
  - left. apply Prim2SF_inj. by rewrite !FloatAxioms.mul_spec, Hd, Hd', Hy.
  - right. unfold zero. rewrite !FloatAxioms.mul_spec, Hd, Hd', Hy.
    split; by eexists.
Qed.

(** The squares of the same number are equal. *)
Lemma square_same d d' : same_number d d' → (d * d = d' * d')%float.
Proof.
  intros [-> | [Hd Hd']]; [done|]. by rewrite !zero_square.
Qed.

(** A finite number times zero is a zero. *)
Lemma finite_mul_zero x : is_finite x = true → zero (x * 0).
Proof.
  intros Hx. unfold zero. rewrite FloatAxioms.mul_spec.
  change (Prim2SF 0) with (S754_zero false).
  destruct (finite_class x Hx) as [[s ->] | (s & m & e & ->)]; by eexists.
Qed.

Lemma same_finite_mul_zero d d' :
  same_number d d' → is_finite d' = true → zero (d * 0).
Proof.
  intros [-> | [[s Hd] _]] Hf; [by apply finite_mul_zero|].
  unfold zero. rewrite FloatAxioms.mul_spec, Hd. by eexists.
Qed.

(** What is not finite, times zero, is not a number. *)
Lemma infinite_mul_zero x : is_finite x = false → (x * 0 = nan)%float.
Proof.
  unfold is_finite, is_nan, is_infinity.
  rewrite !FloatAxioms.eqb_spec, abs_spec. intros Hx.
  apply Prim2SF_inj. rewrite FloatAxioms.mul_spec.
  change (Prim2SF 0) with (S754_zero false).
  change (Prim2SF infinity) with (S754_infinity false) in Hx.
  destruct (Prim2SF x) as [s|s| |s m e]; cbn in *; try done.
  rewrite Z.compare_refl, Pos.compare_cont_refl in Hx. by destruct s.
Qed.

(** ** Signs *)

Lemma unsigned_zero : unsigned 0.
Proof. done. Qed.

Lemma square_unsigned d : unsigned (d * d).
Proof.
  unfold unsigned. rewrite FloatAxioms.mul_spec. unfold SF64mul.
  destruct (Prim2SF d) as [[]|[]| |s m e]; cbn; try done.
  pose proof (binary_round_aux_sign (xorb s s) (Z.pos (m * m)) (e + e) loc_Exact)
    as Hs.
  destruct (binary_round_aux _ _ _ _ _ _); try done; by destruct s.
Qed.

Lemma add_unsigned a b : unsigned a → unsigned b → unsigned (a + b).
Proof.
  unfold unsigned. rewrite FloatAxioms.add_spec. unfold SF64add.
  destruct (Prim2SF a) as [sa|sa| |sa ma ea], (Prim2SF b) as [sb|sb| |sb mb eb];
    cbn; try done; try (by intros -> ->).
  intros -> ->. cbn.
  destruct (shl_align ma ea _) as [m1 e1], (shl_align mb eb _) as [m2 e2]. cbn.
  change (Z.pos m1 + Z.pos m2)%Z with (Z.pos (m1 + m2)).
  unfold binary_normalize, binary_round.
  match goal with |- context [shl_align ?m ?e ?f] =>
    destruct (shl_align m e f) as [mz ez] end.
  apply binary_round_aux_sign.
Qed.

(** Adding zero to what carries no minus sign changes nothing. *)
Lemma add_zero_unsigned a : unsigned a → (a + 0 = a)%float.
Proof.
  unfold unsigned. intros Ha. apply Prim2SF_inj.
  rewrite FloatAxioms.add_spec. change (Prim2SF 0) with (S754_zero false).
  destruct (Prim2SF a) as [sa|sa| |sa ma ea]; try done. by subst sa.
Qed.

(** ** One *)

(** Multiplying by one is exact: the product of the mantissa with that of
    one is shifted back by the 52 zero bits it gained, and nothing is
    rounded. *)
Lemma mul_one_r x : (x * 1 = x)%float.
Proof.
  apply Prim2SF_inj. rewrite FloatAxioms.mul_spec.
  change (Prim2SF 1) with (S754_finite false 4503599627370496 (-52)).
  pose proof (Prim2SF_valid x) as Hv.
  destruct (Prim2SF x) as [[]|[]| |s m e]; try reflexivity.
  unfold SF64mul, SFmul. rewrite xorb_false_r.
  cbn in Hv. unfold bounded, canonical_mantissa in Hv.
  apply andb_prop in Hv as [Hc He]. apply Z.eqb_eq in Hc.
  rewrite Pos.mul_comm.
  change (4503599627370496 * m)%positive
    with (m~0~0~0~0~0~0~0~0~0~0~0~0~0~0~0~0~0~0~0~0~0~0~0~0~0~0
           ~0~0~0~0~0~0~0~0~0~0~0~0~0~0~0~0~0~0~0~0~0~0~0~0~0~0)%positive.
  unfold binary_round_aux, shr_fexp. cbn [Zdigits2 digits2_pos].
  match goal with
  | |- context [fexp prec emax (Z.pos ?d + (e + -52))] =>
    replace (Z.pos d + (e + -52))%Z with (Z.pos (digits2_pos m) + e)%Z by lia
  end.
  rewrite Hc. replace (e - (e + -52))%Z with 52%Z by lia.
  cbn [shr shr_record_of_loc SpecFloat.iter_pos shr_1 orb].
  replace (e + -52 + 52)%Z with e by lia.
  cbn [shr_m loc_of_shr_record round_nearest_even Zdigits2].
  rewrite Hc, Z.sub_diag. cbn [shr shr_m shr_record_of_loc].
  by rewrite He.
Qed.

End ieee_facts.
Import ieee_facts.

(** * Loops in the error monad *)

Lemma bind_Ok {A B} (m : result A) (f : A → result B) b :
  m ≫= f = Ok b ↔ ∃ a, m = Ok a ∧ f a = Ok b.
Proof.
  destruct m as [a|x]; cbn.
  - split; [by exists a | by intros (? & [= <-] & ?)].
  - split; [done | by intros (? & ? & ?)].
Qed.

Lemma mapM_r_Ok {A B} (f : A → result B) l r :
  mapM_r f l = Ok r ↔ Forall2 (λ a b, f a = Ok b) l r.
Proof.
  revert r. induction l as [|a l IH]; intros r; cbn.
  - split; [intros [= <-]; constructor | by inversion 1].
  - split.
    + destruct (f a) as [b|] eqn:Hb; cbn; [|done].
      destruct (mapM_r f l) as [bs|] eqn:Hbs; cbn; [|done].
      intros [= <-]. constructor; [done|]. by apply IH.
    + inversion 1 as [|? b ? bs Hb Hbs]; subst.
      apply IH in Hbs. by rewrite Hb, Hbs.
Qed.

Lemma mapM_r_total {A B} (f : A → result B) (P : A → Prop) l :
  (∀ a, P a → ∃ b, f a = Ok b) → Forall P l → ∃ r, mapM_r f l = Ok r.
Proof.
  intros Hf. induction 1 as [|a l Ha _ [r Hr]]; cbn; [by eexists|].
  destruct (Hf a Ha) as [b ->]. rewrite Hr. by eexists.
Qed.

Lemma zip_same_Ok {A B C} (f : A → B → C) a b :
  length a = length b → np.zip_same f a b = Ok (zip_with f a b).
Proof. intros Hl. unfold np.zip_same. by rewrite decide_True. Qed.

Lemma zip_same_inv {A B C} (f : A → B → C) a b r :
  np.zip_same f a b = Ok r → length a = length b ∧ r = zip_with f a b.
Proof. unfold np.zip_same. case_decide; naive_solver. Qed.

(** A loop that looks its second operand up by position is a loop over the
    two lists side by side. *)
Lemma foldM_enumerate {A B C} (g : C → A → B → result C) l ws acc :
  length l ≤ length ws →
  foldM (λ acc ia, w ← need IndexError (ws !! ia.1); g acc ia.2 w) acc
        (enumerate l)
  = foldM (λ acc aw, g acc aw.1 aw.2) acc (zip l ws).
Proof.
  unfold enumerate. intros Hl.
  enough (∀ n acc, length l + n ≤ length ws →
    foldM (λ acc ia, w ← need IndexError (ws !! ia.1); g acc ia.2 w) acc
          (imap (λ i a, (n + i, a)) l)
    = foldM (λ acc aw, g acc aw.1 aw.2) acc (zip l (drop n ws))) as Hgen.
  { specialize (Hgen 0 acc). rewrite drop_0 in Hgen. apply Hgen. lia. }
  clear acc Hl. induction l as [|a l IH]; intros n acc Hl; [done|].
  rewrite length_cons in Hl.
  destruct (lookup_lt_is_Some_2 ws n) as [w Hw]; [lia|..].
  rewrite (drop_S _ _ _ Hw). cbn. rewrite Nat.add_0_r, Hw. cbn.
  destruct (g acc a w) as [acc'|]; cbn; [|done].
  rewrite <- (IH (S n)) by lia.
  f_equal. apply imap_ext. intros i x _. cbn. f_equal. lia.
Qed.

(** The columns of a loop that works on whole rows: if every turn takes
    entry [k] of the accumulator from [p] to [f k p y], where [y] is entry
    [k] of the frame, the loop folds [f k] over column [k]. *)
Lemma foldM_column {P X Y} (step : list P → X → result (list P))
    (good : X → Prop) (m : nat) (proj : nat → X → option Y)
    (f : nat → P → Y → P) :
  (∀ acc x, length acc = m → good x →
     ∃ out, step acc x = Ok out ∧ length out = m ∧
       ∀ k p y, acc !! k = Some p → proj k x = Some y →
         out !! k = Some (f k p y)) →
  ∀ l acc, Forall good l → length acc = m →
    ∃ out, foldM step acc l = Ok out ∧ length out = m ∧
      ∀ k p col, acc !! k = Some p → mapM (proj k) l = Some col →
        out !! k = Some (foldl (f k) p col).
Proof.
  intros Hstep l. induction l as [|x l IH]; intros acc Hgood Hacc.
  - exists acc. split_and!; [done..|]. intros k p col Hp [= <-]. done.
  - apply Forall_cons in Hgood as [Hx Hl].
    destruct (Hstep acc x Hacc Hx) as (mid & Hmid & Hlen & Hk).
    destruct (IH mid Hl Hlen) as (out & Hout & Hlen' & Hk').
    exists out. cbn. rewrite Hmid. cbn. split_and!; [done..|].
    intros k p col Hp Hcol. cbn in Hcol.
    destruct (proj k x) as [y|] eqn:Hy; [|done]. cbn in Hcol.
    destruct (mapM (proj k) l) as [col'|] eqn:Hcol'; [|done].
    injection Hcol as <-. cbn. eauto.
Qed.

Lemma foldM_ext {A B} (f g : B → A → result B) b l :
  (∀ b a, f b a = g b a) → foldM f b l = foldM g b l.
Proof.
  intros Hfg. revert b. induction l as [|a l IH]; intros b; cbn; [done|].
  rewrite Hfg. destruct (g b a); cbn; auto.
Qed.

(** * Selections *)

Lemma take_Ok {A} idx (l r : list A) : np.take idx l = Ok r ↔ picks idx l r.
Proof.
  unfold np.take, picks. rewrite mapM_r_Ok.
  split; intros HF; (eapply Forall2_impl; [exact HF|]); intros i x;
    unfold need; destruct (l !! i); intros; simplify_eq; done.
Qed.

Lemma take_total {A} idx (l : list A) :
  Forall (λ i, i < length l) idx → ∃ r, np.take idx l = Ok r.
Proof.
  apply mapM_r_total. intros i Hi.
  destruct (lookup_lt_is_Some_2 l i Hi) as [x ->]. by eexists.
Qed.

Lemma take_cols_Ok {A} idx (ls rs : list (list A)) :
  np.take_cols idx ls = Ok rs ↔ Forall2 (picks idx) ls rs.
Proof.
  unfold np.take_cols. rewrite mapM_r_Ok.
  split; intros HF; (eapply Forall2_impl; [exact HF|]); intros l r;
    apply take_Ok.
Qed.

Lemma take_cols_total {A} idx (ls : list (list A)) n :
  Forall (λ i, i < n) idx → Forall (λ l, length l = n) ls →
  ∃ rs, np.take_cols idx ls = Ok rs.
Proof.
  intros Hidx. apply mapM_r_total. intros l <-. by apply take_total.
Qed.

Lemma picks_seq {A} (l : list A) : picks (seq 0 (length l)) l l.
Proof.
  apply Forall2_same_length_lookup. split; [by rewrite length_seq|].
  intros i j x Hj Hx. apply lookup_seq in Hj as [-> _]. done.
Qed.

Lemma picks_length {A} sel (l out : list A) :
  picks sel l out → length out = length sel.
Proof. intros Hp. symmetry. by eapply Forall2_length. Qed.

(** * Mean square fluctuations *)

Lemma column_masks k frames col :
  column k frames = Some col →
  mapM (λ cr : coordset * list bool, cr.2 !! k) frames = Some (snd <$> col).
Proof.
  unfold column. rewrite !mapM_Some. intros HF.
  apply Forall2_fmap_r. eapply Forall2_impl; [exact HF|].
  intros [c r] [p b]; cbn. destruct (c !! k), (r !! k); naive_solver.
Qed.

Lemma lookup_replicate_lt {A} (x : A) n k : k < n → replicate n x !! k = Some x.
Proof. intros. by apply lookup_replicate_2. Qed.

Lemma sum0_column ncols ms m :
  Forall (λ r, length r = m) ms → (ms = [] → ncols = m) →
  ∃ cnt, np.sum0 ncols ms = Ok cnt ∧ length cnt = m ∧
    ∀ k bs, k < m → mapM (λ r : list bool, r !! k) ms = Some bs →
      cnt !! k = Some (foldl (λ n (b : bool), if b then S n else n) 0 bs).
Proof.
  intros Hms Hn. unfold np.sum0.
  assert (match ms with [] => ncols | r :: _ => length r end = m) as ->.
  { destruct ms as [|r ms]; [by apply Hn|]. by apply Forall_cons in Hms as [? _]. }
  edestruct (foldM_column
    (λ acc row, np.zip_same (λ c (b : bool), if b then S c else c) acc row)
    (λ r, length r = m) m (λ k (r : list bool), r !! k)
    (λ _ n (b : bool), if b then S n else n)) as (cnt & Hc & Hl & Hcol);
    [|exact Hms|apply length_replicate|].
  - intros acc row Hacc Hrow. rewrite zip_same_Ok by congruence.
    eexists. split_and!; [done|by rewrite length_zip_with_l_eq by congruence|].
    intros k p y Hp Hy. by rewrite lookup_zip_with, Hp, Hy.
  - exists cnt. split_and!; [done..|]. intros k bs Hk Hbs.
    apply Hcol; [|done]. by apply lookup_replicate_lt.
Qed.

Lemma Forall_zip_both {A B} (P : A → Prop) (Q : B → Prop) l k :
  Forall P l → Forall Q k → Forall (λ x, P x.1 ∧ Q x.2) (zip l k).
Proof.
  intros Hl. revert k. induction Hl as [|a l Ha Hl IH]; intros k Hk; [constructor|].
  destruct Hk as [|b k Hb Hk]; cbn; constructor; auto.
Qed.

Lemma mapM_snd_zip {A B C} (f : B → option C) (l : list A) (k : list B) :
  length l = length k →
  mapM (λ x : A * B, f x.2) (zip l k) = mapM f k.
Proof.
  revert k. induction l as [|a l IH]; intros [|b k] Hl; try done.
  cbn. rewrite IH by (cbn in Hl; lia). done.
Qed.

(** One turn of the first loop of [getMSFs], on whole rows. *)
Lemma mean_step m (acc : coordset) (x : coordset * list bool) :
  length acc = m → length x.1 = m ∧ length x.2 = m →
  ∃ out, (t ← np.mul_mask x.1 x.2; np.add acc t) = Ok out ∧ length out = m ∧
    ∀ k p (y : vec3 * bool), acc !! k = Some p →
      (p ← x.1 !! k; b ← x.2 !! k; Some (p, b)) = Some y →
      out !! k = Some (np.v3map2 PrimFloat.add p
                         (np.v3scal PrimFloat.mul y.1 (np.of_bool y.2))).
Proof.
  destruct x as [c r]; cbn. intros Hacc [Hc Hr].
  unfold np.mul_mask, np.add. rewrite zip_same_Ok by congruence. cbn.
  rewrite zip_same_Ok by (rewrite length_zip_with_l_eq; congruence).
  eexists. split_and!; [done|..].
  - rewrite length_zip_with_l_eq; [done|].
    rewrite length_zip_with_l_eq; congruence.
  - intros k p [q b] Hp Hy. rewrite !lookup_zip_with, Hp. cbn.
    destruct (c !! k) as [q'|]; [|done]. cbn in *.
    destruct (r !! k) as [b'|]; [|done]. cbn in *. by simplify_eq.
Qed.

(** One turn of the second loop. *)
Lemma ssq_step m (mean acc : coordset) (x : coordset * list bool) :
  length mean = m → length acc = m → length x.1 = m ∧ length x.2 = m →
  ∃ out, (d ← np.sub x.1 mean; t ← np.mul_mask d x.2;
          np.add acc (np.square t)) = Ok out ∧ length out = m ∧
    ∀ k p (y : vec3 * bool), acc !! k = Some p →
      (p ← x.1 !! k; b ← x.2 !! k; Some (p, b)) = Some y →
      out !! k = Some (np.v3map2 PrimFloat.add p
        (np.v3sq (np.v3scal PrimFloat.mul
           (np.v3map2 PrimFloat.sub y.1 (default np.v3zero (mean !! k)))
           (np.of_bool y.2)))).
Proof.
  destruct x as [c r]; cbn. intros Hmean Hacc [Hc Hr].
  unfold np.mul_mask, np.add, np.sub, np.square.
  rewrite zip_same_Ok by congruence. cbn.
  rewrite zip_same_Ok by (rewrite length_zip_with_l_eq; congruence). cbn.
  rewrite zip_same_Ok.
  2:{ rewrite length_map, !length_zip_with_l_eq; try congruence.
      rewrite length_zip_with_l_eq; congruence. }
  eexists. split_and!; [done|..].
  - rewrite length_zip_with_l_eq; [done|].
    rewrite length_map, !length_zip_with_l_eq; try congruence.
    rewrite length_zip_with_l_eq; congruence.
  - intros k p [q b] Hp Hy.
    rewrite lookup_zip_with, Hp, list_lookup_fmap, !lookup_zip_with. cbn.
    destruct (c !! k) as [q'|] eqn:Hq; [|done]. cbn in *.
    destruct (r !! k) as [b'|]; [|done]. cbn in *. simplify_eq.
    destruct (mean !! k) as [mu|] eqn:Hmu; [done|].
    apply lookup_lt_Some in Hq. apply lookup_ge_None in Hmu. lia.
Qed.

Lemma msf_tail_column ncols coords cs ms m :
  length coords = m → Forall (λ c, length c = m) cs →
  Forall (λ r, length r = m) ms → length cs = length ms →
  (ms = [] → ncols = m) →
  ∃ msf, msf_tail ncols coords cs ms = Ok (Some msf) ∧ length msf = m ∧
    ∀ k col, k < m → column k (zip cs ms) = Some col →
      msf !! k = Some (atom_msf col).
Proof.
  intros Hcoords Hcs Hms Hlen Hn. unfold msf_tail.
  destruct (sum0_column ncols ms m Hms Hn) as (cnt & -> & Hcnt & Hcntk). cbn.
  pose proof (Forall_zip_both _ _ _ _ Hcs Hms) as Hgood.
  (* the first loop *)
  rewrite (foldM_ext _ (λ acc ia, w ← need IndexError (ms !! ia.1);
                          (λ acc c r, t ← np.mul_mask c r; np.add acc t)
                            acc ia.2 w)) by (by intros ? [? ?]).
  rewrite (foldM_enumerate (λ acc c r, t ← np.mul_mask c r; np.add acc t))
    by lia.
  edestruct (foldM_column
    (λ acc (x : coordset * list bool), t ← np.mul_mask x.1 x.2; np.add acc t)
    (λ x, length x.1 = m ∧ length x.2 = m) m
    (λ k (cr : coordset * list bool), p ← cr.1 !! k; b ← cr.2 !! k; Some (p, b))
    (λ _ p (y : vec3 * bool),
       np.v3map2 PrimFloat.add p (np.v3scal PrimFloat.mul y.1 (np.of_bool y.2))))
    as (sum & -> & Hsum & Hsumk);
    [intros; by apply mean_step|exact Hgood|
     unfold np.zeros; by rewrite length_replicate|].
  cbn. unfold np.div_count. rewrite zip_same_Ok by congruence. cbn.
  set (mean := zip_with _ sum cnt).
  assert (length mean = m) as Hmean.
  { unfold mean. rewrite length_zip_with_l_eq; congruence. }
  (* the second loop *)
  rewrite (foldM_ext _ (λ acc ia, w ← need IndexError (ms !! ia.1);
                          (λ acc c r, d ← np.sub c mean; t ← np.mul_mask d r;
                                      np.add acc (np.square t))
                            acc ia.2 w)) by (by intros ? [? ?]).
  rewrite (foldM_enumerate (λ acc c r, d ← np.sub c mean; t ← np.mul_mask d r;
                                       np.add acc (np.square t))) by lia.
  edestruct (foldM_column
    (λ acc (x : coordset * list bool),
       d ← np.sub x.1 mean; t ← np.mul_mask d x.2; np.add acc (np.square t))
    (λ x, length x.1 = m ∧ length x.2 = m) m
    (λ k (cr : coordset * list bool), p ← cr.1 !! k; b ← cr.2 !! k; Some (p, b))
    (λ k p (y : vec3 * bool),
       np.v3map2 PrimFloat.add p
         (np.v3sq (np.v3scal PrimFloat.mul
            (np.v3map2 PrimFloat.sub y.1 (default np.v3zero (mean !! k)))
            (np.of_bool y.2)))))
    as (ssqf & -> & Hssqf & Hssqfk);
    [intros; by apply (ssq_step m)|exact Hgood|
     unfold np.zeros; by rewrite length_replicate|].
  cbn. rewrite zip_same_Ok by (rewrite length_map; congruence). cbn.
  eexists. split_and!; [done|..].
  { rewrite length_zip_with_l_eq; rewrite length_map; congruence. }
  intros k col Hk Hcol.
  assert (cnt !! k = Some (inclusion_sum col)) as Hck.
  { rewrite (Hcntk k (snd <$> col) Hk).
    - unfold inclusion_sum. by rewrite foldl_fmap.
    - rewrite <- (mapM_snd_zip _ cs ms Hlen). by apply column_masks. }
  assert (mean !! k = Some (masked_mean col)) as Hmk.
  { unfold mean. rewrite lookup_zip_with, Hck.
    rewrite (Hsumk k np.v3zero col); [done| |done].
    apply lookup_replicate_lt. lia. }
  rewrite lookup_zip_with, list_lookup_fmap, Hck.
  rewrite (Hssqfk k np.v3zero col); [|apply lookup_replicate_lt; lia|done].
  cbn. rewrite Hmk. done.
Qed.

Lemma picks_lookup {A} sel (l out : list A) k a :
  picks sel l out → sel !! k = Some a → out !! k = l !! a.
Proof.
  intros Hp Hk. destruct (Forall2_lookup_l _ _ _ _ _ Hp Hk) as (x & -> & ->).
  done.
Qed.

Lemma observations_total confs weights a n :
  Forall (λ c, length c = n) confs → Forall (λ w, length w = n) weights →
  a < n → ∃ obs, observations confs weights a = Some obs.
Proof.
  intros Hc Hw Ha. unfold observations.
  pose proof (Forall_zip_both _ _ _ _ Hc Hw) as Hz.
  induction Hz as [|[c w] l [Hcl Hwl] _ [obs IH]]; cbn; [by eexists|].
  cbn in *. fold (@mapM option _ _) in *.
  destruct (lookup_lt_is_Some_2 c a) as [p ->]; [lia|].
  destruct (lookup_lt_is_Some_2 w a) as [x ->]; [lia|]. cbn.
  rewrite IH. by eexists.
Qed.

(** Column [k] of the selected arrays holds the observations of the atom
    selected at position [k]. *)
Lemma column_observations confs weights cs ws k a obs :
  Forall2 (λ (c c' : coordset), c' !! k = c !! a) confs cs →
  Forall2 (λ (w w' : weightset), w' !! k = w !! a) weights ws →
  observations confs weights a = Some obs →
  column k (zip cs (np.gt0 ws)) = Some (masked obs).
Proof.
  unfold observations, column. rewrite !mapM_Some.
  intros Hc. revert weights ws obs.
  induction Hc as [|c c' confs cs Hcc _ IH]; intros weights ws obs Hw Hobs.
  { inversion Hobs. constructor. }
  destruct Hw as [|w w' weights ws Hww Hw].
  { inversion Hobs. constructor. }
  cbn in Hobs. inversion Hobs as [|? o ? obs' Ho Hobs']; subst. cbn.
  constructor; [|by eapply IH].
  cbn in *. rewrite Hcc, list_lookup_fmap, Hww.
  destruct (c !! a) as [p|]; [|done]. cbn in *.
  destruct (w !! a) as [x|]; [|done]. cbn in *. by simplify_eq.
Qed.

Lemma Forall2_diag {A} (P : A → A → Prop) l :
  (∀ x, P x x) → Forall2 P l l.
Proof. intros HP. induction l; by constructor. Qed.

Lemma gt0_rows ws m :
  Forall (λ w : weightset, length w = m) ws →
  Forall (λ r : list bool, length r = m) (np.gt0 ws).
Proof.
  intros Hw. unfold np.gt0. apply Forall_fmap.
  eapply Forall_impl; [exact Hw|]. intros w <-. cbn. by rewrite length_map.
Qed.

Lemma picks_rows {A} sel (ls rs : list (list A)) :
  Forall2 (picks sel) ls rs → Forall (λ r, length r = length sel) rs.
Proof.
  intros HF. apply Forall_forall. intros r Hr.
  apply list_elem_of_lookup in Hr as [i Hi].
  destruct (Forall2_lookup_r _ _ _ _ _ HF Hi) as (l & _ & Hp).
  by apply picks_length in Hp.
Qed.

Lemma getMSFs_unfold e :
  getMSFs e =
  match _confs e with
  | None => Ok None
  | Some all_confs =>
    '(coords, confs, weights) ←
      match _indices e with
      | None =>
        w ← need TypeError (_weights e);
        coords ← need AttributeError (_coords e);
        Ok (coords, all_confs, np.gt0 w)
      | Some indices =>
        c ← need TypeError (_coords e);
        coords ← np.take indices c;
        confs ← np.take_cols indices all_confs;
        w ← need TypeError (_weights e);
        w ← np.take_cols indices w;
        Ok (coords, confs, np.gt0 w)
      end;
    msf_tail (numSelected e) coords confs weights
  end.
Proof. done. Qed.

(** [getMSFs] returns, for every selected atom, the variance of its
    observations. *)
Lemma getMSFs_atoms e ref confs weights :
  well_formed e → _coords e = Some ref → _confs e = Some confs →
  _weights e = Some weights →
  ∃ msf, getMSFs e = Ok (Some msf) ∧ length msf = numSelected e ∧
    ∀ k a, selected_atom e k = Some a →
      ∃ obs, observations confs weights a = Some obs ∧
             msf !! k = Some (atom_msf (masked obs)).
Proof.
  intros [Hwc Hwf Hww Hwi] Href Hconfs Hweights.
  destruct (Hwf _ Hconfs) as [Hnc Hrows], (Hww _ Hweights) as [Hnw Hwrows].
  specialize (Hwc _ Href).
  rewrite getMSFs_unfold, Hconfs. unfold numSelected, selected_atom.
  destruct (_indices e) as [idx|] eqn:Hidx.
  - specialize (Hwi _ eq_refl).
    rewrite Href, Hweights. cbn.
    destruct (take_total idx ref) as [coords' Hc']; [by rewrite Hwc|].
    destruct (take_cols_total idx confs _ Hwi Hrows) as [cs Hcs].
    destruct (take_cols_total idx weights _ Hwi Hwrows) as [ws Hws].
    rewrite Hc', Hcs, Hws. cbn.
    apply take_Ok in Hc'. apply take_cols_Ok in Hcs, Hws.
    destruct (msf_tail_column (length idx) coords' cs (np.gt0 ws) (length idx))
      as (msf & -> & Hlen & Hk).
    { by apply picks_length in Hc'. }
    { by eapply picks_rows. }
    { eapply gt0_rows, picks_rows; done. }
    { unfold np.gt0. rewrite length_fmap.
      apply Forall2_length in Hcs, Hws. congruence. }
    { done. }
    exists msf. split_and!; [done..|]. intros k a Ha.
    destruct (observations_total confs weights a _ Hrows Hwrows) as [obs Hobs].
    { by eapply Forall_lookup_1 in Hwi. }
    exists obs. split; [done|]. apply Hk; [by eapply lookup_lt_Some|].
    eapply column_observations; [| |done].
    + eapply Forall2_impl; [exact Hcs|]. intros c c' Hp. by eapply picks_lookup.
    + eapply Forall2_impl; [exact Hws|]. intros w w' Hp. by eapply picks_lookup.
  - rewrite Href, Hweights. cbn.
    destruct (msf_tail_column (_n_atoms e) ref confs (np.gt0 weights) (_n_atoms e))
      as (msf & -> & Hlen & Hk); [done|done|by apply gt0_rows| |done|].
    { unfold np.gt0. rewrite length_fmap. congruence. }
    exists msf. split_and!; [done..|]. intros k a Ha.
    case_decide; [|done]. injection Ha as <-.
    destruct (observations_total confs weights k _ Hrows Hwrows) as [obs Hobs];
      [done|].
    exists obs. split; [done|]. apply Hk; [done|].
    eapply column_observations; [| |done]; by apply Forall2_diag.
Qed.

(** * The variance of one atom in binary64 *)

Lemma zero_weight_excluded w : (w =? 0)%float = true → included w = false.
Proof.
  unfold included. rewrite FloatAxioms.eqb_spec, FloatAxioms.ltb_spec.
  change (Prim2SF 0) with (S754_zero false). unfold SFeqb, SFltb.
  destruct (Prim2SF w) as [s|s| |s m e]; cbn; try done; by destruct s.
Qed.

Lemma of_count_0 : np.of_count 0 = 0%float.
Proof. reflexivity. Qed.

Lemma inclusion_sum_excluded obs :
  Forall (λ o : vec3 * bool, o.2 = false) obs → inclusion_sum obs = 0.
Proof.
  unfold inclusion_sum. induction 1 as [|[p b] obs Hb _ IH]; [done|].
  cbn in *. by rewrite Hb.
Qed.

Lemma masked_sum_excluded obs acc :
  Forall (λ o : vec3 * bool, o.2 = false) obs → v3all zero_or_nan acc →
  v3all zero_or_nan
    (foldl (λ acc (o : vec3 * bool),
              np.v3map2 PrimFloat.add acc
                (np.v3scal PrimFloat.mul o.1 (np.of_bool o.2))) acc obs).
Proof.
  intros Hobs. revert acc.
  induction Hobs as [|[[[px py] pz] b] obs Hb _ IH]; intros acc Hacc; [done|].
  cbn in *. subst b. apply IH.
  destruct acc as [[ax ay] az], Hacc as (? & ? & ?). cbn in *.
  split_and!; cbn; apply add_class; auto using mul_zero_class.
Qed.

Lemma masked_ssq_nan obs acc :
  v3all zero_or_nan acc →
  v3all zero_or_nan (foldl (λ acc (o : vec3 * bool),
     np.v3map2 PrimFloat.add acc
       (np.v3sq (np.v3scal PrimFloat.mul
                   (np.v3map2 PrimFloat.sub o.1 (nan, nan, nan))
                   (np.of_bool o.2)))) acc obs).
Proof.
  revert acc. induction obs as [|[[[px py] pz] b] obs IH]; intros acc Hacc;
    [done|].
  cbn. apply IH. destruct acc as [[ax ay] az]. cbn.
  rewrite !sub_nan_r, !mul_nan_l, !add_nan_r.
  unfold v3all; cbn. split_and!; left; done.
Qed.

(** An atom that no frame includes has no variance: [0 / 0]. *)
Lemma atom_msf_excluded obs :
  Forall (λ o : vec3 * bool, o.2 = false) obs → atom_msf obs = nan.
Proof.
  intros Hobs. unfold atom_msf, masked_mean, masked_sum.
  rewrite (inclusion_sum_excluded _ Hobs), of_count_0.
  pose proof (masked_sum_excluded obs np.v3zero Hobs) as Hsum.
  destruct (foldl _ np.v3zero obs) as [[sx sy] sz].
  destruct Hsum as (Hx & Hy & Hz); [by repeat split; right; exists false|].
  cbn in *.
  rewrite (div_zero_nan sx), (div_zero_nan sy), (div_zero_nan sz) by done.
  pose proof (masked_ssq_nan obs np.v3zero) as Hssq. unfold masked_ssq.
  destruct (foldl _ np.v3zero obs) as [[qx qy] qz].
  destruct Hssq as (Hqx & Hqy & Hqz); [by repeat split; right; exists false|].
  cbn in *. apply div_zero_nan. by repeat apply add_class.
Qed.

(** An atom that every frame includes at the same finite place has variance
    zero when the computed mean is that place. *)
Lemma atom_msf_constant obs c :
  Forall (λ o : vec3 * bool, o.2 = true ∧ o.1 = c) obs →
  v3finite c → v3eqb c (masked_mean obs) = true →
  atom_msf obs = 0%float.
Proof.
  intros Hobs (Hfx & Hfy & Hfz) Heq. unfold atom_msf.
  unfold v3eqb in Heq. apply andb_prop in Heq as [Heq Hez].
  apply andb_prop in Heq as [Hex Hey].
  assert (masked_ssq (masked_mean obs) obs = np.v3zero) as ->.
  { unfold masked_ssq. generalize dependent (masked_mean obs).
    intros [[mx my] mz] Hez Hex Hey. clear -Hobs Hfx Hfy Hfz Hez Hex Hey.
    induction Hobs as [|[p b] obs [Hb Hp] _ IH]; [done|].
    cbn in *. subst b p. destruct c as [[cx cy] cz]. cbn in *.
    rewrite !zero_square by (by apply zero_mul_one, sub_eqb_zero).
    apply IH. }
  cbn. unfold masked_mean in *.
  destruct (masked_sum obs) as [[sx sy] sz], c as [[cx cy] cz]. cbn in *.
  change (0 + 0 + 0)%float with 0%float.
  by eapply (zero_div_count cx sx).
Qed.

(** * The frames that do not count *)

(** ** The variance, axis by axis *)

Lemma along_map2 k f a b :
  along k (np.v3map2 f a b) = f (along k a) (along k b).
Proof. by destruct k, a as [[? ?] ?], b as [[? ?] ?]. Qed.

Lemma along_scal k f a s : along k (np.v3scal f a s) = f (along k a) s.
Proof. by destruct k, a as [[? ?] ?]. Qed.

Lemma along_sq k a : along k (np.v3sq a) = (along k a * along k a)%float.
Proof. by destruct k, a as [[? ?] ?]. Qed.

Lemma v3finite_along k p : v3finite p → is_finite (along k p) = true.
Proof. intros (? & ? & ?). by destruct k. Qed.

Lemma not_v3finite p :
  ¬ v3finite p → ∃ k, is_finite (along k p) = false.
Proof.
  intros Hp. destruct (is_finite (along AxisX p)) eqn:Hx; [|by exists AxisX].
  destruct (is_finite (along AxisY p)) eqn:Hy; [|by exists AxisY].
  destruct (is_finite (along AxisZ p)) eqn:Hz; [|by exists AxisZ].
  by destruct Hp.
Qed.

Lemma inclusion_sum_axis k obs : inclusion_sum obs = axis_count (axis_obs k obs).
Proof.
  unfold inclusion_sum, axis_count, axis_obs. generalize 0.
  induction obs as [|o obs IH]; intros n; [done|]. cbn. apply IH.
Qed.

Lemma masked_sum_axis k obs :
  along k (masked_sum obs) = axis_sum 0 (axis_obs k obs).
Proof.
  unfold masked_sum, axis_sum, axis_obs.
  assert (along k np.v3zero = 0%float) as <- by by destruct k.
  generalize np.v3zero.
  induction obs as [|o obs IH]; intros acc; [done|].
  cbn. rewrite IH. by rewrite along_map2, along_scal.
Qed.

Lemma masked_mean_axis k obs :
  along k (masked_mean obs) = axis_mean (axis_obs k obs).
Proof.
  unfold masked_mean, axis_mean.
  by rewrite along_scal, masked_sum_axis, (inclusion_sum_axis k).
Qed.

Lemma masked_ssq_axis k mean obs :
  along k (masked_ssq mean obs) = axis_ssq (along k mean) 0 (axis_obs k obs).
Proof.
  unfold masked_ssq, axis_ssq, axis_obs.
  assert (along k np.v3zero = 0%float) as <- by by destruct k.
  generalize np.v3zero.
  induction obs as [|o obs IH]; intros acc; [done|].
  cbn. rewrite IH.
  by rewrite along_map2, along_sq, along_scal, along_map2.
Qed.

(** The fluctuation is the sum over the axes, divided by the count. *)
Lemma atom_msf_axes obs :
  atom_msf obs =
  ((axis_ssq (axis_mean (axis_obs AxisX obs)) 0 (axis_obs AxisX obs)
    + axis_ssq (axis_mean (axis_obs AxisY obs)) 0 (axis_obs AxisY obs)
    + axis_ssq (axis_mean (axis_obs AxisZ obs)) 0 (axis_obs AxisZ obs))
   / np.of_count (inclusion_sum obs))%float.
Proof.
  unfold atom_msf. rewrite <- !masked_mean_axis, <- !masked_ssq_axis.
  by destruct (masked_ssq _ _) as [[? ?] ?].
Qed.

(** ** Frames with the mask off *)

Lemma axis_count_filter l :
  axis_count (filter (λ o : float * bool, o.2 = true) l) = axis_count l.
Proof.
  unfold axis_count. generalize 0.
  induction l as [|[x []] l IH]; intros n; [done| |].
  - rewrite filter_cons_True by done. cbn. apply IH.
  - rewrite filter_cons_False by done. cbn. apply IH.
Qed.

(** A finite coordinate with the mask off adds a zero to the sum. *)
Lemma axis_sum_filter l acc acc' :
  Forall (λ o : float * bool, o.2 = false → is_finite o.1 = true) l →
  same_number acc acc' →
  same_number (axis_sum acc l)
              (axis_sum acc' (filter (λ o : float * bool, o.2 = true) l)).
Proof.
  unfold axis_sum. intros Hl. revert acc acc'.
  induction Hl as [|[x []] l Hx _ IH]; intros acc acc' Hacc; [done| |].
  - rewrite filter_cons_True by done. cbn. by apply IH, add_same_l.
  - rewrite filter_cons_False by done. cbn. apply IH.
    eapply same_trans; [|exact Hacc].
    apply add_zero_same, finite_mul_zero. by apply Hx.
Qed.

Lemma axis_mean_filter l :
  Forall (λ o : float * bool, o.2 = false → is_finite o.1 = true) l →
  same_number (axis_mean l)
              (axis_mean (filter (λ o : float * bool, o.2 = true) l)).
Proof.
  intros Hl. unfold axis_mean. rewrite axis_count_filter.
  apply div_same_l, axis_sum_filter; [done|apply same_refl].
Qed.

(** A finite deviation with the mask off adds nothing to the squares. *)
Lemma axis_ssq_filter m m' l acc :
  same_number m m' → unsigned acc →
  Forall (λ o : float * bool,
            o.2 = false → is_finite (o.1 - m') = true) l →
  axis_ssq m acc l
  = axis_ssq m' acc (filter (λ o : float * bool, o.2 = true) l).
Proof.
  unfold axis_ssq. intros Hm Hacc Hl. revert acc Hacc.
  induction Hl as [|[x []] l Hx _ IH]; intros acc Hacc; [done| |].
  - rewrite filter_cons_True by done. cbn.
    rewrite (square_same ((x - m) * 1) ((x - m') * 1))
      by by apply mul_same_l, sub_same_r.
    apply IH, add_unsigned, square_unsigned. done.
  - rewrite filter_cons_False by done. cbn.
    assert (zero ((x - m) * 0)) as Hz.
    { eapply same_finite_mul_zero; [by apply sub_same_r|by apply Hx]. }
    rewrite (zero_square _ Hz), add_zero_unsigned by done. by apply IH.
Qed.

(** Along one axis the frames with the mask off do not count, when what
    they store and its distance from the mean are finite. *)
Lemma axis_excluded l :
  Forall (λ o : float * bool,
            o.2 = false →
            is_finite o.1 = true ∧
            is_finite
              (o.1 - axis_mean (filter (λ o : float * bool, o.2 = true) l))
            = true) l →
  axis_ssq (axis_mean l) 0 l
  = axis_ssq (axis_mean (filter (λ o : float * bool, o.2 = true) l)) 0
             (filter (λ o : float * bool, o.2 = true) l).
Proof.
  intros Hl. apply axis_ssq_filter; [|apply unsigned_zero|].
  - apply axis_mean_filter. eapply Forall_impl; [exact Hl|]. naive_solver.
  - eapply Forall_impl; [exact Hl|]. naive_solver.
Qed.

Lemma axis_obs_filter k obs :
  axis_obs k (filter (λ o : vec3 * bool, o.2 = true) obs)
  = filter (λ o : float * bool, o.2 = true) (axis_obs k obs).
Proof.
  unfold axis_obs. induction obs as [|[p []] obs IH]; [done| |].
  - rewrite filter_cons_True by done. rewrite !fmap_cons.
    rewrite filter_cons_True by done. by rewrite IH.
  - rewrite filter_cons_False by done. rewrite fmap_cons.
    by rewrite filter_cons_False by done.
Qed.

Lemma masked_included obs :
  masked (included_frames obs)
  = filter (λ o : vec3 * bool, o.2 = true) (masked obs).
Proof.
  unfold masked, included_frames.
  induction obs as [|[p w] obs IH]; [done|]. rewrite fmap_cons.
  destruct (included w) eqn:Hw.
  - rewrite !filter_cons_True by done. rewrite fmap_cons. by rewrite IH.
  - rewrite filter_cons_False by (cbn [fst snd]; congruence).
    by rewrite filter_cons_False by (cbn [fst snd]; congruence).
Qed.

(** The frames with the mask off do not count, when what they store and
    its distance from the mean of the others are finite. *)
Lemma atom_msf_included obs :
  Forall (λ o : vec3 * bool,
            o.2 = false →
            v3finite o.1 ∧
            v3finite (np.v3map2 PrimFloat.sub o.1
                        (masked_mean
                           (filter (λ o : vec3 * bool, o.2 = true) obs))))
         obs →
  atom_msf obs = atom_msf (filter (λ o : vec3 * bool, o.2 = true) obs).
Proof.
  intros Hobs.
  assert (∀ k, axis_ssq (axis_mean (axis_obs k obs)) 0 (axis_obs k obs)
               = axis_ssq
                   (axis_mean
                      (axis_obs k (filter (λ o : vec3 * bool, o.2 = true) obs)))
                   0 (axis_obs k (filter (λ o : vec3 * bool, o.2 = true) obs)))
    as Haxis.
  { intros k. rewrite axis_obs_filter. apply axis_excluded.
    unfold axis_obs at 2. apply Forall_fmap.
    eapply Forall_impl; [exact Hobs|]. intros [p b] Hp Hb. cbn in *.
    destruct (Hp Hb) as [Hf Hd]. split; [by apply v3finite_along|].
    apply (v3finite_along k) in Hd.
    by rewrite along_map2, masked_mean_axis, axis_obs_filter in Hd. }
  rewrite !atom_msf_axes, !Haxis.
  by rewrite !(inclusion_sum_axis AxisX), axis_obs_filter, axis_count_filter.
Qed.

(** ** Frames with the mask on *)

Lemma v3scal_one p : np.v3scal PrimFloat.mul p 1 = p.
Proof. destruct p as [[x y] z]. cbn. by rewrite !mul_one_r. Qed.

Lemma inclusion_sum_all ps :
  inclusion_sum ((λ p : vec3, (p, true)) <$> ps) = length ps.
Proof.
  unfold inclusion_sum.
  assert (∀ n, foldl (λ n (o : vec3 * bool), if o.2 then S n else n) n
                 ((λ p : vec3, (p, true)) <$> ps) = n + length ps) as Hn.
  { induction ps as [|p ps IH]; intros n; cbn; [lia|]. rewrite IH. lia. }
  apply Hn.
Qed.

Lemma masked_sum_all ps :
  masked_sum ((λ p : vec3, (p, true)) <$> ps) = position_sum ps.
Proof.
  unfold masked_sum, position_sum. generalize np.v3zero.
  induction ps as [|p ps IH]; intros acc; [done|].
  cbn. rewrite IH. by rewrite v3scal_one.
Qed.

Lemma masked_mean_all ps :
  masked_mean ((λ p : vec3, (p, true)) <$> ps) = position_mean ps.
Proof.
  unfold masked_mean, position_mean.
  by rewrite masked_sum_all, inclusion_sum_all.
Qed.

(** With every mask on, the fluctuation is the variance of the positions. *)
Lemma atom_msf_all ps :
  atom_msf ((λ p : vec3, (p, true)) <$> ps) = position_variance ps.
Proof.
  unfold atom_msf, position_variance.
  rewrite masked_mean_all, inclusion_sum_all. do 2 f_equal.
  unfold masked_ssq. generalize np.v3zero. generalize (position_mean ps).
  induction ps as [|p ps IH]; intros mean acc; [done|].
  cbn. rewrite IH. by rewrite v3scal_one.
Qed.

Lemma masked_included_positions obs :
  masked (included_frames obs)
  = (λ p : vec3, (p, true)) <$> included_positions obs.
Proof.
  unfold masked, included_positions, included_frames.
  induction obs as [|[p w] obs IH]; [done|].
  destruct (included w) eqn:Hw.
  - rewrite filter_cons_True by done. rewrite !fmap_cons. cbn [fst snd].
    by rewrite Hw, IH.
  - by rewrite filter_cons_False by (cbn [fst snd]; congruence).
Qed.

(** The fluctuation of an atom is the variance of its positions in the
    frames that count, when what the other frames store and its distance
    from the mean are finite. *)
Lemma atom_msf_variance obs :
  Forall (λ o : observation,
            included o.2 = false →
            v3finite o.1 ∧
            v3finite (np.v3map2 PrimFloat.sub o.1
                        (position_mean (included_positions obs))))
         obs →
  atom_msf (masked obs) = position_variance (included_positions obs).
Proof.
  intros Hobs. rewrite <- atom_msf_all, <- masked_included_positions.
  rewrite masked_included. apply atom_msf_included.
  unfold masked at 2. apply Forall_fmap.
  eapply Forall_impl; [exact Hobs|]. intros [p w] Hp Hw. cbn in *.
  rewrite <- masked_included, masked_included_positions, masked_mean_all.
  by apply Hp.
Qed.

(** ** What is not finite is not masked out *)

Lemma axis_sum_nan l : axis_sum nan l = nan.
Proof.
  unfold axis_sum. induction l as [|o l IH]; [done|].
  cbn. by rewrite add_nan_l.
Qed.

Lemma axis_sum_not_finite l acc o :
  o ∈ l → o.2 = false → is_finite o.1 = false → axis_sum acc l = nan.
Proof.
  intros Hin Hb Hf. revert acc.
  induction l as [|o' l IH]; intros acc; [by apply elem_of_nil in Hin|].
  apply elem_of_cons in Hin as [<-|Hin].
  - destruct o as [x b]. cbn in *. subst b. unfold axis_sum. cbn.
    rewrite infinite_mul_zero, add_nan_r by done. apply axis_sum_nan.
  - unfold axis_sum in *. cbn. by apply IH.
Qed.

Lemma axis_ssq_nan_acc m l : axis_ssq m nan l = nan.
Proof.
  unfold axis_ssq. induction l as [|o l IH]; [done|].
  cbn. by rewrite add_nan_l.
Qed.

Lemma axis_ssq_nan_mean l acc : l ≠ [] → axis_ssq nan acc l = nan.
Proof.
  destruct l as [|o l]; [done|]. intros _. unfold axis_ssq. cbn.
  rewrite sub_nan_r, !mul_nan_l, add_nan_r. apply axis_ssq_nan_acc.
Qed.

Lemma axis_not_finite l o :
  o ∈ l → o.2 = false → is_finite o.1 = false →
  axis_ssq (axis_mean l) 0 l = nan.
Proof.
  intros Hin Hb Hf. unfold axis_mean.
  rewrite (axis_sum_not_finite l 0 o), div_nan_l by done.
  apply axis_ssq_nan_mean. by intros ->; apply elem_of_nil in Hin.
Qed.

(** A coordinate that is not finite, stored where the mask is off, makes
    the fluctuation of the atom not a number. *)
Lemma atom_msf_not_finite obs o :
  o ∈ obs → o.2 = false → ¬ v3finite o.1 → atom_msf obs = nan.
Proof.
  intros Hin Hb Hf. apply not_v3finite in Hf as [k Hk].
  assert (axis_ssq (axis_mean (axis_obs k obs)) 0 (axis_obs k obs) = nan)
    as Hnan.
  { apply (axis_not_finite _ (along k o.1, o.2)); [|done..].
    unfold axis_obs. apply list_elem_of_fmap. by exists o. }
  rewrite atom_msf_axes.
  destruct k; rewrite Hnan;
    by rewrite ?add_nan_l, ?add_nan_r, ?add_nan_l, div_nan_l.
Qed.

(** * C1: mean square fluctuations *)

Lemma masked_excluded obs :
  Forall (λ o : observation, (o.2 =? 0)%float = true) obs →
  Forall (λ o : vec3 * bool, o.2 = false) (masked obs).
Proof.
  intros Hobs. unfold masked. apply Forall_fmap.
  eapply Forall_impl; [exact Hobs|]. intros [p w]; cbn.
  apply zero_weight_excluded.
Qed.

Lemma masked_constant obs c :
  Forall (λ o : observation, (0 <? o.2)%float = true ∧ o.1 = c) obs →
  Forall (λ o : vec3 * bool, o.2 = true ∧ o.1 = c) (masked obs).
Proof.
  intros Hobs. unfold masked. apply Forall_fmap.
  eapply Forall_impl; [exact Hobs|]. by intros [p w].
Qed.

(** C1, amended.  [getMSFs] returns [None] when the ensemble holds no
    conformations.  On a well-formed ensemble with reference, conformations
    and weights it returns one number per selected atom, computed from the
    positions of the atom and the masks [w > 0] of its weights.  When, in
    every frame whose weight is not positive, the stored position and its
    distance from the mean of the frames that count are finite, that number is
    the variance of the positions in the frames whose weight is positive
    (their squared distances from their mean, divided by their number): the
    other frames do not count.  A position that is not finite is not masked
    out: stored in a frame whose weight is not positive it makes the number
    NaN.  The number is NaN too for an atom whose weight is zero in every
    frame.  For an atom with positive weight in every frame and the same
    finite position [c] in every frame it is exactly zero whenever the mean
    computed in binary64 equals [c]. *)
Theorem getMSFs_weighted_variance (e : PDBEnsemble) :
  (_confs e = None → getMSFs e = Ok None) ∧
  ∀ ref confs weights,
    well_formed e → _coords e = Some ref → _confs e = Some confs →
    _weights e = Some weights →
    ∃ msf, getMSFs e = Ok (Some msf) ∧ length msf = numSelected e ∧
      ∀ k a, selected_atom e k = Some a →
        ∃ obs, observations confs weights a = Some obs ∧
          msf !! k = Some (atom_msf (masked obs)) ∧
          (Forall (λ o : observation, (o.2 =? 0)%float = true) obs →
           msf !! k = Some nan) ∧
          (∀ c, Forall (λ o : observation,
                          (0 <? o.2)%float = true ∧ o.1 = c) obs →
                v3finite c → v3eqb c (masked_mean (masked obs)) = true →
                msf !! k = Some 0%float) ∧
          (Forall (λ o : observation,
                     included o.2 = false →
                     v3finite o.1 ∧
                     v3finite (np.v3map2 PrimFloat.sub o.1
                                 (position_mean (included_positions obs))))
                  obs →
           msf !! k = Some (position_variance (included_positions obs))) ∧
          (∀ o, o ∈ obs → included o.2 = false → ¬ v3finite o.1 →
                msf !! k = Some nan).
Proof.
  split.
  - intros Hnone. unfold getMSFs. by rewrite Hnone.
  - intros ref confs weights Hwf Href Hconfs Hweights.
    destruct (getMSFs_atoms e ref confs weights Hwf Href Hconfs Hweights)
      as (msf & Hmsf & Hlen & Hatoms).
    exists msf. split_and!; [done..|]. intros k a Ha.
    destruct (Hatoms k a Ha) as (obs & Hobs & Hk).
    exists obs. split_and!; [done..| | | |].
    + intros Hzero. rewrite Hk. f_equal.
      by apply atom_msf_excluded, masked_excluded.
    + intros c Hc Hfin Hmean. rewrite Hk. f_equal.
      by eapply atom_msf_constant, Hmean; [apply masked_constant|].
    + intros Hfin. rewrite Hk. f_equal. by apply atom_msf_variance.
    + intros o Hin Hw Hfin. rewrite Hk. f_equal.
      apply (atom_msf_not_finite _ (o.1, included o.2)); [|done..].
      unfold masked. apply list_elem_of_fmap. by exists o.
Qed.

Lemma still_ensemble_wf : well_formed still_ensemble.
Proof.
  split; cbn; try (intros ? [= <-]; cbn; repeat constructor); done.
Qed.

Lemma half_ensemble_wf : well_formed half_ensemble.
Proof.
  split; cbn; try (intros ? [= <-]; cbn; repeat constructor); done.
Qed.

Lemma outlier_ensemble_wf : well_formed outlier_ensemble.
Proof.
  split; cbn; try (intros ? [= <-]; cbn; repeat constructor); done.
Qed.

Lemma unbounded_ensemble_wf : well_formed unbounded_ensemble.
Proof.
  split; cbn; try (intros ? [= <-]; cbn; repeat constructor); done.
Qed.

(** The theorem on two ensembles.  In [half_ensemble] the selected atom
    stays at [(0.5, 0, 0)], the mean of three halves is a half, and the
    fluctuation is zero.  In [outlier_ensemble] the last atom is unresolved
    in the third frame, and its fluctuation is that of the first two
    frames: a half.  In [unbounded_ensemble] the third frame stores an
    infinite coordinate for it, and its fluctuation is not a number. *)
Lemma getMSFs_weighted_variance_witness :
  (∃ msf, getMSFs half_ensemble = Ok (Some msf) ∧ msf !! 0 = Some 0%float) ∧
  (∃ msf, getMSFs outlier_ensemble = Ok (Some msf) ∧
          msf !! 2 = Some 0.5%float) ∧
  (∃ msf, getMSFs unbounded_ensemble = Ok (Some msf) ∧ msf !! 2 = Some nan).
Proof.
  split; [|split].
  - destruct (getMSFs_weighted_variance half_ensemble) as [_ Hspec].
    destruct (Hspec [(0, 0, 0); (1, 0, 0)]%float
                [[(0.5, 0, 0); (1, 0, 0)]; [(0.5, 0, 0); (2, 0, 0)];
                 [(0.5, 0, 0); (3, 0, 0)]]%float
                [[1; 0]; [1; 0]; [1; 0]]%float
                half_ensemble_wf eq_refl eq_refl eq_refl)
      as (msf & Hmsf & _ & Hatoms).
    exists msf. split; [exact Hmsf|].
    destruct (Hatoms 0 0 eq_refl) as (obs & Hobs & _ & _ & Hconst & _).
    injection Hobs as <-.
    apply (Hconst (0.5, 0, 0)%float).
    + repeat constructor.
    + repeat split.
    + reflexivity.
  - destruct (getMSFs_weighted_variance outlier_ensemble) as [_ Hspec].
    destruct (Hspec [(0, 0, 0); (1, 0, 0); (0, 1, 0)]%float
                [[(0, 0, 0); (1, 0, 0); (0, 1, 0)];
                 [(0, 0, 0); (0, 1, 0); (-1, 0, 0)];
                 [(0, 0, 0); (1, 0, 0); (0, 1, 5)]]%float
                [[1; 1; 1]; [1; 1; 1]; [1; 1; 0]]%float
                outlier_ensemble_wf eq_refl eq_refl eq_refl)
      as (msf & Hmsf & _ & Hatoms).
    exists msf. split; [exact Hmsf|].
    destruct (Hatoms 2 2 eq_refl) as (obs & Hobs & _ & _ & _ & Hincl & _).
    injection Hobs as <-.
    rewrite Hincl; [reflexivity|].
    repeat constructor; try discriminate.
  - destruct (getMSFs_weighted_variance unbounded_ensemble) as [_ Hspec].
    destruct (Hspec [(0, 0, 0); (1, 0, 0); (0, 1, 0)]%float
                [[(0, 0, 0); (1, 0, 0); (0, 1, 0)];
                 [(0, 0, 0); (0, 1, 0); (-1, 0, 0)];
                 [(0, 0, 0); (1, 0, 0); (0, 1, infinity)]]%float
                [[1; 1; 1]; [1; 1; 1]; [1; 1; 0]]%float
                unbounded_ensemble_wf eq_refl eq_refl eq_refl)
      as (msf & Hmsf & _ & Hatoms).
    exists msf. split; [exact Hmsf|].
    destruct (Hatoms 2 2 eq_refl) as (obs & Hobs & _ & _ & _ & _ & Hnan).
    injection Hobs as <-.
    apply (Hnan ((0, 1, infinity), 0)%float).
    + repeat first [apply elem_of_cons; by left|apply elem_of_cons; right].
    + reflexivity.
    + intros (_ & _ & Hz). discriminate Hz.
Defined.

(** C1 as stated fails: the first atom of [still_ensemble] has weight [1]
    and the position [(0.1, 0, 0)] in each of the three frames, and its
    fluctuation is not zero: the mean of three tenths is not a tenth. *)
Lemma getMSFs_still_atom_not_zero :
  observations
    [[(tenth, 0, 0); (1, 0, 0)]; [(tenth, 0, 0); (2, 0, 0)];
     [(tenth, 0, 0); (3, 0, 0)]]%float
    [[1; 0]; [1; 0]; [1; 0]]%float 0
  = Some [((tenth, 0, 0), 1); ((tenth, 0, 0), 1); ((tenth, 0, 0), 1)]%float ∧
  ∃ x y, getMSFs still_ensemble = Ok (Some [x; y]) ∧ (0 <? x)%float = true.
Proof.
  split; [reflexivity|]. eexists _, _. split; vm_compute; reflexivity.
Qed.

(** * Loop invariants *)

(** The invariant rule for a loop in the error monad: [Inv n] holds before
    turn [n]. *)
Lemma foldM_invariant {A B} (f : B → A → result B) (Inv : nat → B → Prop) l b :
  Inv 0 b →
  (∀ n a b, l !! n = Some a → Inv n b → ∃ b', f b a = Ok b' ∧ Inv (S n) b') →
  ∃ b', foldM f b l = Ok b' ∧ Inv (length l) b'.
Proof.
  revert Inv b. induction l as [|a l IH]; intros Inv b H0 Hstep.
  - by exists b.
  - destruct (Hstep 0 a b eq_refl H0) as (b1 & Hb1 & H1).
    destruct (IH (λ n, Inv (S n)) b1 H1) as (b' & Hb' & Hlen).
    { intros n a' b2 Hn. by apply Hstep. }
    exists b'. cbn. by rewrite Hb1.
Qed.

(** * C2: the pairwise matrix *)

Lemma entry_set2 M i j v a b n :
  square_shape n M → i < n → j < n →
  entry (set2 i j v M) a b
  = if decide (a = i ∧ b = j) then Some v else entry M a b.
Proof.
  intros [Hlen Hrows] Hi Hj. unfold entry, set2.
  destruct (decide (a = i)) as [->|Hne].
  - destruct (lookup_lt_is_Some_2 M i) as [row Hrow]; [lia|].
    rewrite list_lookup_alter_eq, Hrow. cbn.
    assert (length row = n) by by eapply Forall_lookup_1 in Hrows.
    destruct (decide (b = j)) as [->|Hnb].
    + case_decide as Hd; [|by destruct Hd]. apply list_lookup_insert_eq. lia.
    + case_decide as Hd; [by destruct Hd|]. by rewrite list_lookup_insert_ne.
  - case_decide as Hd; [by destruct Hd|]. by rewrite list_lookup_alter_ne.
Qed.

Lemma set2_shape M i j v n : square_shape n M → square_shape n (set2 i j v M).
Proof.
  intros [Hlen Hrows]. unfold set2. split; [by rewrite length_alter|].
  apply Forall_alter; [done|]. intros row Hrow. by rewrite length_insert.
Qed.

Lemma zeros_shape n : square_shape n (replicate n (replicate n 0%float)).
Proof.
  split; [apply length_replicate|].
  apply Forall_replicate, length_replicate.
Qed.

Lemma entry_zeros n a b :
  a < n → b < n → entry (replicate n (replicate n 0%float)) a b = Some 0%float.
Proof.
  intros Ha Hb. unfold entry. rewrite lookup_replicate_2 by done. cbn.
  by apply lookup_replicate_2.
Qed.

Lemma take_mapM {A} idx (l r : list A) :
  np.take idx l = Ok r ↔ mapM (λ a, l !! a) idx = Some r.
Proof. by rewrite take_Ok, mapM_Some. Qed.

Lemma selection_length e : length (selection e) = numSelected e.
Proof.
  unfold selection, numSelected. destruct (_indices e); [done|].
  apply length_seq.
Qed.

Lemma selection_bound e :
  well_formed e → Forall (λ i, i < _n_atoms e) (selection e).
Proof.
  intros Hwf. unfold selection. destruct (_indices e) eqn:Hi.
  - by apply (wf_indices e Hwf).
  - apply Forall_seq. intros; lia.
Qed.

Lemma selected_of_total {A} e (row : list A) :
  well_formed e → length row = _n_atoms e →
  ∃ r, selected_of e row = Some r ∧ np.take (selection e) row = Ok r ∧
       length r = numSelected e.
Proof.
  intros Hwf Hrow. destruct (take_total (selection e) row) as [r Hr].
  { rewrite Hrow. by apply selection_bound. }
  exists r. split_and!; [by apply take_mapM|done|].
  apply take_Ok, picks_length in Hr. by rewrite selection_length in Hr.
Qed.

Section pairwise.
Context `{RigidAlignment}.
Context (e : PDBEnsemble) (confs : list coordset) (weights ws : list weightset).
Context (Hwf : well_formed e).
Context (Hconfs : _confs e = Some confs) (Hweights : _weights e = Some weights).
Context (Hws : np.take_cols (selection e) weights = Ok ws).

Local Abbreviation N := (_n_csets e).

Lemma selected_weights_lookup i w :
  selected_weights e i = Some w ↔ ws !! i = Some w.
Proof using Hweights Hws.
  unfold selected_weights. rewrite Hweights. cbn.
  apply take_cols_Ok in Hws. split.
  - destruct (weights !! i) as [w0|] eqn:Hw0; [|done]. cbn. intros Hsel.
    destruct (Forall2_lookup_l _ _ _ _ _ Hws Hw0) as (w' & Hw' & Hp).
    apply take_Ok, take_mapM in Hp. unfold selected_of in Hsel. congruence.
  - intros Hw. destruct (Forall2_lookup_r _ _ _ _ _ Hws Hw) as (w0 & -> & Hp).
    cbn. by apply take_mapM, take_Ok.
Qed.

(** One turn of the inner loop stores the deviation of the pair twice. *)
Lemma pairwise_step_ok i j :
  i < N → j < N →
  ∃ v, pair_rmsd e i j = Some v ∧
    ∀ R, pairwise_step confs (selection e) (Some ws) i j R
         = Ok (set2 j i v (set2 i j v R)).
Proof using Hwf Hconfs Hweights Hws.
  intros Hi Hj.
  destruct (wf_confs e Hwf _ Hconfs) as [Hnc Hrows].
  destruct (wf_weights e Hwf _ Hweights) as [Hnw Hwrows].
  destruct (lookup_lt_is_Some_2 confs i) as [fi Hfi]; [lia|].
  destruct (lookup_lt_is_Some_2 confs j) as [fj Hfj]; [lia|].
  destruct (selected_of_total e fi Hwf) as (ci & Hci & Hti & Hli).
  { by eapply Forall_lookup_1 in Hrows. }
  destruct (selected_of_total e fj Hwf) as (cj & Hcj & Htj & Hlj).
  { by eapply Forall_lookup_1 in Hrows. }
  pose proof Hws as Hws'. apply take_cols_Ok in Hws'.
  destruct (lookup_lt_is_Some_2 ws i) as [wi Hwi].
  { apply Forall2_length in Hws'. lia. }
  destruct (lookup_lt_is_Some_2 ws j) as [wj Hwj].
  { apply Forall2_length in Hws'. lia. }
  assert (length wi = length wj) as Hlw.
  { apply picks_rows in Hws'.
    pose proof (Forall_lookup_1 _ _ _ _ Hws' Hwi).
    pose proof (Forall_lookup_1 _ _ _ _ Hws' Hwj). cbn in *. congruence. }
  exists (getRMSD ci cj (Some (pair_weights wi wj))). split.
  - unfold pair_rmsd, selected_frame. rewrite Hconfs. cbn.
    rewrite Hfi. cbn. rewrite Hci. cbn. rewrite Hfj. cbn. rewrite Hcj. cbn.
    apply selected_weights_lookup in Hwi, Hwj. by rewrite Hwi, Hwj.
  - intros R. unfold pairwise_step. rewrite Hwi, Hwj. cbn.
    rewrite zip_same_Ok by done. cbn.
    rewrite Hfi. cbn. rewrite Hti. cbn. rewrite Hfj. cbn. rewrite Htj. done.
Qed.

Lemma filled_equiv I J I' J' M :
  (∀ lo hi, lo < hi < N →
     (lo < I ∨ (lo = I ∧ hi < J)) ↔ (lo < I' ∨ (lo = I' ∧ hi < J'))) →
  filled e I J M → filled e I' J' M.
Proof.
  intros Heq [Hshape Hentries]. split; [done|]. intros a b Ha Hb.
  rewrite (Hentries a b Ha Hb).
  destruct (decide (a = b)) as [->|Hne].
  { repeat case_decide; naive_solver. }
  specialize (Heq (a `min` b) (a `max` b)).
  repeat case_decide; try done; exfalso; naive_solver lia.
Qed.

Lemma inner_loop i M :
  i < N → filled e i (i + 1) M →
  ∃ M', foldM (λ R j, pairwise_step confs (selection e) (Some ws) i j R) M
              (range (i + 1) N) = Ok M' ∧ filled e i N M'.
Proof using Hwf Hconfs Hweights Hws.
  intros Hi HM.
  edestruct (foldM_invariant
    (λ R j, pairwise_step confs (selection e) (Some ws) i j R)
    (λ n M, filled e i (i + 1 + n) M) (range (i + 1) N) M)
    as (M' & HM' & Hfin).
  { by rewrite Nat.add_0_r. }
  { intros n j R Hj [Hshape Hentries]. unfold range in Hj.
    apply lookup_seq in Hj as [-> Hn].
    destruct (pairwise_step_ok i (i + 1 + n)) as (v & Hv & Hstep); [lia..|].
    exists (set2 (i + 1 + n) i v (set2 i (i + 1 + n) v R)).
    split; [apply Hstep|]. split; [by do 2 apply set2_shape|].
    intros a b Ha Hb.
    rewrite !(entry_set2 _ _ _ _ _ _ N)
      by first [done | lia | by apply set2_shape].
    rewrite (Hentries a b Ha Hb).
    repeat case_decide; try done;
      try (destruct_and?; subst;
           rewrite ?Nat.min_l, ?Nat.max_r, ?Nat.min_r, ?Nat.max_l by lia;
           by rewrite ?Hv);
      exfalso; naive_solver lia. }
  exists M'. split; [done|]. unfold range in Hfin. rewrite length_seq in Hfin.
  eapply filled_equiv; [|exact Hfin]. intros lo hi Hlo. lia.
Qed.

Lemma outer_loop :
  ∃ M, foldM (λ RMSDs i,
                foldM (λ RMSDs j,
                         pairwise_step confs (selection e) (Some ws) i j RMSDs)
                      RMSDs (range (i + 1) N))
             (replicate N (replicate N 0%float)) (range 0 N) = Ok M ∧
       filled e N (N + 1) M.
Proof using Hwf Hconfs Hweights Hws.
  edestruct (foldM_invariant
    (λ RMSDs i,
       foldM (λ RMSDs j, pairwise_step confs (selection e) (Some ws) i j RMSDs)
             RMSDs (range (i + 1) N))
    (λ n M, filled e n (n + 1) M) (range 0 N)
    (replicate N (replicate N 0%float))) as (M & HM & Hfin).
  { split; [apply zeros_shape|]. intros a b Ha Hb.
    rewrite entry_zeros by done. case_decide; [|done]. lia. }
  { intros n i R Hi HR. unfold range in Hi. apply lookup_seq in Hi as [-> Hn].
    cbn. destruct (inner_loop n R) as (M' & HM' & HM''); [lia|done|].
    exists M'. split; [done|].
    eapply filled_equiv; [|exact HM'']. intros lo hi Hlo. lia. }
  exists M. split; [done|]. unfold range in Hfin.
  by rewrite length_seq, Nat.sub_0_r in Hfin.
Qed.

End pairwise.

Lemma pair_weights_zero (wi wj : weightset) k x y :
  wi !! k = Some x → wj !! k = Some y →
  ((x =? 0)%float = true ∧ is_finite y = true)
  ∨ (is_finite x = true ∧ (y =? 0)%float = true) →
  ∃ z, pair_weights wi wj !! k = Some z ∧ (z =? 0)%float = true.
Proof.
  intros Hx Hy Hz. exists (x * y)%float. split.
  - unfold pair_weights. by rewrite lookup_zip_with, Hx, Hy.
  - destruct Hz as [[? ?]|[? ?]];
      [by apply mul_zero_finite | by apply mul_finite_zero].
Qed.

Lemma shape1_wf {A} n (a : list (list A)) :
  Forall (λ r, length r = n) a → shape1 n a = n.
Proof. by destruct 1. Qed.

(** C2.  On a well-formed ensemble with [N] conformations,
    [getRMSDs(pairwise=True)] returns an [N] by [N] matrix.  It is
    symmetric, its diagonal is zero, and for [i < j] the entries [(i, j)]
    and [(j, i)] both hold the deviation [getRMSD] gives for the selected
    atoms of frames [i] and [j] with the product of the two weight vectors
    as weights; in that product an atom of weight zero in one frame (and a
    finite weight in the other) has weight zero. *)
Theorem getRMSDs_pairwise_symmetric `{RigidAlignment} (e : PDBEnsemble)
    ref confs weights :
  well_formed e → _coords e = Some ref → _confs e = Some confs →
  _weights e = Some weights →
  ∃ M, getRMSDs true e = Ok (Some (RMSDMatrix M)) ∧
    length M = _n_csets e ∧ Forall (λ row, length row = _n_csets e) M ∧
    ∀ i j, i < _n_csets e → j < _n_csets e →
      entry M i j = entry M j i ∧
      entry M i i = Some 0%float ∧
      (i < j →
       ∃ ci cj wi wj,
         selected_frame e i = Some ci ∧ selected_frame e j = Some cj ∧
         selected_weights e i = Some wi ∧ selected_weights e j = Some wj ∧
         entry M i j = Some (getRMSD ci cj (Some (pair_weights wi wj))) ∧
         entry M j i = Some (getRMSD ci cj (Some (pair_weights wi wj))) ∧
         ∀ k x y, wi !! k = Some x → wj !! k = Some y →
           ((x =? 0)%float = true ∧ is_finite y = true)
           ∨ (is_finite x = true ∧ (y =? 0)%float = true) →
           ∃ z, pair_weights wi wj !! k = Some z ∧ (z =? 0)%float = true).
Proof.
  intros Hwf Href Hconfs Hweights.
  destruct (wf_confs e Hwf _ Hconfs) as [Hnc Hrows].
  destruct (wf_weights e Hwf _ Hweights) as [Hnw Hwrows].
  destruct (take_cols_total (selection e) weights (_n_atoms e))
    as [ws Hws]; [by apply selection_bound|done|].
  destruct (outer_loop e confs weights ws Hwf Hconfs Hweights Hws)
    as (M & HM & [[Hlen Hshape] Hentries]).
  exists M. split_and!; [|done..|].
  { unfold getRMSDs. rewrite Hconfs, Href, Hweights.
    assert ((match _indices e with
             | Some indices => indices
             | None => seq 0 (shape1 (_n_atoms e) confs)
             end) = selection e) as ->.
    { unfold selection. destruct (_indices e); [done|].
      by rewrite shape1_wf. }
    rewrite Hws. unfold numConfs. cbn -[foldM range pairwise_step].
    by rewrite HM. }
  intros i j Hi Hj. split_and!.
  - rewrite (Hentries i j), (Hentries j i) by done.
    rewrite (Nat.min_comm j i), (Nat.max_comm j i).
    repeat case_decide; try done; exfalso; lia.
  - rewrite (Hentries i i) by done. case_decide; [lia|done].
  - intros Hij.
    pose proof (Hentries i j Hi Hj) as Hv. pose proof (Hentries j i Hj Hi) as Hv'.
    rewrite Nat.min_l, Nat.max_r in Hv by lia.
    rewrite Nat.min_r, Nat.max_l in Hv' by lia.
    rewrite decide_True in Hv by lia. rewrite decide_True in Hv' by lia.
    destruct (pairwise_step_ok e confs weights ws Hwf Hconfs Hweights Hws
                i j Hi Hj) as (v & Hp & _).
    rewrite Hv, Hv'. unfold pair_rmsd in *.
    destruct (selected_frame e i) as [ci|] eqn:Hci; [|done]. cbn in *.
    destruct (selected_frame e j) as [cj|] eqn:Hcj; [|done]. cbn in *.
    destruct (selected_weights e i) as [wi|] eqn:Hwi; [|done]. cbn in *.
    destruct (selected_weights e j) as [wj|] eqn:Hwj; [|done]. cbn in *.
    exists ci, cj, wi, wj. split_and!; try done.
    intros k x y. apply pair_weights_zero.
Qed.

(** * Adding coordinate sets *)

(** ** Scattering into the reference *)

Lemma scatter_spec indices (src full : coordset) :
  NoDup indices → Forall (λ i, i < length full) indices →
  length src = length indices →
  ∃ out, scatter indices src full = Ok out ∧ length out = length full ∧
    (∀ k a, indices !! k = Some a → out !! a = src !! k) ∧
    (∀ a, a ∉ indices → out !! a = full !! a).
Proof.
  unfold scatter. revert src full.
  induction indices as [|i indices IH]; intros src full Hnd Hin Hlen.
  - exists full. split_and!; [done..| |done]. intros k a Hk. done.
  - destruct src as [|p src]; [done|]. cbn in Hlen.
    apply NoDup_cons in Hnd as [Hi Hnd]. apply Forall_cons in Hin as [Hlt Hin].
    cbn. rewrite decide_True by done. cbn.
    destruct (IH src (<[i:=p]> full)) as (out & Hout & Hl & Hsel & Hrest);
      [done|by rewrite length_insert|lia|].
    exists out. rewrite Hout. split_and!; [done|by rewrite Hl, length_insert|..].
    + intros [|k] a Hk; cbn in *.
      * injection Hk as <-. rewrite Hrest by done.
        by apply list_lookup_insert_eq.
      * by apply Hsel.
    + intros a Ha. apply not_elem_of_cons in Ha as [Hne Ha].
      rewrite Hrest by done. by apply list_lookup_insert_ne.
Qed.

Lemma scatter_total indices (src full : coordset) :
  Forall (λ i, i < length full) indices →
  ∃ out, scatter indices src full = Ok out ∧ length out = length full.
Proof.
  unfold scatter. revert src full.
  induction indices as [|i indices IH]; intros src full Hin; [by exists full|].
  destruct src as [|p src]; [by exists full|].
  apply Forall_cons in Hin as [Hlt Hin].
  cbn. rewrite decide_True by done. cbn.
  destruct (IH src (<[i:=p]> full)) as (out & Hout & Hl);
    [by rewrite length_insert|].
  exists out. by rewrite Hout, Hl, length_insert.
Qed.

#[export] Instance spec_utilities_spec : UtilitiesSpec (H:=spec_utilities).
Proof.
  split.
  - intros coords n. cbn. unfold spec_checkCoords. case_decide; [|done].
    by destruct coords.
  - intros w natoms ncsets ws. cbn. unfold spec_checkWeights.
    destruct w as [w|w]; case_decide; try done; case_match; try done;
      intros [= <-].
    + split; [apply length_replicate|by apply Forall_replicate].
    + done.
Qed.

(** ** The stages of [addCoordset] *)

Section addCoordset.
Context `{UtilitiesSpec}.

(** [addCoordset] is: check the coordinates; fix the atom count if none was
    fixed; compute; assign. *)
Lemma addCoordset_stages e coords weights label degeneracy sequence :
  addCoordset coords weights label degeneracy sequence e =
  match coords with
  | None => (e, Raise ValueError)
  | Some coords =>
    match check_coordinates e coords with
    | Raise x => (e, Raise x)
    | Ok _ =>
      let e1 := if decide (numAtoms e = 0)
                then set_n_atoms (array_nodes coords) e else e in
      match computed e e1 coords weights label degeneracy sequence with
      | Raise x => (e1, Raise x)
      | Ok (frames, weights, seqs, labels) =>
        commit (numAtoms e) (numCoordsets e)
               (if degeneracy then 1 else length (array_frames coords))
               frames weights seqs labels e1
      end
    end
  end.
Proof.
  unfold addCoordset, computed, commit, check_coordinates.
  unfold mbind, method_bind, mthen, mread, massign, mreturn, mraise.
  destruct coords as [coords|]; [|done]. cbn.
  destruct (match checkCoords coords (numAtoms e) with
            | Ok _ => Ok ()
            | Raise _ => checkCoords coords (numSelected e)
            end) as [[]|x]; [|done].
  destruct coords as [c|n_nodes frames]; cbn;
    destruct (decide (numAtoms e = 0)); cbn.
  all: repeat (first
    [ reflexivity
    | match goal with
      | |- match ?x with _ => _ end = _ => destruct x; cbn
      | |- (let (_, _) := ?x in _) = _ => destruct x; cbn
      end ]).

Qed.

Lemma take_seq_lookups {A} (l : list A) n :
  n ≤ length l →
  mapM_r (λ i, need IndexError (l !! i)) (seq 0 n) = Ok (take n l).
Proof.
  intros Hn. apply mapM_r_Ok. apply Forall2_same_length_lookup.
  split; [by rewrite length_seq, length_take_le|].
  intros i j x Hj Hx. apply lookup_seq in Hj as [-> Hi].
  rewrite lookup_take_lt in Hx by done. cbn. by rewrite Hx.
Qed.

Lemma concatenate_ok {A} (a b : list (list A)) m :
  Forall (λ r, length r = m) a → Forall (λ r, length r = m) b →
  concatenate a b = Ok (a ++ b).
Proof.
  intros Ha Hb. unfold concatenate.
  destruct Ha as [|r1 a Hr1 _]; [done|]. destruct Hb as [|r2 b Hr2 _]; [done|].
  rewrite decide_True by congruence. done.
Qed.

(** With as many labels as coordinate sets, arrays that are both set or both
    unset, and rows of one length, every assignment goes through. *)
Lemma commit_ok n_atoms n_confs n_repeats frames weights seqs labels e m m' :
  n_confs ≤ length (_labels e) →
  (_confs e = None ↔ _weights e = None) →
  Forall (λ c, length c = m) (default [] (_confs e)) →
  Forall (λ c, length c = m) frames →
  Forall (λ w, length w = m') (default [] (_weights e)) →
  Forall (λ w, length w = m') weights →
  commit n_atoms n_confs n_repeats frames weights seqs labels e
  = (committed n_atoms n_confs n_repeats frames weights seqs labels e, Ok ()).
Proof.
  intros Hlab Hboth Hc Hf Hw Hws. unfold commit, committed, committed_msa.
  unfold mbind, method_bind, mthen, mread, massign, mreturn, mraise.
  destruct e as [title coords na nc ws cs atoms idx labs trans msa].
  cbn in *.
  assert (mapM_r (λ i, need IndexError ((labs ++ labels) !! i)) (seq 0 n_confs)
          = Ok (take n_confs (labs ++ labels))) as Hold.
  { apply take_seq_lookups. rewrite length_app. lia. }
  destruct cs as [oldc|], ws as [oldw|]; cbn in *;
    try (by destruct Hboth as [Hb1 Hb2];
         first [specialize (Hb1 eq_refl) | specialize (Hb2 eq_refl)]).
  - pose proof (concatenate_ok oldc frames m Hc Hf) as Hcc.
    pose proof (concatenate_ok oldw weights m' Hw Hws) as Hcw.
    destruct seqs as [[|s seqs]|], msa as [old|]; cbn;
      try destruct (decide (0 < n_confs)); cbn;
      rewrite ?Hold; cbn; rewrite ?Hcc; cbn; rewrite ?Hcw; done.
  - destruct seqs as [[|s seqs]|], msa as [old|]; cbn;
      try destruct (decide (0 < n_confs)); cbn;
      rewrite ?Hold; done.
Qed.

Lemma check_coordinates_fits e coords :
  check_coordinates e coords = Ok () →
  _n_atoms e = 0 ∨ numSelected e = 0 ∨
  array_nodes coords = _n_atoms e ∨ array_nodes coords = numSelected e.
Proof.
  unfold check_coordinates, numAtoms.
  destruct (checkCoords coords (_n_atoms e)) as [[]|x] eqn:Hc.
  - intros _. apply checkCoords_fits in Hc. tauto.
  - intros Hc'. apply checkCoords_fits in Hc'. tauto.
Qed.

Lemma isSelected_true e : isSelected e = true ↔ is_Some (_indices e).
Proof. unfold isSelected. apply bool_decide_eq_true. Qed.

Lemma kept_frames_wf coords degeneracy :
  array_wf coords →
  Forall (λ c, length c = array_nodes coords) (kept_frames coords degeneracy).
Proof.
  unfold array_wf. destruct coords as [c|n frames]; cbn; [done|].
  destruct degeneracy; [|done]. apply Forall_take.
Qed.

(** What is computed has the shape of what is stored: every frame and every
    weight row has [n_atoms] entries. *)
Lemma computed_shapes e coords weights label degeneracy sequence
    frames ws seqs labels :
  well_formed e → array_wf coords → _n_atoms e ≠ 0 →
  array_nodes coords = _n_atoms e ∨ array_nodes coords = numSelected e →
  computed e e coords weights label degeneracy sequence
    = Ok (frames, ws, seqs, labels) →
  Forall (λ c, length c = _n_atoms e) frames ∧
  Forall (λ w, length w = _n_atoms e) ws.
Proof.
  intros Hwf Hcoords Hn Hfits. unfold computed.
  intros (frames' & Hframes & Hrest)%bind_Ok.
  apply bind_Ok in Hrest as (ws' & Hws & Hrest).
  apply bind_Ok in Hrest as (? & _ & Hrest).
  apply bind_Ok in Hrest as (labels' & _ & Hrest).
  injection Hrest as <- <- <- <-. split.
  - pose proof (kept_frames_wf coords degeneracy Hcoords) as Hkept.
    destruct (bool_decide (array_nodes coords = numSelected e) && isSelected e)
      eqn:Hsel.
    + apply bind_Ok in Hframes as (ref & Href & Hframes).
      apply bind_Ok in Hframes as (indices & Hidx & Hframes).
      destruct (_coords e) as [ref'|] eqn:Href'; [|done].
      destruct (_indices e) as [idx'|] eqn:Hidx'; [|done].
      cbn in *. simplify_eq.
      apply mapM_r_Ok in Hframes.
      apply Forall_forall. intros c Hc.
      apply list_elem_of_lookup in Hc as [i Hi].
      destruct (Forall2_lookup_r _ _ _ _ _ Hframes Hi) as (src & _ & Hsc).
      destruct (scatter_total indices src ref) as (out & Hout & Hlen).
      { rewrite (wf_coords e Hwf _ Href'). by apply (wf_indices e Hwf). }
      rewrite Hout in Hsc. injection Hsc as <-.
      by rewrite Hlen, (wf_coords e Hwf _ Href').
    + injection Hframes as <-.
      apply andb_false_iff in Hsel as [Hne|Hns].
      * apply bool_decide_eq_false in Hne.
        destruct Hfits as [<-|?]; done.
      * destruct Hfits as [<-|Hfit]; [done|].
        unfold numSelected in Hfit. unfold isSelected in Hns.
        apply bool_decide_eq_false in Hns.
        destruct (_indices e); [by destruct Hns|]. by rewrite <- Hfit.
  - assert (Forall (λ w : weightset, length w = _n_atoms e) ws') as Hshape.
    { destruct weights as [w|].
      - by apply checkWeights_shape in Hws as [_ ?].
      - injection Hws as <-. apply Forall_replicate, length_replicate. }
    destruct degeneracy; [by apply Forall_take|done].
Qed.

(** A call on an ensemble whose atom count is fixed either raises and
    leaves the ensemble as it was, or assigns everything. *)
Lemma addCoordset_outcome e coords weights label degeneracy sequence :
  well_formed e → array_wf coords → _n_atoms e ≠ 0 → numSelected e ≠ 0 →
  (∃ x, addCoordset (Some coords) weights label degeneracy sequence e
        = (e, Raise x)) ∨
  (∃ frames ws seqs labels,
     computed e e coords weights label degeneracy sequence
       = Ok (frames, ws, seqs, labels) ∧
     addCoordset (Some coords) weights label degeneracy sequence e
       = (committed (_n_atoms e) (_n_csets e)
            (if degeneracy then 1 else length (array_frames coords))
            frames ws seqs labels e, Ok ())).
Proof.
  intros Hwf Hcoords Hn Hs. rewrite addCoordset_stages.
  destruct (check_coordinates e coords) as [[]|x] eqn:Hcheck; [|by left; eexists].
  unfold numAtoms. rewrite decide_False by done. cbn.
  destruct (computed e e coords weights label degeneracy sequence)
    as [[[[frames ws] seqs] labels]|x] eqn:Hcomp; [|by left; eexists].
  right. exists frames, ws, seqs, labels. split; [done|].
  destruct (check_coordinates_fits _ _ Hcheck) as [?|[?|Hfits]]; [done..|].
  destruct (computed_shapes _ _ _ _ _ _ _ _ _ _ Hwf Hcoords Hn Hfits Hcomp)
    as [Hf Hw].
  unfold numCoordsets.
  apply (commit_ok _ _ _ _ _ _ _ _ (_n_atoms e) (_n_atoms e)); try done.
  - by rewrite (wf_labels e Hwf).
  - apply (wf_both e Hwf).
  - destruct (_confs e) as [cs|] eqn:Hcs; [|constructor].
    by apply (wf_confs e Hwf).
  - destruct (_weights e) as [w|] eqn:Hws; [|constructor].
    by apply (wf_weights e Hwf).
Qed.

End addCoordset.

Section addCoordset_facts.
Context `{UtilitiesSpec}.

Lemma resolve_labels_single label degeneracy :
  ∃ labels, resolve_labels (label_or_unknown label) 1 degeneracy = Ok labels.
Proof.
  unfold resolve_labels. rewrite bool_decide_false by lia. cbn.
  destruct label as [|[|a s]|[|s l]]; cbn; by eexists.
Qed.

Lemma sequences_single e n_atoms :
  match resolve_sequences e SeqNone n_atoms 1 with
  | Some ((_ :: _) as seqs) =>
    if decide (length seqs ≠ 1) then Raise ValueError else Ok ()
  | _ => Ok ()
  end = Ok ().
Proof.
  unfold resolve_sequences.
  destruct (_atoms e ≫= atomic_sequence); [done|].
  by destruct (msa_true (_msa e)).
Qed.

Lemma set_n_atoms_same e : set_n_atoms (_n_atoms e) e = e.
Proof. by destruct e. Qed.

(** C3.  With an active selection, a frame of as many atoms as are selected
    is stored as a full frame: the supplied points at the selected indices,
    the reference everywhere else. *)
Theorem addCoordset_scatters_selection (e : PDBEnsemble) ref indices
    (c : coordset) label :
  well_formed e → _coords e = Some ref → _indices e = Some indices →
  NoDup indices → length c = length indices →
  checkCoords (A2 c) (numSelected e) = Ok () →
  ∃ e' stored,
    addCoordset (Some (A2 c)) None label false SeqNone e = (e', Ok ()) ∧
    _confs e' = Some (default [] (_confs e) ++ [stored]) ∧
    length stored = _n_atoms e ∧
    (∀ k a, indices !! k = Some a → stored !! a = c !! k) ∧
    (∀ a, a ∉ indices → stored !! a = ref !! a).
Proof.
  intros Hwf Href Hidx Hnd Hlen Hcheck. rewrite addCoordset_stages.
  pose proof (wf_coords e Hwf _ Href) as Hnref.
  pose proof (wf_indices e Hwf _ Hidx) as Hbound.
  assert (check_coordinates e (A2 c) = Ok ()) as ->.
  { unfold check_coordinates. rewrite Hcheck.
    by destruct (checkCoords (A2 c) (numAtoms e)) as [[]|]. }
  assert ((if decide (numAtoms e = 0)
           then set_n_atoms (array_nodes (A2 c)) e else e) = e) as ->.
  { case_decide as Hz; [|done]. unfold numAtoms in Hz. cbn.
    destruct indices as [|i indices].
    - rewrite Hlen. cbn. rewrite <- Hz. apply set_n_atoms_same.
    - apply Forall_cons in Hbound as [Hi _]. lia. }
  destruct (scatter_spec indices c ref Hnd) as (stored & Hsc & Hl & Hsel & Hrest);
    [by rewrite Hnref|done|].
  destruct (resolve_labels_single label false) as [labels Hlabels].
  unfold computed. cbn [array_nodes array_frames kept_frames length].
  assert (numSelected e = length indices) as Hns.
  { unfold numSelected. by rewrite Hidx. }
  rewrite bool_decide_true by congruence.
  assert (isSelected e = true) as ->.
  { apply isSelected_true. by rewrite Hidx. }
  cbn [andb]. rewrite Href, Hidx. cbn [need mbind result_bind].
  rewrite decide_True by done. cbn [mapM_r]. rewrite Hsc.
  cbn [mbind result_bind]. rewrite sequences_single. cbn [mbind result_bind].
  rewrite Hlabels. cbn [mbind result_bind].
  rewrite (commit_ok _ _ _ _ _ _ _ _ (_n_atoms e) (_n_atoms e)).
  - eexists _, stored. split_and!; [done|done|congruence|done..].
  - unfold numCoordsets. by rewrite (wf_labels e Hwf).
  - apply (wf_both e Hwf).
  - destruct (_confs e) as [cs|] eqn:Hcs; [|constructor].
    by apply (wf_confs e Hwf).
  - repeat constructor. congruence.
  - destruct (_weights e) as [w|] eqn:Hws; [|constructor].
    by apply (wf_weights e Hwf).
  - repeat constructor. apply length_replicate.
Qed.

(** ** What a successful call stores *)

Lemma computed_inv e coords weights label degeneracy sequence
    frames ws seqs labels :
  computed e e coords weights label degeneracy sequence
    = Ok (frames, ws, seqs, labels) →
  (bool_decide (array_nodes coords = numSelected e) && isSelected e = false →
   frames = kept_frames coords degeneracy) ∧
  (∃ W, ws = (if degeneracy then take 1 W else W) ∧
        match weights with
        | None => W = replicate (length (array_frames coords))
                                (replicate (_n_atoms e) 1%float)
        | Some w =>
          checkWeights w (_n_atoms e) (length (array_frames coords)) = Ok W
        end) ∧
  resolve_labels (label_or_unknown label) (length (array_frames coords))
                 degeneracy = Ok labels.
Proof.
  unfold computed.
  intros (frames' & Hframes & Hrest)%bind_Ok.
  apply bind_Ok in Hrest as (ws' & Hws & Hrest).
  apply bind_Ok in Hrest as (? & _ & Hrest).
  apply bind_Ok in Hrest as (labels' & Hlabels & Hrest).
  injection Hrest as <- <- <- <-. split_and!; [|exists ws'; split; [done|]|done].
  - intros Hsel. rewrite Hsel in Hframes. by injection Hframes.
  - destruct weights; [done|]. by injection Hws.
Qed.

Lemma resolve_labels_scalar s n degeneracy :
  0 < n → degeneracy = false →
  ∃ labels, resolve_labels (label_or_unknown (LStr s)) n degeneracy = Ok labels
            ∧ length labels = n.
Proof.
  intros Hn ->. unfold resolve_labels. rewrite andb_true_r.
  assert (∃ s', label_or_unknown (LStr s) = LStr s') as [s' ->].
  { destruct s; by eexists. }
  case_bool_decide.
  - eexists. split; [done|]. by rewrite length_map, length_seq.
  - eexists. split; [done|]. cbn. lia.
Qed.

Lemma unknown_label : label_or_unknown LNone = label_or_unknown (LStr "").
Proof. done. Qed.

Lemma resolve_labels_list l n :
  length l = n → 0 < n →
  resolve_labels (label_or_unknown (LList l)) n false = Ok l.
Proof.
  intros Hl Hn. destruct l as [|s l]; [cbn in Hl; lia|].
  unfold resolve_labels. cbn [label_or_unknown]. rewrite andb_true_r.
  case_bool_decide; [|done]. by rewrite decide_False by (intros ?; done).
Qed.

(** Without [degeneracy], a successful call with a stack of at least one
    frame and as many labels as frames (or a single string, or none) stores
    what it computed and keeps the ensemble well formed. *)
Lemma addCoordset_grows e coords weights label sequence e' :
  well_formed e → array_wf coords → _n_atoms e ≠ 0 → numSelected e ≠ 0 →
  array_frames coords ≠ [] →
  (label = LNone ∨ (∃ s, label = LStr s)
   ∨ ∃ l, label = LList l ∧ length l = length (array_frames coords)) →
  addCoordset (Some coords) weights label false sequence e = (e', Ok ()) →
  ∃ frames ws seqs labels,
    computed e e coords weights label false sequence
      = Ok (frames, ws, seqs, labels) ∧
    e' = committed (_n_atoms e) (_n_csets e) (length (array_frames coords))
           frames ws seqs labels e ∧
    well_formed e' ∧
    length labels = length (array_frames coords) ∧
    _n_csets e' = _n_csets e + length (array_frames coords).
Proof.
  intros Hwf Hcoords Hn Hs Hne Hlabel Hrun.
  destruct (addCoordset_outcome e coords weights label false sequence
              Hwf Hcoords Hn Hs) as [[x Hx]|(frames & ws & seqs & labels & Hc & Hr)];
    [congruence|].
  rewrite Hr in Hrun. injection Hrun as <-.
  exists frames, ws, seqs, labels. split; [done|]. split; [done|].
  assert (array_nodes coords = _n_atoms e ∨ array_nodes coords = numSelected e)
    as Hfits.
  { pose proof (addCoordset_stages e (Some coords) weights label false sequence)
      as Hst. rewrite Hr in Hst.
    destruct (check_coordinates e coords) as [[]|] eqn:Hcheck; [|done].
    destruct (check_coordinates_fits _ _ Hcheck) as [?|[?|?]]; done. }
  destruct (computed_shapes _ _ _ _ _ _ _ _ _ _ Hwf Hcoords Hn Hfits Hc)
    as [Hfr Hwr].
  assert (0 < length (array_frames coords)) as Hpos.
  { destruct (array_frames coords); [done|cbn; lia]. }
  assert (length labels = length (array_frames coords)) as Hll.
  { pose proof Hc as Hc'. apply computed_inv in Hc' as (_ & _ & Hl).
    destruct Hlabel as [Hlabel|[Hlabel|(l & -> & Hlen)]].
    - subst label. rewrite unknown_label in Hl.
      destruct (resolve_labels_scalar "" _ false Hpos eq_refl)
        as (l & Hl' & Hlen).
      rewrite Hl' in Hl. by injection Hl as <-.
    - destruct Hlabel as [s ->].
      destruct (resolve_labels_scalar s _ false Hpos eq_refl)
        as (l & Hl' & Hlen).
      rewrite Hl' in Hl. by injection Hl as <-.
    - rewrite resolve_labels_list in Hl by done. by injection Hl as <-. }
  assert (length ws = length (array_frames coords)) as Hlw.
  { pose proof Hc as Hc'. apply computed_inv in Hc' as (_ & (W & -> & HW) & _).
    destruct weights as [w|].
    - by apply checkWeights_shape in HW as [? _].
    - subst W. apply length_replicate. }
  assert (length frames = length (array_frames coords)) as Hlf.
  { unfold computed in Hc.
    apply bind_Ok in Hc as (frames' & Hframes & Hrest).
    apply bind_Ok in Hrest as (? & _ & Hrest).
    apply bind_Ok in Hrest as (? & _ & Hrest).
    apply bind_Ok in Hrest as (? & _ & Hrest). injection Hrest as -> _ _ _.
    assert (kept_frames coords false = array_frames coords) as Hk
      by by destruct coords.
    rewrite Hk in Hframes. rewrite decide_True in Hframes by done.
    destruct (_ && _).
    - apply bind_Ok in Hframes as (? & _ & Hframes).
      apply bind_Ok in Hframes as (? & _ & Hframes).
      apply mapM_r_Ok, Forall2_length in Hframes. done.
    - by injection Hframes as <-. }
  pose proof (wf_both e Hwf) as Hboth. pose proof (wf_empty e Hwf) as Hemp.
  pose proof (wf_labels e Hwf) as Hlab.
  assert (length (default [] (_confs e)) = _n_csets e) as Hoc.
  { destruct (_confs e) eqn:Hcs; [by apply (wf_confs e Hwf)|symmetry; auto]. }
  assert (length (default [] (_weights e)) = _n_csets e) as How.
  { destruct (_weights e) eqn:Hws; [by apply (wf_weights e Hwf)|].
    symmetry. apply Hemp. by apply Hboth. }
  assert (match _confs e with
          | Some _ => _n_csets e + length (array_frames coords)
          | None => length (array_frames coords)
          end = _n_csets e + length (array_frames coords)) as Hcount.
  { destruct (_confs e); [done|]. by rewrite Hemp. }
  split_and!; [|done..]. split; cbn.
  - apply (wf_coords e Hwf).
  - intros ? [= <-]. rewrite length_app, Hoc, Hlf, Hcount. split; [done|].
    apply Forall_app. split; [|done].
    destruct (_confs e) eqn:Hcs; [by apply (wf_confs e Hwf)|constructor].
  - intros ? [= <-]. rewrite length_app, How, Hlw, Hcount. split; [done|].
    apply Forall_app. split; [|done].
    destruct (_weights e) eqn:Hws; [by apply (wf_weights e Hwf)|constructor].
  - apply (wf_indices e Hwf).
  - rewrite length_app, Hlab, Hll. by rewrite Hcount.
  - done.
  - done.
Qed.

(** X3. Once the atom count is fixed, a call without weights stores weight one
    for every atom of every appended coordinate set. *)
Lemma addCoordset_default_weights e coords label degeneracy sequence e' :
  well_formed e → array_wf coords → _n_atoms e ≠ 0 → numSelected e ≠ 0 →
  addCoordset (Some coords) None label degeneracy sequence e = (e', Ok ()) →
  _weights e' =
  Some (default [] (_weights e)
        ++ replicate (if degeneracy
                      then length (array_frames coords) `min` 1
                      else length (array_frames coords))
                     (replicate (_n_atoms e) 1%float)).
Proof.
  intros Hwf Hcoords Hn Hs Hrun.
  destruct (addCoordset_outcome e coords None label degeneracy sequence
              Hwf Hcoords Hn Hs) as [[x Hx]|(frames & ws & seqs & labels & Hc & Hr)];
    [congruence|].
  rewrite Hr in Hrun. injection Hrun as <-. cbn.
  apply computed_inv in Hc as (_ & (W & -> & ->) & _).
  destruct degeneracy; [|done]. by rewrite take_replicate, Nat.min_comm.
Qed.

(** X4. With [degeneracy], a stack of full frames adds its first frame, one
    weight row and one to the count. *)
Lemma addCoordset_degenerate_first e n frame frames weights label sequence e' :
  well_formed e → array_wf (A3 n (frame :: frames)) →
  _n_atoms e ≠ 0 → numSelected e ≠ 0 →
  (isSelected e = false ∨ n ≠ numSelected e) →
  addCoordset (Some (A3 n (frame :: frames))) weights label true sequence e
    = (e', Ok ()) →
  _confs e' = Some (default [] (_confs e) ++ [frame]) ∧
  (∃ w, _weights e' = Some (default [] (_weights e) ++ [w])) ∧
  _n_csets e' = _n_csets e + 1.
Proof.
  intros Hwf Hcoords Hn Hs Hsel Hrun.
  destruct (addCoordset_outcome e _ weights label true sequence
              Hwf Hcoords Hn Hs) as [[x Hx]|(fr & ws & seqs & labels & Hc & Hr)];
    [congruence|].
  rewrite Hr in Hrun. injection Hrun as <-. cbn.
  apply computed_inv in Hc as (Hfr & (W & -> & HW) & _).
  rewrite Hfr.
  2:{ cbn. destruct Hsel as [->|Hne]; [apply andb_false_r|].
      by rewrite bool_decide_false. }
  assert (length W = S (length frames)) as HlW.
  { destruct weights as [w|]; cbn in HW.
    - by apply checkWeights_shape in HW as [? _].
    - subst W. cbn. by rewrite length_replicate. }
  destruct W as [|w W]; [done|]. split_and!; [done|by exists w|].
  destruct (_confs e) eqn:Hcs; [done|]. by rewrite (wf_empty e Hwf).
Qed.

End addCoordset_facts.

(** ** Calls that pass no weights *)

Section plain_calls.
Context {U : Utilities}.
Hypothesis checkCoords_counts : ∀ coords n,
  checkCoords coords n = Ok () → n = 0 ∨ array_nodes coords = n.

(** The validator of the weights is not called when no weights are given. *)
Lemma addCoordset_no_weights coords label degeneracy sequence e :
  addCoordset (H:=U) coords None label degeneracy sequence e
  = addCoordset (H:=with_spec_weights U) coords None label degeneracy
                sequence e.
Proof. reflexivity. Qed.

#[local] Instance plain_spec : UtilitiesSpec (H:=with_spec_weights U).
Proof.
  split; [exact checkCoords_counts|].
  apply (checkWeights_shape (H:=spec_utilities)).
Qed.

(** X1. When [checkCoords] accepts only stacks of the atom count it is given
    (any, when given none), on a well-formed ensemble with a fixed atom count
    whose selection, if any, is not empty, a successful call without weights
    and without [degeneracy], with a stack of at least one frame, labelled by
    a string, by as many labels as it has frames, or not at all, keeps the
    ensemble well formed: its conformations, weight rows and labels grow
    together, by the number of frames. *)
Lemma addCoordset_keeps_well_formed e coords label sequence e' :
  well_formed e → array_wf coords → _n_atoms e ≠ 0 → numSelected e ≠ 0 →
  array_frames coords ≠ [] →
  (label = LNone ∨ (∃ s, label = LStr s)
   ∨ ∃ l, label = LList l ∧ length l = length (array_frames coords)) →
  addCoordset (Some coords) None label false sequence e = (e', Ok ()) →
  well_formed e' ∧
  _n_csets e' = _n_csets e + length (array_frames coords) ∧
  _n_atoms e' = _n_atoms e.
Proof.
  intros Hwf Hcoords Hn Hs Hne Hlabel Hrun.
  rewrite addCoordset_no_weights in Hrun.
  destruct (addCoordset_grows (H:=with_spec_weights U) e coords None label
              sequence e')
    as (frames & ws & seqs & labels & _ & -> & Hwf' & _ & Hcount); [done..|].
  by split_and!.
Qed.

(** X2. When [checkCoords] accepts only stacks of the atom count it is given
    (any, when given none), on a well-formed ensemble with a fixed atom count
    whose selection, if any, is not empty, a call without weights that records
    no sequence (none is passed, the atoms give none and no alignment is kept)
    and raises leaves the ensemble as it was: on this path every check comes
    before the first assignment. *)
Lemma addCoordset_atomic e coords label degeneracy e' x :
  well_formed e → from_option array_wf True coords →
  _n_atoms e ≠ 0 → numSelected e ≠ 0 →
  _atoms e ≫= atomic_sequence = None → msa_true (_msa e) = false →
  addCoordset coords None label degeneracy SeqNone e = (e', Raise x) →
  e' = e.
Proof.
  intros Hwf Hcoords Hn Hs _ _ Hrun. rewrite addCoordset_no_weights in Hrun.
  destruct coords as [coords|].
  - destruct (addCoordset_outcome (H:=with_spec_weights U) e coords None label
                degeneracy SeqNone Hwf Hcoords Hn Hs)
      as [[y Hy]|(? & ? & ? & ? & _ & Hr)]; congruence.
  - rewrite addCoordset_stages in Hrun. congruence.
Qed.

End plain_calls.

(** * Retrieval *)

(** A loop that rewrites row [i] in turn [i] relates every row it has
    visited to the row it found there, and leaves the others alone. *)
Lemma foldM_rows {A W} (step : list A → nat * W → result (list A))
    (R : W → A → A → Prop) ws acc :
  length ws ≤ length acc →
  (∀ b i w a, ws !! i = Some w → acc !! i = Some a → b !! i = Some a →
     ∃ a', step b (i, w) = Ok (<[i := a']> b) ∧ R w a a') →
  ∃ out, foldM step acc (enumerate ws) = Ok out ∧ length out = length acc ∧
    ∀ i, (∀ w a, ws !! i = Some w → acc !! i = Some a →
            ∃ a', out !! i = Some a' ∧ R w a a') ∧
         (length ws ≤ i → out !! i = acc !! i).
Proof.
  intros Hlen Hstep.
  destruct (foldM_invariant step
    (λ n b, length b = length acc ∧
       ∀ i, (i < n → ∀ w a, ws !! i = Some w → acc !! i = Some a →
               ∃ a', b !! i = Some a' ∧ R w a a') ∧
            (n ≤ i → b !! i = acc !! i))
    (enumerate ws) acc) as (out & Hout & Hl & Hinv).
  - split; [done|]. intros i. split; [lia|done].
  - intros n [i w] b Hn [Hb Hinv]. unfold enumerate in Hn.
    apply list_lookup_imap_Some in Hn as (w' & Hw & [= -> ->]).
    assert (is_Some (acc !! n)) as [a Ha].
    { apply lookup_lt_is_Some. apply lookup_lt_Some in Hw. lia. }
    assert (b !! n = Some a) as Hba.
    { destruct (Hinv n) as [_ Hs]. by rewrite Hs by lia. }
    destruct (Hstep b n w' a Hw Ha Hba) as (a' & Ha' & HR).
    exists (<[n := a']> b). split; [done|]. split; [by rewrite length_insert|].
    intros i. split.
    + intros Hi w a0 Hw0 Ha0. destruct (decide (i = n)) as [->|Hne].
      * exists a'.
        rewrite list_lookup_insert_eq by (by apply lookup_lt_Some in Hba).
        split; [done|]. by simplify_eq.
      * rewrite list_lookup_insert_ne by done.
        destruct (Hinv i) as [Hlt _]. apply Hlt; [lia|done..].
    + intros Hi. rewrite list_lookup_insert_ne by lia.
      destruct (Hinv i) as [_ Hsame]. apply Hsame. lia.
  - exists out. split_and!; [done..|]. intros i.
    unfold enumerate in Hinv. rewrite length_imap in Hinv.
    destruct (Hinv i) as [Hlt Hge]. split; [|done].
    intros w a Hw Ha. apply Hlt; [|done..]. by apply lookup_lt_Some in Hw.
Qed.

(** What [conf[which] = coords[which]] leaves in [conf]. *)
Lemma replace_unresolved_spec ref w conf :
  length w = length ref → length conf = length ref →
  ∃ conf', replace_unresolved ref w conf = Ok conf' ∧
    length conf' = length ref ∧
    ∀ k x r c, w !! k = Some x → ref !! k = Some r → conf !! k = Some c →
      conf' !! k = Some (if PrimFloat.eqb x 0 then r else c).
Proof.
  intros Hw Hc. unfold replace_unresolved.
  rewrite decide_True by (rewrite length_map; lia).
  eexists. split; [done|]. split.
  - rewrite length_zip_with, length_map, length_zip. lia.
  - intros k x r c Hx Hr Hcc. rewrite lookup_zip_with.
    rewrite list_lookup_fmap, Hx. cbn.
    rewrite lookup_zip_with, Hr. cbn. by rewrite Hcc.
Qed.

Lemma shown_is_Some ref w conf a :
  a < length ref → length w = length ref → length conf = length ref →
  is_Some (shown ref w conf a).
Proof.
  intros Ha Hw Hc. unfold shown.
  destruct (lookup_lt_is_Some_2 w a) as [x ->]; [lia|].
  destruct (lookup_lt_is_Some_2 ref a) as [r ->]; [lia|].
  destruct (lookup_lt_is_Some_2 conf a) as [c ->]; [lia|]. by eexists.
Qed.

Lemma picks_lookup_Some {A} sel (l out : list A) k a :
  picks sel l out → sel !! k = Some a → out !! k = l !! a.
Proof.
  intros Hp Hk. destruct (Forall2_lookup_l _ _ _ _ _ Hp Hk) as (x & Hx & Hl).
  by rewrite Hx, Hl.
Qed.

(** The loop over all atoms. *)
Lemma substitute_all e ref confs ws :
  _coords e = Some ref → length ws = length confs →
  Forall (λ w, length w = length ref) ws →
  Forall (λ c, length c = length ref) confs →
  ∃ out,
    foldM (λ confs '(i, w),
             coords ← need TypeError (_coords e);
             conf ← need IndexError (confs !! i);
             conf ← replace_unresolved coords w conf;
             Ok (<[i := conf]> confs))
          confs (enumerate ws) = Ok out ∧
    length out = length confs ∧
    ∀ f conf w, confs !! f = Some conf → ws !! f = Some w →
      ∃ c', out !! f = Some c' ∧ length c' = length ref ∧
            ∀ a, c' !! a = shown ref w conf a.
Proof.
  intros Href Hlen Hws Hconfs.
  edestruct (foldM_rows
    (λ confs '(i, w),
       coords ← need TypeError (_coords e);
       conf ← need IndexError (confs !! i);
       conf ← replace_unresolved coords w conf;
       Ok (<[i := conf]> confs))
    (λ w conf c', length c' = length ref ∧
                   ∀ a, c' !! a = shown ref w conf a) ws confs)
    as (out & Hout & Hl & Hrows); [lia| |].
  - intros b i w a Hw Ha Hba. rewrite Href. cbn. rewrite Hba. cbn.
    pose proof (Forall_lookup_1 _ _ _ _ Hws Hw) as Hlw.
    pose proof (Forall_lookup_1 _ _ _ _ Hconfs Ha) as Hla. cbn in Hlw, Hla.
    destruct (replace_unresolved_spec ref w a Hlw Hla) as (c' & -> & Hlc & Hc').
    exists c'. split; [done|]. split; [done|].
    intros k. unfold shown.
    destruct (w !! k) as [x|] eqn:Hx; cbn.
    + destruct (lookup_lt_is_Some_2 ref k) as [r Hr].
      { apply lookup_lt_Some in Hx. lia. }
      destruct (lookup_lt_is_Some_2 a k) as [c Hc].
      { apply lookup_lt_Some in Hr. lia. }
      rewrite Hr, Hc. cbn. eauto.
    + apply lookup_ge_None. apply lookup_ge_None in Hx. lia.
  - exists out. split_and!; [done..|]. intros f conf w Hc Hw.
    destruct (Hrows f) as [Hf _]. destruct (Hf w conf Hw Hc) as (c' & ? & ? & ?).
    by exists c'.
Qed.

(** The loop over the selected atoms. *)
Lemma substitute_selected selids ref ref' (confs confs' : list coordset) ws :
  picks selids ref ref' → Forall2 (picks selids) confs confs' →
  length ws = length confs →
  Forall (λ w, length w = length ref) ws →
  ∃ out,
    foldM (λ confs '(i, w),
             w ← np.take selids w;
             conf ← need IndexError (confs !! i);
             conf ← replace_unresolved ref' w conf;
             Ok (<[i := conf]> confs))
          confs' (enumerate ws) = Ok out ∧
    length out = length confs ∧
    ∀ f conf w, confs !! f = Some conf → ws !! f = Some w →
      ∃ c', out !! f = Some c' ∧ length c' = length selids ∧
            ∀ k a, selids !! k = Some a → c' !! k = shown ref w conf a.
Proof.
  intros Href Hconfs Hlen Hws.
  pose proof (Forall2_length _ _ _ Hconfs) as Hlc.
  pose proof (picks_length _ _ _ Href) as Hlr.
  assert (Forall (λ i, i < length ref) selids) as Hsel.
  { apply Forall_forall. intros i Hi. apply list_elem_of_lookup in Hi as [k Hk].
    destruct (Forall2_lookup_l _ _ _ _ _ Href Hk) as (x & _ & Hx).
    by apply lookup_lt_Some in Hx. }
  edestruct (foldM_rows
    (λ confs '(i, w),
       w ← np.take selids w;
       conf ← need IndexError (confs !! i);
       conf ← replace_unresolved ref' w conf;
       Ok (<[i := conf]> confs))
    (λ w conf' c', length c' = length selids ∧
       ∀ k a x r c, selids !! k = Some a → w !! a = Some x →
         ref !! a = Some r → conf' !! k = Some c →
         c' !! k = Some (if PrimFloat.eqb x 0 then r else c)) ws confs')
    as (out & Hout & Hl & Hrows); [lia| |].
  - intros b i w a' Hw Ha Hba.
    pose proof (Forall_lookup_1 _ _ _ _ Hws Hw) as Hlw. cbn in Hlw.
    destruct (take_total selids w) as [w' Hw']; [by rewrite Hlw|].
    rewrite Hw'. cbn. rewrite Hba. cbn. apply take_Ok in Hw'.
    destruct (Forall2_lookup_r _ _ _ _ _ Hconfs Ha) as (conf & Hconf & Hpick).
    destruct (replace_unresolved_spec ref' w' a') as (c' & -> & Hlc' & Hc').
    { rewrite (picks_length _ _ _ Hw'). lia. }
    { rewrite (picks_length _ _ _ Hpick). lia. }
    exists c'. split; [done|]. split; [lia|].
    intros k s x r c Hk Hx Hr Hc. apply Hc'; [| |done].
    + by rewrite (picks_lookup_Some _ _ _ _ _ Hw' Hk).
    + by rewrite (picks_lookup_Some _ _ _ _ _ Href Hk).
  - exists out. split_and!; [done|lia|]. intros f conf w Hc Hw.
    destruct (Forall2_lookup_l _ _ _ _ _ Hconfs Hc) as (conf' & Hconf' & Hpick).
    destruct (Hrows f) as [Hf _].
    destruct (Hf w conf' Hw Hconf') as (c' & Hout' & Hlc' & Hc').
    exists c'. split_and!; [done..|]. intros k a Hk.
    destruct (Forall2_lookup_l _ _ _ _ _ Hpick Hk) as (c & Hck & Hca).
    destruct (Forall2_lookup_l _ _ _ _ _ Href Hk) as (r & _ & Hr).
    pose proof (Forall_lookup_1 _ _ _ _ Hws Hw) as Hlw. cbn in Hlw.
    destruct (lookup_lt_is_Some_2 w a) as [x Hx].
    { apply lookup_lt_Some in Hr. lia. }
    unfold shown. rewrite Hx, Hr, Hca. cbn. eauto.
Qed.

(** X5. Retrieval of all coordinate sets hands out one row per stored frame
    and one point per atom it ranges over; where the weight of the atom in the
    frame is zero the point is the reference one, elsewhere the stored one. *)
Theorem getCoordsets_substitutes_reference e selected ref confs ws :
  well_formed e → _coords e = Some ref → _confs e = Some confs →
  _weights e = Some ws →
  ∃ out, getCoordsets None selected e = Ok (Some (Stack out)) ∧
    length out = _n_csets e ∧
    ∀ f conf w, confs !! f = Some conf → ws !! f = Some w →
      ∃ c', out !! f = Some c' ∧
        length c' = length (retrieved_atoms selected e) ∧
        ∀ k a, retrieved_atoms selected e !! k = Some a →
          is_Some (shown ref w conf a) ∧ c' !! k = shown ref w conf a.
Proof.
  intros Hwf Href Hconfs Hws.
  destruct (wf_confs e Hwf _ Hconfs) as [Hnc Hshape].
  destruct (wf_weights e Hwf _ Hws) as [Hnw Hwshape].
  pose proof (wf_coords e Hwf _ Href) as Hnr.
  assert (Forall (λ w, length w = length ref) ws) as Hws'.
  { eapply Forall_impl; [exact Hwshape|]. cbn. intros; lia. }
  assert (Forall (λ c, length c = length ref) confs) as Hconfs'.
  { eapply Forall_impl; [exact Hshape|]. cbn. intros; lia. }
  assert (∀ f conf w a, confs !! f = Some conf → ws !! f = Some w →
            a < _n_atoms e → is_Some (shown ref w conf a)) as Hshown.
  { intros f conf w a Hc Hw Ha. apply shown_is_Some; [lia|..].
    - by apply (Forall_lookup_1 _ _ _ _ Hws' Hw).
    - by apply (Forall_lookup_1 _ _ _ _ Hconfs' Hc). }
  unfold getCoordsets. rewrite Hconfs.
  destruct (_indices e) as [selids|] eqn:Hidx; [destruct selected|].
  - (* the selected atoms *)
    pose proof (wf_indices e Hwf _ Hidx) as Hsel.
    rewrite Href. cbn.
    destruct (take_total selids ref) as [ref' Hr']; [by rewrite Hnr|].
    rewrite Hr'. cbn. apply take_Ok in Hr'.
    destruct (take_cols_total selids confs (_n_atoms e)) as [confs' Hc'];
      [done..|].
    rewrite Hc'. cbn. apply take_cols_Ok in Hc'. rewrite Hws. cbn.
    destruct (substitute_selected selids ref ref' confs confs' ws)
      as (out & -> & Hl & Hout); [done|done|lia|done|].
    exists out. split_and!; [done|lia|]. intros f conf w Hc Hw.
    destruct (Hout f conf w Hc Hw) as (c' & ? & ? & Hk).
    exists c'. unfold retrieved_atoms, selection. rewrite Hidx.
    split_and!; [done..|]. intros k a Hka. split; [|by apply Hk].
    apply (Hshown f); [done..|]. by apply (Forall_lookup_1 _ _ _ _ Hsel Hka).
  - (* a selection that the caller sets aside *)
    cbn. rewrite Hws. cbn.
    destruct (substitute_all e ref confs ws) as (out & -> & Hl & Hout);
      [done|lia|done..|].
    exists out. split_and!; [done|lia|]. intros f conf w Hc Hw.
    destruct (Hout f conf w Hc Hw) as (c' & ? & ? & Hk).
    exists c'. unfold retrieved_atoms. rewrite length_seq.
    split_and!; [done|lia|]. intros k a [-> Hka]%lookup_seq.
    split; [|by apply Hk]. by apply (Hshown f).
  - (* no selection *)
    assert (retrieved_atoms selected e = seq 0 (_n_atoms e)) as ->.
    { unfold retrieved_atoms, selection. rewrite Hidx. by destruct selected. }
    cbn. rewrite Hws.
    destruct (substitute_all e ref confs ws) as (out & Hfold & Hl & Hout);
      [done|lia|done..|].
    exists out. split_and!; [|lia|].
    + destruct selected; cbn; by rewrite Hfold.
    + intros f conf w Hc Hw.
      destruct (Hout f conf w Hc Hw) as (c' & ? & ? & Hk).
      exists c'. rewrite length_seq.
      split_and!; [done|lia|]. intros k a [-> Hka]%lookup_seq.
      split; [|by apply Hk]. by apply (Hshown f).
Qed.

(** C5, where it fails.  With an atom selection in force and conformations
    stored, [getCoordsets(indices)] for explicit [indices] (and [selected]
    left true) raises, whatever the indices, the weights and the
    coordinates: the paired index arrays give a two-dimensional copy, which
    the loop then indexes as if it were a stack. *)
Theorem getCoordsets_by_index_raises e idx selids confs :
  _indices e = Some selids → _confs e = Some confs →
  ∃ x, getCoordsets (Some idx) true e = Raise x.
Proof.
  intros Hidx Hconfs. unfold getCoordsets. rewrite Hconfs, Hidx.
  destruct (_coords e) as [ref|]; cbn -[take_frames]; [|by eexists].
  destruct (np.take selids ref) as [ref'|]; cbn -[take_frames]; [|by eexists].
  destruct (decide (idx = [])) as [->|Hne]; [by eexists|].
  assert (match idx with [] => Raise IndexError | _ => Ok () end = Ok ()) as ->
    by by destruct idx.
  cbn -[take_frames].
  destruct (mapM_r (norm_index (length confs)) idx) as [rows|];
    cbn -[take_frames]; [|by eexists].
  destruct (broadcast_pairs rows selids) as [pairs|]; cbn -[take_frames];
    [|by eexists].
  destruct (mapM_r _ pairs) as [flat|]; cbn -[take_frames]; [|by eexists].
  destruct (_weights e) as [ws|]; cbn -[take_frames]; [|by eexists].
  destruct (take_frames idx ws) as [ws'|] eqn:Hws'; cbn; [|by eexists].
  destruct ws' as [|w ws'].
  { unfold take_frames in Hws'. destruct idx as [|i idx]; [done|].
    apply bind_Ok in Hws' as (rows' & Hrows & Htake).
    apply mapM_r_Ok, Forall2_length in Hrows.
    apply take_Ok, picks_length in Htake. destruct rows'; done. }
  cbn. destruct (np.take selids w) as [w'|]; cbn; [|by eexists].
  destruct (flat !! 0); cbn; [|by eexists].
  case_decide; by eexists.
Qed.

Lemma getCoordsets_by_index_raises_witness :
  ∃ x, getCoordsets (Some [0%Z]) true half_ensemble = Raise x.
Proof. eapply (getCoordsets_by_index_raises half_ensemble [0%Z] [0]); reflexivity. Defined.

(** * Superposition *)

Section superposition.
Context `{RigidAlignment}.

(** [tvec + np.dot(conf, rmat.T)] takes every point of [conf] where the
    rotation and the translation take it. *)
Lemma apply_transformation_moved rmat tvec conf :
  apply_transformation rmat tvec conf = moved rmat tvec <$> conf.
Proof.
  destruct rmat as [[[[r00 r01] r02] [[r10 r11] r12]] [[r20 r21] r22]].
  destruct tvec as [[tx ty] tz]. unfold apply_transformation.
  apply list_fmap_ext. by intros i [[x y] z] _.
Qed.

Lemma superpose_step_unfold coords ws i conf trans e w confs row :
  ws !! i = Some w → _confs e = Some confs → confs !! i = Some row →
  from_option (λ ts, is_Some (ts !! i)) True trans →
  superpose_step (Some coords) (Some ws) i conf trans e
  = let rt := getTransformation conf coords w in
    (set_confs (Some (<[i := apply_transformation rt.1 rt.2 row]> confs)) e,
     Ok ((λ ts, <[i := set_translation rt.2
                          (set_rotation rt.1 (default zeros4 (ts !! i)))]> ts)
         <$> trans)).
Proof.
  intros Hw Hc Hrow Ht. unfold superpose_step.
  unfold mbind, method_bind, mthen, mread, massign, mreturn. cbn.
  rewrite Hw. cbn. destruct (getTransformation conf coords w) as [rmat tvec].
  cbn. destruct trans as [ts|]; cbn.
  - destruct Ht as [t Ht]. rewrite Ht. cbn. rewrite Hc. cbn. rewrite Hrow. done.
  - rewrite Hc. cbn. rewrite Hrow. done.
Qed.

Lemma set_confs_twice a b e : set_confs a (set_confs b e) = set_confs a e.
Proof. by destruct e. Qed.

Lemma set_confs_same e : set_confs (_confs e) e = e.
Proof. by destruct e. Qed.

(** The loop of [_superpose], from turn [n] on: every row it visits is
    moved by the transformation computed from the selected atoms of the
    frame, and the matrix of the row, if matrices are kept, is filled from
    the same transformation. *)
Lemma superpose_loop_spec coords ws sel : ∀ n trans e confs,
  _confs e = Some confs →
  n + length sel ≤ length confs → n + length sel ≤ length ws →
  from_option (λ ts, n + length sel ≤ length ts) True trans →
  ∃ confs' trans',
    superpose_loop (Some coords) (Some ws) (imap (λ i c, (n + i, c)) sel)
                   trans e
    = (set_confs (Some confs') e, Ok trans') ∧
    length confs' = length confs ∧
    (∀ j, j < n ∨ n + length sel ≤ j → confs' !! j = confs !! j) ∧
    (∀ i conf row w, sel !! i = Some conf → confs !! (n + i) = Some row →
       ws !! (n + i) = Some w →
       let rt := getTransformation conf coords w in
       confs' !! (n + i) = Some (apply_transformation rt.1 rt.2 row)) ∧
    match trans with
    | None => trans' = None
    | Some ts => ∃ ts', trans' = Some ts' ∧ length ts' = length ts ∧
        (∀ j, j < n ∨ n + length sel ≤ j → ts' !! j = ts !! j) ∧
        (∀ i conf t w, sel !! i = Some conf → ts !! (n + i) = Some t →
           ws !! (n + i) = Some w →
           let rt := getTransformation conf coords w in
           ts' !! (n + i) = Some (set_translation rt.2 (set_rotation rt.1 t)))
    end.
Proof.
  induction sel as [|c sel IH]; intros n trans e confs Hc Hlc Hlw Hlt.
  - exists confs, trans. cbn. rewrite <- Hc, set_confs_same.
    split_and!; [done..| |]; [by intros ? ? ? ? [=]|].
    destruct trans as [ts|]; [|done]. exists ts.
    split_and!; [done..|]. by intros ? ? ? ? [=].
  - cbn [length] in Hlc, Hlw.
    destruct (lookup_lt_is_Some_2 confs n) as [row Hrow]; [lia|].
    destruct (lookup_lt_is_Some_2 ws n) as [w Hw]; [lia|].
    cbn [imap superpose_loop]. rewrite Nat.add_0_r.
    unfold mbind at 1, method_bind at 1, mthen at 1.
    rewrite (superpose_step_unfold coords ws n c trans e w confs row);
      [|done..|].
    2:{ destruct trans as [ts|]; [|done]. cbn in Hlt |- *.
        apply lookup_lt_is_Some. lia. }
    cbn zeta.
    set (rt := getTransformation c coords w).
    set (confs1 := <[n := apply_transformation rt.1 rt.2 row]> confs).
    set (trans1 := (λ ts, <[n := _]> ts) <$> trans).
    destruct (IH (S n) trans1 (set_confs (Some confs1) e) confs1)
      as (confs' & trans' & Hrun & Hlen & Hout & Hin & Htr).
    { by destruct e. }
    { unfold confs1. rewrite length_insert. lia. }
    { lia. }
    { unfold trans1. destruct trans as [ts|]; [|done]. cbn in Hlt |- *.
      rewrite length_insert. lia. }
    exists confs', trans'. split_and!.
    + erewrite imap_ext; [rewrite Hrun, set_confs_twice; done|].
      intros i x _. cbn. f_equal. lia.
    + rewrite Hlen. apply length_insert.
    + intros j Hj. cbn [length] in Hj. rewrite Hout by lia. unfold confs1.
      apply list_lookup_insert_ne. lia.
    + intros [|i] conf row' w' Hi Hr' Hw'.
      * rewrite Nat.add_0_r in *. cbn in Hi. simplify_eq. cbn zeta.
        rewrite Hout by lia. unfold confs1.
        apply list_lookup_insert_eq. by apply lookup_lt_Some in Hrow.
      * replace (n + S i) with (S n + i) in * by lia. cbn in Hi.
        apply (Hin i conf row' w'); [done| |done].
        unfold confs1. rewrite list_lookup_insert_ne by lia. done.
    + destruct trans as [ts|]; cbn in Htr; [|done].
      destruct Htr as (ts' & -> & Hlts & Htout & Htin). exists ts'.
      cbn in Hlt.
      split_and!; [done| | |].
      * rewrite Hlts. apply length_insert.
      * intros j Hj. cbn [length] in Hj. rewrite Htout by lia.
        apply list_lookup_insert_ne. lia.
      * intros [|i] conf t w' Hi Ht Hw'.
        -- rewrite Nat.add_0_r in *. cbn in Hi. injection Hi as <-.
           assert (w' = w) as -> by congruence. cbn zeta.
           rewrite Htout by lia. rewrite Ht. cbn.
           apply list_lookup_insert_eq. by apply lookup_lt_Some in Ht.
        -- replace (n + S i) with (S n + i) in * by lia. cbn in Hi.
           apply (Htin i conf t w'); [done| |done].
           rewrite list_lookup_insert_ne by lia. done.
Qed.

(** Whatever the loop does, it does not touch the stored matrices. *)
Lemma superpose_loop_trans coords ws l : ∀ trans e e' r,
  superpose_loop coords ws l trans e = (e', r) → _trans e' = _trans e.
Proof.
  induction l as [|[i conf] l IH]; intros trans e e' r Hrun.
  - by injection Hrun as <- _.
  - cbn in Hrun. unfold mbind at 1, method_bind at 1, mthen at 1 in Hrun.
    destruct (superpose_step coords ws i conf trans e) as [e1 [t1|x]] eqn:Hstep.
    + apply IH in Hrun. rewrite Hrun. clear Hrun.
      unfold superpose_step in Hstep.
      unfold mbind, method_bind, mthen, mread, massign, mreturn in Hstep.
      repeat (match type of Hstep with
              | context [match ?x with _ => _ end] => destruct x; cbn in Hstep
              | context [let (_, _) := ?x in _] => destruct x; cbn in Hstep
              end); by simplify_eq.
    + injection Hrun as <- _.
      unfold superpose_step in Hstep.
      unfold mbind, method_bind, mthen, mread, massign, mreturn in Hstep.
      repeat (match type of Hstep with
              | context [match ?x with _ => _ end] => destruct x; cbn in Hstep
              | context [let (_, _) := ?x in _] => destruct x; cbn in Hstep
              end); by simplify_eq.
Qed.

Lemma selected_of_picks {A} e (row r : list A) :
  selected_of e row = Some r ↔ picks (selection e) row r.
Proof. unfold selected_of. by rewrite <- take_mapM, take_Ok. Qed.

Lemma picks_all {A} n (l : list A) : length l = n → picks (seq 0 n) l l.
Proof. intros <-. apply picks_seq. Qed.

Lemma _superpose_unfold trans e :
  _superpose trans e =
  match superpose_operands e with
  | Ok (weights, coords, Some sel) =>
    match superpose_loop coords weights (enumerate sel)
            (if trans then Some (replicate (_n_csets e) zeros4) else None) e
    with
    | (e1, Ok t) => (set_trans t e1, Ok ())
    | (e1, Raise x) => (e1, Raise x)
    end
  | Ok (_, _, None) => (e, Raise TypeError)
  | Raise x => (e, Raise x)
  end.
Proof.
  unfold _superpose, mbind at 1 2 3 4, method_bind, mthen, mread, massign.
  cbv beta iota. fold (superpose_operands e).
  destruct (superpose_operands e) as [[[ws coords] [sel|]]|x]; cbn; [|done..].
  by destruct (superpose_loop _ _ _ _ e) as [e1 [t|x]].
Qed.

Lemma superpose_operands_spec e ref confs ws :
  well_formed e → _coords e = Some ref → _confs e = Some confs →
  _weights e = Some ws →
  ∃ ws' ref' confs',
    superpose_operands e = Ok (Some ws', Some ref', Some confs') ∧
    Forall2 (picks (selection e)) ws ws' ∧ picks (selection e) ref ref' ∧
    Forall2 (picks (selection e)) confs confs'.
Proof.
  intros Hwf Href Hconfs Hws.
  destruct (wf_confs e Hwf _ Hconfs) as [Hnc Hshape].
  destruct (wf_weights e Hwf _ Hws) as [Hnw Hwshape].
  pose proof (wf_coords e Hwf _ Href) as Hnr.
  unfold selection, superpose_operands.
  destruct (_indices e) as [indices|] eqn:Hidx.
  - pose proof (wf_indices e Hwf _ Hidx) as Hsel.
    rewrite Hws, Href, Hconfs. cbn.
    destruct (take_cols_total indices ws (_n_atoms e)) as [ws' Hws'];
      [done..|].
    destruct (take_total indices ref) as [ref' Href']; [by rewrite Hnr|].
    destruct (take_cols_total indices confs (_n_atoms e)) as [confs' Hconfs'];
      [done..|].
    rewrite Hws', Href', Hconfs'. cbn. exists ws', ref', confs'.
    split_and!; [done|by apply take_cols_Ok|by apply take_Ok|
                 by apply take_cols_Ok].
  - rewrite Hws, Href, Hconfs. exists ws, ref, confs. split_and!; [done|..].
    + apply Forall2_same_length_lookup. split; [done|].
      intros i w w' Hw Hw'. simplify_eq. apply picks_all.
      by apply (Forall_lookup_1 _ _ _ _ Hwshape Hw).
    + by apply picks_all.
    + apply Forall2_same_length_lookup. split; [done|].
      intros i c c' Hc Hc'. simplify_eq. apply picks_all.
      by apply (Forall_lookup_1 _ _ _ _ Hshape Hc).
Qed.

Lemma set_matrix rmat tvec :
  set_translation tvec (set_rotation rmat zeros4)
  = transformation_matrix rmat tvec.
Proof.
  by destruct rmat as [[[[? ?] ?] [[? ?] ?]] [[? ?] ?]], tvec as [[? ?] ?].
Qed.

(** What a call of [_superpose] on a well-formed ensemble does. *)
Lemma _superpose_run trans e ref confs ws :
  well_formed e → _coords e = Some ref → _confs e = Some confs →
  _weights e = Some ws →
  ∃ confs' trans',
    _superpose trans e
    = (set_trans trans' (set_confs (Some confs') e), Ok ()) ∧
    length confs' = _n_csets e ∧
    (∀ i row, confs !! i = Some row →
       ∃ rt, frame_transformation e i = Some rt ∧
             confs' !! i = Some (moved rt.1 rt.2 <$> row)) ∧
    if trans
    then ∃ ts, trans' = Some ts ∧ length ts = _n_csets e ∧
           ∀ i, i < _n_csets e →
             ∃ rt, frame_transformation e i = Some rt ∧
                   ts !! i = Some (transformation_matrix rt.1 rt.2)
    else trans' = None.
Proof.
  intros Hwf Href Hconfs Hws.
  destruct (wf_confs e Hwf _ Hconfs) as [Hnc Hshape].
  destruct (wf_weights e Hwf _ Hws) as [Hnw Hwshape].
  destruct (superpose_operands_spec e ref confs ws)
    as (ws' & ref' & confs_sel & Hops & Hpw & Hpr & Hpc); [done..|].
  pose proof (Forall2_length _ _ _ Hpw) as Hlw.
  pose proof (Forall2_length _ _ _ Hpc) as Hlc.
  set (trans0 := if trans then Some (replicate (_n_csets e) zeros4) else None).
  destruct (superpose_loop_spec ref' ws' confs_sel 0 trans0 e confs)
    as (confs' & trans' & Hrun & Hlen & _ & Hin & Htr); [done|cbn; lia..| |].
  { unfold trans0. destruct trans; [|done]. cbn. rewrite length_replicate. lia. }
  assert (∀ i row, confs !! i = Some row →
            ∃ conf w, confs_sel !! i = Some conf ∧ ws' !! i = Some w ∧
              frame_transformation e i = Some (getTransformation conf ref' w))
    as Hframe.
  { intros i row Hrow.
    destruct (Forall2_lookup_l _ _ _ _ _ Hpc Hrow) as (conf & Hconf & Hp).
    destruct (lookup_lt_is_Some_2 ws i) as [w0 Hw0].
    { apply lookup_lt_Some in Hrow. lia. }
    destruct (Forall2_lookup_l _ _ _ _ _ Hpw Hw0) as (w & Hw & Hp').
    exists conf, w. split_and!; [done..|].
    unfold frame_transformation, selected_frame, selected_weights.
    rewrite Hconfs, Hws, Href. cbn. rewrite Hrow, Hw0. cbn.
    apply selected_of_picks in Hp, Hp', Hpr. by rewrite Hp, Hp', Hpr. }
  exists confs', trans'. split_and!.
  - rewrite _superpose_unfold, Hops. fold trans0. unfold enumerate.
    erewrite imap_ext; [rewrite Hrun; done|done].
  - lia.
  - intros i row Hrow. destruct (Hframe i row Hrow) as (conf & w & Hc & Hw & Hft).
    eexists. split; [exact Hft|]. rewrite <- apply_transformation_moved.
    by apply (Hin i conf row w).
  - unfold trans0 in Htr. destruct trans; [|done].
    destruct Htr as (ts & -> & Hlts & _ & Htin). exists ts.
    rewrite length_replicate in Hlts. split_and!; [done..|].
    intros i Hi. destruct (lookup_lt_is_Some_2 confs i) as [row Hrow]; [lia|].
    destruct (Hframe i row Hrow) as (conf & w & Hc & Hw & Hft).
    eexists. split; [exact Hft|]. rewrite <- set_matrix.
    apply (Htin i conf zeros4 w); [done| |done].
    by apply lookup_replicate_2.
Qed.

(** C10.  On a well-formed ensemble [_superpose] returns; when asked to
    keep the transformations it leaves in [_trans] one matrix per
    conformation, each with the rotation computed for its frame in the upper
    left block and the translation in the last column; when not asked, it
    leaves [None] there, whatever was stored before. *)
Theorem _superpose_sets_trans trans e ref confs ws :
  well_formed e → _coords e = Some ref → _confs e = Some confs →
  _weights e = Some ws →
  ∃ e', _superpose trans e = (e', Ok ()) ∧
    if trans
    then ∃ ts, _trans e' = Some ts ∧ length ts = _n_csets e ∧
           ∀ i, i < _n_csets e →
             ∃ rt, frame_transformation e i = Some rt ∧
                   ts !! i = Some (transformation_matrix rt.1 rt.2)
    else _trans e' = None.
Proof.
  intros Hwf Href Hconfs Hws.
  destruct (_superpose_run trans e ref confs ws)
    as (confs' & trans' & Hrun & _ & _ & Htr); [done..|].
  eexists. split; [exact Hrun|]. by destruct trans.
Qed.


(** X7. A call of [_superpose] that raises leaves [_trans] as it was. *)
Lemma _superpose_raise_keeps_trans trans e e' x :
  _superpose trans e = (e', Raise x) → _trans e' = _trans e.
Proof.
  rewrite _superpose_unfold.
  destruct (superpose_operands e) as [[[ws coords] [sel|]]|y];
    [|by intros [= <- _]..].
  destruct (superpose_loop _ _ _ _ e) as [e1 [t|y]] eqn:Hloop; [done|].
  intros [= <- _]. by apply superpose_loop_trans in Hloop.
Qed.

End superposition.

Lemma _superpose_sets_trans_witness :
  ∃ e', _superpose (H:=first_atom_alignment) true still_ensemble = (e', Ok ()) ∧
    ∃ ts, _trans e' = Some ts ∧ length ts = 3.
Proof.
  destruct (_superpose_sets_trans (H:=first_atom_alignment) true still_ensemble
              _ _ _ still_ensemble_wf eq_refl eq_refl eq_refl)
    as (e' & Hrun & ts & Hts & Hlen & _).
  exists e'. split; [done|]. by exists ts.
Defined.

(** * Arrays on the heap *)

#[export] Instance laws_point : RowlikeLaws vec3.
Proof. by intros x. Qed.
#[export] Instance laws_frame : RowlikeLaws coordset.
Proof. by intros x. Qed.
#[export] Instance laws_weights : RowlikeLaws weightset.
Proof. by intros x. Qed.
#[export] Instance laws_mat : RowlikeLaws mat4.
Proof. by intros x. Qed.
#[export] Instance laws_index : RowlikeLaws nat.
Proof. by intros x. Qed.

Section heap.
Context {A : Type} `{RowlikeLaws A}.

Lemma mapM_of_to_row (l : list A) :
  mapM Store.of_row (Store.to_row <$> l) = Some l.
Proof.
  induction l as [|x l IH]; [done|]. cbn. rewrite of_to_row. cbn.
  by rewrite IH.
Qed.

(** What an array shows depends on its buffer only. *)
Lemma read_rows_ext h h' a :
  h' !! Store.base a = h !! Store.base a →
  Store.read_rows h' a = Store.read_rows h a.
Proof. intros Heq. unfold Store.read_rows. by rewrite Heq. Qed.

Lemma read_ext h h' a :
  h' !! Store.base a = h !! Store.base a →
  Store.read (A:=A) h' a = Store.read h a.
Proof. intros Heq. unfold Store.read. by rewrite (read_rows_ext h h'). Qed.

Lemma read_in_dom h a (l : list A) :
  Store.read h a = Some l → Store.base a ∈ dom h.
Proof.
  unfold Store.read, Store.read_rows. intros Hr. apply elem_of_dom.
  by destruct (h !! Store.base a).
Qed.

(** A new array is in no buffer of the old heap, holds what it was made of,
    and leaves the old buffers as they were. *)
Lemma alloc_fresh (l : list A) h : Store.base (Store.alloc l h).2 ∉ dom h.
Proof. apply is_fresh. Qed.

Lemma alloc_lookup (l : list A) h p :
  p ∈ dom h → (Store.alloc l h).1 !! p = h !! p.
Proof.
  intros Hp. cbn. apply lookup_insert_ne. intros <-.
  by apply (is_fresh (dom h)).
Qed.

Lemma alloc_dom (l : list A) h p : p ∈ dom h → p ∈ dom (Store.alloc l h).1.
Proof. intros Hp. cbn. rewrite dom_insert. set_solver. Qed.

Lemma alloc_read (l : list A) h :
  Store.read (Store.alloc l h).1 (Store.alloc l h).2 = Some l.
Proof.
  unfold Store.read, Store.read_rows. cbn. rewrite lookup_insert_eq. cbn.
  apply mapM_of_to_row.
Qed.

(** [a[k] = x] writes into the buffer of [a] and into no other. *)
Lemma setitem_lookup a k (x : A) h p :
  p ≠ Store.base a → Store.setitem a k x h !! p = h !! p.
Proof.
  intros Hp. unfold Store.setitem.
  destruct (Store.buffer_row a k); [|done]. by apply lookup_alter_ne.
Qed.

Lemma setitems_lookup a (l : list A) h p :
  p ≠ Store.base a → Store.setitems a l h !! p = h !! p.
Proof.
  intros Hp. unfold Store.setitems. generalize (enumerate l). intros kl.
  revert h. induction kl as [|[k x] kl IH]; intros h; [done|].
  cbn. rewrite IH. by apply setitem_lookup.
Qed.

Lemma setitems_dom a (l : list A) h p :
  p ∈ dom h → p ∈ dom (Store.setitems a l h).
Proof.
  unfold Store.setitems. generalize (enumerate l). intros kl.
  revert h. induction kl as [|[k x] kl IH]; intros h Hp; [done|].
  cbn. apply IH. unfold Store.setitem.
  destruct (Store.buffer_row a k); [|done].
  apply elem_of_dom. apply elem_of_dom in Hp as [buf Hbuf].
  destruct (decide (p = Store.base a)) as [->|Hne].
  - rewrite lookup_alter_eq, Hbuf. by eexists.
  - rewrite lookup_alter_ne by done. by eexists.
Qed.

(** Writing every row of an array that is no view leaves the rows written
    in it. *)
Lemma setitems_buffer a (l : list A) h buf :
  Store.window a = None → h !! Store.base a = Some buf →
  length l = length buf →
  Store.setitems a l h !! Store.base a = Some (Store.to_row <$> l).
Proof.
  intros Hw Hbuf Hlen. unfold Store.setitems, enumerate.
  enough (∀ (l : list A) n h buf, h !! Store.base a = Some buf →
            n + length l = length buf →
            foldl (λ h '(k, x), Store.setitem a k x h) h
                  (imap (λ i x, (n + i, x)) l) !! Store.base a
            = Some (take n buf ++ (Store.to_row <$> l))) as Hgen.
  { exact (Hgen l 0 h buf Hbuf Hlen). }
  clear l h buf Hbuf Hlen.
  induction l as [|x l IH]; intros n h buf Hbuf Hlen.
  - cbn in *. rewrite Nat.add_0_r in Hlen. rewrite Hlen, firstn_all.
    by rewrite app_nil_r.
  - cbn [imap foldl length] in *. rewrite Nat.add_0_r.
    rewrite (imap_ext _ (λ i y, (S n + i, y)))
      by (intros i y _; cbn; f_equal; lia).
    rewrite (IH (S n) (Store.setitem a n x h) (<[n := Store.to_row x]> buf)).
    + f_equal. rewrite (take_S_r _ _ (Store.to_row x)).
      * rewrite take_insert_ge by done. by rewrite <- app_assoc.
      * apply list_lookup_insert_eq. lia.
    + unfold Store.setitem, Store.buffer_row. rewrite Hw.
      rewrite lookup_alter_eq, Hbuf. done.
    + rewrite length_insert. lia.
Qed.

Lemma setitems_read a (l l0 : list A) h :
  Store.window a = None → Store.read h a = Some l0 → length l = length l0 →
  Store.read (Store.setitems a l h) a = Some l.
Proof.
  intros Hw Hr Hlen. unfold Store.read, Store.read_rows in *. rewrite Hw in *.
  destruct (h !! Store.base a) as [buf|] eqn:Hbuf; [|done]. cbn in Hr.
  rewrite (setitems_buffer a l h buf); [|done..|].
  - cbn. apply mapM_of_to_row.
  - apply length_mapM in Hr. lia.
Qed.

Lemma read_attr_alloc (l : option (list A)) h :
  Store.read_attr (Store.alloc_attr l h).1 (Store.alloc_attr l h).2 = Some l.
Proof.
  destruct l as [l|]; [|done]. cbn -[Store.alloc].
  destruct (Store.alloc l h) as [h' a] eqn:Ha. cbn.
  pose proof (alloc_read l h) as Hr. rewrite Ha in Hr. cbn in Hr.
  by rewrite Hr.
Qed.

Lemma alloc_attr_lookup (l : option (list A)) h p :
  p ∈ dom h → (Store.alloc_attr l h).1 !! p = h !! p.
Proof.
  intros Hp. destruct l as [l|]; [|done]. cbn -[Store.alloc].
  pose proof (alloc_lookup l h p Hp) as Hl.
  by destruct (Store.alloc l h).
Qed.

Lemma alloc_attr_fresh (l : option (list A)) h a :
  (Store.alloc_attr l h).2 = Some a → Store.base a ∉ dom h.
Proof.
  destruct l as [l|]; [|done]. cbn -[Store.alloc].
  pose proof (alloc_fresh l h) as Hf.
  destruct (Store.alloc l h). cbn in *. by intros [= <-].
Qed.

End heap.

Lemma read_attr_ext {A} `{Store.Rowlike A} h h' (a : option Store.array) :
  (∀ b, a = Some b → h' !! Store.base b = h !! Store.base b) →
  Store.read_attr (A:=A) h' a = Store.read_attr h a.
Proof.
  intros Heq. destruct a as [b|]; [|done]. cbn.
  unfold Store.read. by rewrite (read_rows_ext h h' b) by auto.
Qed.

Lemma read_attr_in_dom {A} `{Store.Rowlike A} h a b (l : option (list A)) :
  Store.read_attr h a = Some l → a = Some b → Store.base b ∈ dom h.
Proof.
  intros Hr ->. cbn in Hr. unfold Store.read, Store.read_rows in Hr.
  apply elem_of_dom. by destruct (h !! Store.base b).
Qed.

(** What the attributes of an object hold, attribute by attribute. *)
Lemma load_inv h o e :
  Store.load h o = Some e →
  Store.read_attr h (Store.o_coords o) = Some (_coords e) ∧
  Store.read_attr h (Store.o_weights o) = Some (_weights e) ∧
  Store.read_attr h (Store.o_confs o) = Some (_confs e) ∧
  Store.read_attr h (Store.o_indices o) = Some (_indices e) ∧
  Store.read_attr h (Store.o_trans o) = Some (_trans e) ∧
  _title e = Store.o_title o ∧ _n_atoms e = Store.o_n_atoms o ∧
  _n_csets e = Store.o_n_csets o ∧ _atoms e = Store.o_atoms o ∧
  _labels e = Store.o_labels o ∧ _msa e = Store.o_msa o.
Proof.
  unfold Store.load. intros Hl.
  destruct (Store.read_attr h (Store.o_coords o)); [|done].
  destruct (Store.read_attr h (Store.o_weights o)); [|done].
  destruct (Store.read_attr h (Store.o_confs o)); [|done].
  destruct (Store.read_attr h (Store.o_indices o)); [|done].
  destruct (Store.read_attr h (Store.o_trans o)); [|done].
  cbn in Hl. by injection Hl as <-.
Qed.

Lemma load_intro h o e :
  Store.read_attr h (Store.o_coords o) = Some (_coords e) →
  Store.read_attr h (Store.o_weights o) = Some (_weights e) →
  Store.read_attr h (Store.o_confs o) = Some (_confs e) →
  Store.read_attr h (Store.o_indices o) = Some (_indices e) →
  Store.read_attr h (Store.o_trans o) = Some (_trans e) →
  _title e = Store.o_title o → _n_atoms e = Store.o_n_atoms o →
  _n_csets e = Store.o_n_csets o → _atoms e = Store.o_atoms o →
  _labels e = Store.o_labels o → _msa e = Store.o_msa o →
  Store.load h o = Some e.
Proof.
  unfold Store.load. intros -> -> -> -> -> <- <- <- <- <- <-. cbn.
  by destruct e.
Qed.

Lemma read_only_elem o c :
  Store.o_coords o = Some c ∨ Store.o_weights o = Some c
  ∨ Store.o_indices o = Some c →
  Store.base c ∈ read_only o.
Proof.
  intros Hc. unfold read_only. apply list_elem_of_fmap_2.
  apply list_elem_of_omap. exists (Some c). split; [|done].
  destruct Hc as [->| [->| ->]]; set_solver.
Qed.

Lemma locs_elem o c :
  Store.o_coords o = Some c ∨ Store.o_weights o = Some c
  ∨ Store.o_confs o = Some c ∨ Store.o_indices o = Some c
  ∨ Store.o_trans o = Some c →
  Store.base c ∈ Store.locs o.
Proof.
  intros Hc. unfold Store.locs. apply list_elem_of_fmap_2.
  apply list_elem_of_omap. exists (Some c). split; [|done].
  destruct Hc as [->| [->| [->| [->| ->]]]]; set_solver.
Qed.

Section store_superpose.
Context `{RigidAlignment}.

(** On the heap, [_superpose] does what it does to the values: if the
    array of conformations is no view and shares no buffer with the arrays
    that are only read, the object holds afterwards the ensemble that
    [_superpose] computes, and no buffer but that of the conformations has
    changed. *)
Lemma store_superpose_refines trans h self e a confs confs' tr :
  Store.load h self = Some e → Store.o_confs self = Some a →
  Store.window a = None → Store.base a ∉ read_only self →
  _confs e = Some confs → length confs' = length confs →
  _superpose trans e = (set_trans tr (set_confs (Some confs') e), Ok ()) →
  ∃ h' t,
    Store._superpose trans h self = Some (h', Store.bind_trans t self, Ok ()) ∧
    Store.load h' (Store.bind_trans t self)
    = Some (set_trans tr (set_confs (Some confs') e)) ∧
    ∀ p, p ∈ dom h → p ≠ Store.base a → h' !! p = h !! p.
Proof.
  intros Hload Ha Hw Hsep Hconfs Hlen Hrun.
  destruct (load_inv h self e Hload)
    as (Hc & Hws & Hcs & Hi & Ht & ? & ? & ? & ? & ? & ?).
  rewrite Ha, Hconfs in Hcs. cbn in Hcs.
  destruct (Store.read h a) as [confs0|] eqn:Hread; [|done].
  injection Hcs as ->.
  set (h1 := Store.setitems a confs' h).
  set (ht := Store.alloc_attr tr h1).
  exists ht.1, ht.2.
  assert (∀ p, p ∈ dom h → p ≠ Store.base a → ht.1 !! p = h !! p) as Hframe.
  { intros p Hp Hne. unfold ht. rewrite alloc_attr_lookup.
    - by apply setitems_lookup.
    - by apply setitems_dom. }
  assert (∀ A (R : Store.Rowlike A) (b : option Store.array) (l : option (list A)),
            Store.read_attr h b = Some l →
            (∀ c, b = Some c → Store.base c ≠ Store.base a) →
            Store.read_attr ht.1 b = Some l) as Hkeep.
  { intros A R b l Hr Hne. rewrite <- Hr. apply read_attr_ext.
    intros c ->. apply Hframe; [|by apply Hne].
    by eapply read_attr_in_dom. }
  split_and!; [| |done].
  - unfold Store._superpose. rewrite Hload. cbn -[Store.alloc_attr].
    rewrite Hrun, Ha. cbn -[Store.alloc_attr]. fold h1. fold ht.
    by destruct ht.
  - apply load_intro; cbn; try done.
    + apply Hkeep; [done|]. intros c Hc' Heq. apply Hsep.
      rewrite <- Heq. apply read_only_elem. auto.
    + apply Hkeep; [done|]. intros c Hc' Heq. apply Hsep.
      rewrite <- Heq. apply read_only_elem. auto.
    + rewrite Ha. cbn. unfold Store.read.
      rewrite (read_rows_ext h1 ht.1).
      * fold (Store.read (A:=coordset) h1 a). unfold h1.
        by rewrite (setitems_read a confs' confs h).
      * unfold ht. apply alloc_attr_lookup. apply setitems_dom.
        by apply (read_in_dom (A:=coordset) h a confs).
    + apply Hkeep; [done|]. intros c Hc' Heq. apply Hsep.
      rewrite <- Heq. apply read_only_elem. auto.
    + apply read_attr_alloc.
Qed.

End store_superpose.

(** * Iterative superposition *)

Lemma load_bind_confs h o e copy confs :
  Store.load h o = Some e → Store.read h copy = Some confs →
  Store.load h (Store.bind_confs (Some copy) o)
  = Some (set_confs (Some confs) e).
Proof.
  intros Hload Hread.
  destruct (load_inv h o e Hload)
    as (Hc & Hws & Hcs & Hi & Ht & ? & ? & ? & ? & ? & ?).
  apply load_intro; cbn; try done. by rewrite Hread.
Qed.

Section iterpose.
Context `{RigidAlignment} `{Store.EnsembleBase}.

(** C7.  [iterpose] copies the conformations before the loop of the base
    class runs.  If that loop returns, and has left the copy alone (it
    cannot reach it through [self]), then [iterpose] returns too, and the
    object holds what [_superpose] makes of the ensemble the loop left, with
    the conformations as they were before the loop: every atom [p] of every
    one of them taken to [R p + t], for the rotation and the translation
    computed from that conformation against the reference the loop left,
    and the transformations, when kept, those of this last superposition. *)
Theorem iterpose_superposes_restored rmsd h self e old h0 copy h1 self1 e1
    ref ws :
  Store.load h self = Some e → _confs e = Some old →
  Store.alloc old h = (h0, copy) →
  Store.Ensemble_iterpose rmsd h0 self = Some (h1, self1, Ok ()) →
  h1 !! Store.base copy = h0 !! Store.base copy →
  Store.base copy ∉ Store.locs self1 →
  Store.load h1 self1 = Some e1 →
  well_formed (set_confs (Some old) e1) →
  _coords e1 = Some ref → _weights e1 = Some ws →
  ∃ h2 self2 e2,
    Store.iterpose rmsd h self = Some (h2, self2, Ok ()) ∧
    Store.load h2 self2 = Some e2 ∧
    _superpose Store.superpose_trans (set_confs (Some old) e1) = (e2, Ok ()) ∧
    _coords e2 = Some ref ∧
    (∃ confs2, _confs e2 = Some confs2 ∧ length confs2 = length old ∧
       ∀ i row, old !! i = Some row →
         ∃ rt, frame_transformation (set_confs (Some old) e1) i = Some rt ∧
               confs2 !! i = Some (moved rt.1 rt.2 <$> row)) ∧
    if Store.superpose_trans
    then ∃ ts, _trans e2 = Some ts ∧ length ts = length old ∧
           ∀ i, i < length old →
             ∃ rt, frame_transformation (set_confs (Some old) e1) i = Some rt ∧
                   ts !! i = Some (transformation_matrix rt.1 rt.2)
    else _trans e2 = None.
Proof.
  intros Hload Hold Halloc Hloop Hsame Hout Hload1 Hwf Href Hws.
  set (restored := set_confs (Some old) e1) in *.
  assert (Store.read h1 copy = Some old) as Hcopy.
  { rewrite (read_ext h0 h1) by done.
    pose proof (alloc_read old h) as Hr. by rewrite Halloc in Hr. }
  assert (Store.window copy = None) as Hwin.
  { pose proof (f_equal snd Halloc) as Hc. cbn in Hc. by subst copy. }
  pose proof (load_bind_confs h1 self1 e1 copy old Hload1 Hcopy) as Hload2.
  fold restored in Hload2.
  destruct (_superpose_run Store.superpose_trans restored ref old ws)
    as (confs2 & trans2 & Hrun & Hlen & Hmoved & Htrans);
    [done|by destruct e1..|].
  assert (_n_csets restored = length old) as Hn.
  { by destruct (wf_confs _ Hwf old) as [-> _]; [by destruct e1|]. }
  destruct (store_superpose_refines Store.superpose_trans h1
              (Store.bind_confs (Some copy) self1) restored copy old confs2
              trans2) as (h2 & t & Hstore & Hload3 & _);
    [done|done|done| |by destruct e1|lia|done|].
  { intros Hin. apply Hout. unfold read_only in Hin.
    apply list_elem_of_fmap in Hin as (c & -> & Hc).
    apply list_elem_of_omap in Hc as (oc & Hoc & Hid). cbn in Hid. subst oc.
    apply locs_elem. cbn in Hoc. set_solver. }
  exists h2, (Store.bind_trans t (Store.bind_confs (Some copy) self1)),
    (set_trans trans2 (set_confs (Some confs2) restored)).
  split_and!; [|done..| | |].
  - unfold Store.iterpose.
    destruct (load_inv h self e Hload) as (_ & _ & Hcs & _).
    rewrite Hold in Hcs. destruct (Store.o_confs self) as [a|]; [|done].
    cbn in Hcs. destruct (Store.read h a) as [old'|]; [|done].
    injection Hcs as ->. rewrite Halloc, Hloop. done.
  - by destruct e1.
  - exists confs2. split_and!; [done|lia|done].
  - destruct Store.superpose_trans; [|done].
    destruct Htrans as (ts & -> & Hlts & Hts). exists ts.
    split_and!; [done|lia|]. intros i Hi. apply Hts. lia.
Qed.

End iterpose.

(** The theorem on the still ensemble, with one round of superposition for
    the loop of the base class.  The conformations that [iterpose] leaves
    are those from before the loop, shifted, and the matrices hold that
    shift.  Superposing what the loop left instead, without putting the copy
    back, would find every first atom in place already, and leave matrices
    that shift by nothing. *)
Lemma iterpose_superposes_restored_witness :
  (∃ h2 self2 e2,
     Store.iterpose (H:=first_atom_alignment) (H0:=superpose_once) 0.5
       (stored tracked_ensemble ∅).1 (stored tracked_ensemble ∅).2
     = Some (h2, self2, Ok ()) ∧
     Store.load h2 self2 = Some e2 ∧
     _confs e2
     = Some (map (map (moved identity3 still_shift))
                 (default [] (_confs tracked_ensemble))) ∧
     _trans e2
     = Some (replicate 3 (transformation_matrix identity3 still_shift))) ∧
  (∃ h1 self1 e1,
     Store.Ensemble_iterpose
       (EnsembleBase:=superpose_once (H:=first_atom_alignment)) 0.5
       (stored tracked_ensemble ∅).1 (stored tracked_ensemble ∅).2
     = Some (h1, self1, Ok ()) ∧
     Store.load h1 self1 = Some e1 ∧
     _trans (_superpose (H:=first_atom_alignment) true e1).1
     = Some (replicate 3 (transformation_matrix identity3 (0, 0, 0)%float))).
Proof.
  split.
  - edestruct (iterpose_superposes_restored (H:=first_atom_alignment)
                 (H0:=superpose_once) 0.5%float
                 (stored tracked_ensemble ∅).1 (stored tracked_ensemble ∅).2)
      as (h2 & self2 & e2 & Hrun & Hload & Hsup & _).
    + vm_compute. reflexivity.
    + reflexivity.
    + vm_compute. reflexivity.
    + vm_compute. reflexivity.
    + vm_compute. reflexivity.
    + vm_compute. intros Hin.
      repeat (apply elem_of_cons in Hin as [Hin|Hin]; [discriminate Hin|]).
      by apply elem_of_nil in Hin.
    + vm_compute. reflexivity.
    + split; cbn; try (intros ? [= <-]; cbn; repeat constructor); done.
    + reflexivity.
    + reflexivity.
    + exists h2, self2, e2. split; [exact Hrun|]. split; [exact Hload|].
      vm_compute in Hsup. injection Hsup as <-. split; reflexivity.
  - eexists _, _, _. split; [vm_compute; reflexivity|].
    split; [vm_compute; reflexivity|]. reflexivity.
Defined.

(** * Extracting a sub-ensemble *)

Lemma view_base rows a v : Store.view rows a = Some v → Store.base v = Store.base a.
Proof.
  unfold Store.view. destruct (Store.window a) as [w|].
  - destruct (mapM _ rows); [|done]. cbn. by intros [= <-].
  - by intros [= <-].
Qed.

Section getitem.
Context `{Utilities}.

(** What [ens._trans = self._trans[index]] binds: for a slice, an array in
    the buffer of [self._trans]; for an index list, an array in a buffer
    that was not there before. *)
Lemma getitem_trans_slice s h t h' v :
  Store.getitem_trans (ISlice s) h (Some t) = Some (h', Ok (Some v)) →
  h' = h ∧ Store.base v = Store.base t.
Proof.
  unfold Store.getitem_trans. destruct (Store.read h t) as [old|]; [|done].
  cbn. destruct (slice_rows (length old) s) as [rows|]; [|by intros [= _ ?]].
  destruct (Store.view rows t) as [v'|] eqn:Hv; [|done]. cbn.
  intros [= <- <-]. split; [done|]. by eapply view_base.
Qed.

Lemma getitem_trans_list l h t h' r :
  Store.getitem_trans (IList l) h t = Some (h', Ok r) →
  (∀ p, p ∈ dom h → h' !! p = h !! p) ∧
  ∀ v, r = Some v → Store.base v ∉ dom h.
Proof.
  unfold Store.getitem_trans. destruct t as [t|].
  - destruct (Store.read h t) as [old|]; [|done]. cbn -[Store.alloc].
    destruct (mapM_r _ l) as [rows|]; [|by intros [= _ ?]].
    destruct (np.take rows old) as [new|]; [|by intros [= _ ?]].
    pose proof (alloc_fresh new h) as Hf.
    pose proof (alloc_lookup new h) as Hl.
    destruct (Store.alloc new h) as [h1 a]. cbn in Hf, Hl. intros [= <- <-].
    split; [done|]. by intros v [= <-].
  - intros [= <- <-]. split; [done|]. by intros v [=].
Qed.

(** The arrays of the sub-ensemble that [__getitem__] builds. *)
Lemma getitem_arrays index h self h' ens :
  Store.__getitem__ index h self = Some (h', Ok (Store.SubEnsemble ens)) →
  (∀ p, p ∈ dom h → h' !! p = h !! p) ∧
  (∀ a, Store.o_coords ens = Some a ∨ Store.o_confs ens = Some a
        ∨ Store.o_weights ens = Some a → Store.base a ∉ dom h) ∧
  Store.o_indices ens = Store.o_indices self ∧
  Store.o_atoms ens = Store.o_atoms self ∧
  match index with
  | ISlice _ =>
    ∀ t, Store.o_trans self = Some t →
      ∃ v, Store.o_trans ens = Some v ∧ Store.base v = Store.base t
  | _ => ∀ v, Store.o_trans ens = Some v → Store.base v ∉ dom h
  end.
Proof.
  unfold Store.__getitem__. destruct (Store.load h self) as [e|]; [|done]. cbn.
  destruct (getitem_msa index e) as [msa|]; [|by intros [= _ ?]].
  destruct index as [i|s|l].
  { intros [= _ Hc]. by destruct (getConformation i e). }
  all: destruct (getitem_ensemble _ msa e) as [ev|]; [|by intros [= _ ?]].
  all: pose proof (alloc_attr_lookup (_coords ev) h) as Hl1.
  all: pose proof (alloc_attr_fresh (_coords ev) h) as Hf1.
  all: destruct (Store.alloc_attr (_coords ev) h) as [h1 coords] eqn:E1.
  all: pose proof (alloc_attr_lookup (_confs ev) h1) as Hl2.
  all: pose proof (alloc_attr_fresh (_confs ev) h1) as Hf2.
  all: destruct (Store.alloc_attr (_confs ev) h1) as [h2 confs] eqn:E2.
  all: pose proof (alloc_attr_lookup (_weights ev) h2) as Hl3.
  all: pose proof (alloc_attr_fresh (_weights ev) h2) as Hf3.
  all: destruct (Store.alloc_attr (_weights ev) h2) as [h3 weights] eqn:E3.
  all: cbn in Hl1, Hf1, Hl2, Hf2, Hl3, Hf3.
  all: assert (∀ p, p ∈ dom h → p ∈ dom h1) as Hd1
    by (intros p Hp; apply elem_of_dom; rewrite Hl1 by done;
        by apply elem_of_dom).
  all: assert (∀ p, p ∈ dom h1 → p ∈ dom h2) as Hd2
    by (intros p Hp; apply elem_of_dom; rewrite Hl2 by done;
        by apply elem_of_dom).
  all: assert (∀ p, p ∈ dom h2 → p ∈ dom h3) as Hd3
    by (intros p Hp; apply elem_of_dom; rewrite Hl3 by done;
        by apply elem_of_dom).
  all: assert (∀ p, p ∈ dom h → h3 !! p = h !! p) as Hl
    by (intros p Hp; rewrite Hl3, Hl2, Hl1; auto).
  all: assert (∀ a, coords = Some a ∨ confs = Some a ∨ weights = Some a →
                 Store.base a ∉ dom h) as Hfresh
    by (intros a [->|[->| ->]] Hin;
        [by apply (Hf1 a)|apply (Hf2 a); auto|apply (Hf3 a); auto]).
  all: destruct (Store.getitem_trans _ h3 (Store.o_trans self))
    as [[h4 [trans|x]]|] eqn:Htr; cbn; [|by intros [= _ ?]|done].
  all: intros [= <- <-]; cbn.
  - destruct (Store.o_trans self) as [t|] eqn:Ht.
    + destruct trans as [v|].
      * apply getitem_trans_slice in Htr as [-> Hb].
        split_and!; [done..|]. intros t' [= <-]. by exists v.
      * unfold Store.getitem_trans in Htr.
        destruct (Store.read h3 t); [|done]. cbn in Htr.
        destruct (slice_rows _ s); [|by simplify_eq].
        destruct (Store.view _ t); cbn in Htr; by simplify_eq.
    + cbn in Htr. injection Htr as <- <-. split_and!; [done..|]. by intros.
  - apply getitem_trans_list in Htr as [Hl4 Hf4].
    split_and!; [|done..|].
    + intros p Hp. rewrite Hl4; auto.
    + intros v -> Hin. apply (Hf4 v); auto.
Qed.

(** C8, what holds of it and what does not.  The arrays of coordinates, of
    conformations and of weights of a sub-ensemble are new, but the matrices
    of a sub-ensemble taken with a slice lie in the buffer of the matrices
    of the ensemble it was taken from. *)
Theorem getitem_slice_shares_trans s h self h' ens t :
  Store.o_trans self = Some t →
  Store.__getitem__ (ISlice s) h self = Some (h', Ok (Store.SubEnsemble ens)) →
  ∃ v, Store.o_trans ens = Some v ∧ Store.base v = Store.base t ∧
       Store.base v ∈ Store.locs self ∧ Store.base v ∈ Store.locs ens.
Proof.
  intros Ht Hget.
  destruct (getitem_arrays _ _ _ _ _ Hget) as (_ & _ & _ & _ & Hshare).
  destruct (Hshare t Ht) as (v & Hv & Hb). exists v.
  split_and!; [done..| |].
  - rewrite Hb. apply locs_elem. auto 10.
  - apply locs_elem. auto 10.
Qed.

End getitem.

(** The first matrix of a sub-ensemble taken with a slice from the tracked
    ensemble is written, and the first matrix of the ensemble has changed
    with it. *)
Lemma getitem_slice_write_reaches_parent :
  let '(h, parent) := stored tracked_ensemble ∅ in
  ∃ h' child t,
    Store.__getitem__ (H:=spec_utilities)
      (ISlice (mkSlice (Some 0%Z) (Some 2%Z) None)) h parent
    = Some (h', Ok (Store.SubEnsemble child)) ∧
    Store.o_trans child = Some t ∧
    (_trans <$> Store.load h' parent) = Some (Some [zeros4; zeros4; zeros4]) ∧
    (_trans <$> Store.load
                  (Store.setitem t 0 (transformation_matrix
                     ((1, 0, 0), (0, 1, 0), (0, 0, 1)) (1, 2, 3))%float h')
                  parent)
    = Some (Some [transformation_matrix
                    ((1, 0, 0), (0, 1, 0), (0, 0, 1)) (1, 2, 3);
                  zeros4; zeros4])%float.
Proof. vm_compute. eexists _, _, _. repeat split. Qed.

Lemma getitem_slice_shares_trans_witness :
  ∃ h' child v,
    Store.__getitem__ (H:=spec_utilities)
      (ISlice (mkSlice (Some 0%Z) (Some 2%Z) None))
      (stored tracked_ensemble ∅).1 (stored tracked_ensemble ∅).2
    = Some (h', Ok (Store.SubEnsemble child)) ∧
    Store.o_trans child = Some v ∧ Store.base v = 4%positive.
Proof.
  eexists _, _, _. split; [vm_compute; reflexivity|].
  edestruct (getitem_slice_shares_trans (H:=spec_utilities)
               (mkSlice (Some 0%Z) (Some 2%Z) None)
               (stored tracked_ensemble ∅).1 (stored tracked_ensemble ∅).2)
    as (v & Hv & Hb & _); [vm_compute; reflexivity..|].
  cbn in Hv. injection Hv as <-. split; reflexivity.
Defined.

Lemma concatenate_inv {A} (a b r : list (list A)) :
  concatenate a b = Ok r → r = a ++ b.
Proof.
  unfold concatenate. destruct a as [|r1 a], b as [|r2 b]; try by intros [= <-].
  case_decide; [by intros [= <-]|done].
Qed.

Lemma seq_lookups_inv {A} (l r : list A) n :
  mapM_r (λ i, need IndexError (l !! i)) (seq 0 n) = Ok r → r = take n l.
Proof.
  intros Hr. destruct (decide (n ≤ length l)) as [Hn|Hn].
  - rewrite take_seq_lookups in Hr by done. by injection Hr.
  - apply mapM_r_Ok in Hr. exfalso.
    assert (seq 0 n !! length l = Some (length l)) as Hl.
    { apply lookup_seq. lia. }
    destruct (Forall2_lookup_l _ _ _ _ _ Hr Hl) as (x & _ & Hx).
    rewrite (lookup_ge_None_2 l (length l)) in Hx by done. done.
Qed.

Lemma keeps_then {A B C} (f : PDBEnsemble → C) (m : method A)
    (k : A → method B) :
  keeps f m → (∀ a, keeps f (k a)) → keeps f (mthen m k).
Proof.
  intros Hm Hk e e' r. unfold mthen.
  destruct (m e) as [e1 [a|x]] eqn:Hme.
  - intros Hka. rewrite (Hk a _ _ _ Hka). by eapply Hm.
  - intros [= <- _]. by eapply Hm.
Qed.

Lemma keeps_read {A B} (f : PDBEnsemble → B) (g : PDBEnsemble → result A) :
  keeps f (mread g).
Proof. by intros e e' r [= <- _]. Qed.

Lemma keeps_return {A B} (f : PDBEnsemble → B) (a : A) : keeps f (mreturn a).
Proof. by intros e e' r [= <- _]. Qed.

Lemma keeps_raise {A B} (f : PDBEnsemble → B) x : keeps f (mraise (A:=A) x).
Proof. by intros e e' r [= <- _]. Qed.

Lemma keeps_assign {B} (f : PDBEnsemble → B) (g : PDBEnsemble → PDBEnsemble) :
  (∀ e, f (g e) = f e) → keeps f (massign g).
Proof. intros Hg e e' r [= <- _]. apply Hg. Qed.

Section addCoordset_defects.
Context `{UtilitiesSpec}.

(** The assignments do not change the atom count, whatever their
    outcome. *)
Lemma commit_n_atoms n_atoms n_confs n_repeats frames weights seqs labels :
  keeps _n_atoms
        (commit n_atoms n_confs n_repeats frames weights seqs labels).
Proof.
  unfold commit, mbind, method_bind.
  repeat first
    [ apply keeps_then; [|intros ?]
    | apply keeps_read | apply keeps_return | apply keeps_raise
    | apply keeps_assign; by intros []
    | match goal with
      | |- keeps _ (match ?x with _ => _ end) => destruct x
      end ].
Qed.

(** When every assignment goes through, the ensemble is the committed
    one. *)
Lemma commit_inv n_atoms n_confs n_repeats frames weights seqs labels e e' :
  commit n_atoms n_confs n_repeats frames weights seqs labels e = (e', Ok ()) →
  e' = committed n_atoms n_confs n_repeats frames weights seqs labels e.
Proof.
  unfold commit, committed, committed_msa.
  unfold mbind, method_bind, mthen, mread, massign, mreturn, mraise.
  destruct e as [title coords na nc ws cs atoms idx labs trans msa]. cbn.
  destruct cs as [oldc|], ws as [oldw|], seqs as [[|s seqs]|], msa as [m|];
    cbn; try destruct (decide (0 < n_confs)); cbn;
    repeat match goal with
      | |- context [concatenate ?a ?b] =>
        let E := fresh "E" in destruct (concatenate a b) eqn:E; cbn
      | |- context [mapM_r ?f ?l] =>
        let E := fresh "E" in destruct (mapM_r f l) eqn:E; cbn
      end;
    intros [= <-];
    repeat match goal with
      | E : concatenate _ _ = Ok _ |- _ => apply concatenate_inv in E as ->
      | E : mapM_r _ _ = Ok _ |- _ => apply seq_lookups_inv in E as ->
      end; reflexivity.
Qed.

Lemma mapM_r_replicate {A B} (f : A → result B) n a r :
  0 < n → mapM_r f (replicate n a) = Ok r →
  ∃ b, f a = Ok b ∧ r = replicate n b.
Proof.
  intros Hn Hr. destruct (f a) as [b|x] eqn:Hb.
  - exists b. split; [done|]. clear Hn. revert r Hr.
    induction n as [|n IH]; intros r; cbn; [by intros [= <-]|].
    rewrite Hb. cbn. destruct (mapM_r f (replicate n a)) as [bs|]; [|done].
    cbn. intros [= <-]. f_equal. by apply IH.
  - destruct n; [lia|]. cbn in Hr. by rewrite Hb in Hr.
Qed.

(** C9.  On an ensemble whose atom count is not fixed yet, a call without
    weights that returns has fixed the atom count from the coordinates and
    has stored, for every coordinate set it kept, a row of no weights at
    all. *)
Theorem addCoordset_first_weights_empty coords label degeneracy sequence
    e e' :
  _n_atoms e = 0 →
  addCoordset (Some coords) None label degeneracy sequence e = (e', Ok ()) →
  _n_atoms e' = array_nodes coords ∧
  ∃ rows, _weights e' = Some (default [] (_weights e) ++ rows) ∧
    length rows = (if degeneracy then 1 `min` length (array_frames coords)
                   else length (array_frames coords)) ∧
    Forall (λ w, w = []) rows.
Proof.
  intros Hn. rewrite addCoordset_stages.
  destruct (check_coordinates e coords) as [[]|]; [|done].
  unfold numAtoms. rewrite decide_True by done.
  destruct (computed _ _ _ _ _ _ _) as [[[[frames ws] seqs] labels]|] eqn:Hc;
    [|done].
  intros ->%commit_inv. split; [by destruct e|].
  exists ws. split; [by destruct e|].
  unfold computed in Hc.
  apply bind_Ok in Hc as (frames' & _ & Hc).
  apply bind_Ok in Hc as (W & [= <-] & Hc).
  apply bind_Ok in Hc as (? & _ & Hc).
  apply bind_Ok in Hc as (? & _ & Hc). injection Hc as _ <- _ _.
  unfold numAtoms. rewrite Hn. cbn [replicate].
  destruct degeneracy.
  - split; [by rewrite length_take, length_replicate|].
    apply Forall_take. by apply Forall_replicate.
  - split; [by rewrite length_replicate|]. by apply Forall_replicate.
Qed.

(** C6.  On an ensemble whose atom count is not fixed yet, a call whose
    coordinates pass the check and which then raises leaves the atom count
    of the coordinates in the ensemble. *)
Theorem addCoordset_raise_fixes_atom_count coords weights label degeneracy
    sequence e e' x :
  _n_atoms e = 0 → checkCoords coords 0 = Ok () →
  addCoordset (Some coords) weights label degeneracy sequence e
    = (e', Raise x) →
  _n_atoms e' = array_nodes coords.
Proof.
  intros Hn Hcheck. rewrite addCoordset_stages.
  unfold check_coordinates, numAtoms. rewrite Hn, Hcheck.
  rewrite decide_True by done.
  destruct (computed _ _ _ _ _ _ _) as [[[[frames ws] seqs] labels]|y].
  - intros Hrun. apply commit_n_atoms in Hrun. rewrite Hrun. by destruct e.
  - intros [= <- _]. by destruct e.
Qed.

(** C4.  With an atom selection and [degeneracy], a stack of frames of as
    many atoms as are selected adds as many conformations as the stack has
    frames, every one of them the first frame scattered into the reference,
    while one weight row is added and the count grows by one. *)
Theorem addCoordset_degenerate_scatter e ref indices frame frames weights
    label sequence e' :
  well_formed e → _coords e = Some ref → _indices e = Some indices →
  indices ≠ [] →
  array_wf (A3 (length indices) (frame :: frames)) →
  addCoordset (Some (A3 (length indices) (frame :: frames))) weights label
              true sequence e = (e', Ok ()) →
  ∃ stored,
    scatter indices frame ref = Ok stored ∧
    _confs e' = Some (default [] (_confs e)
                      ++ replicate (S (length frames)) stored) ∧
    (∃ w, _weights e' = Some (default [] (_weights e) ++ [w])) ∧
    _n_csets e' = _n_csets e + 1.
Proof.
  intros Hwf Href Hidx Hne Hcoords Hrun.
  assert (numSelected e = length indices) as Hns.
  { unfold numSelected. by rewrite Hidx. }
  assert (_n_atoms e ≠ 0) as Hn.
  { pose proof (wf_indices e Hwf _ Hidx) as Hb.
    destruct indices as [|i indices]; [done|].
    apply Forall_cons in Hb as [? _]. lia. }
  assert (numSelected e ≠ 0) as Hs.
  { rewrite Hns. by destruct indices. }
  destruct (addCoordset_outcome e _ weights label true sequence
              Hwf Hcoords Hn Hs) as [[x Hx]|(fr & ws & seqs & labels & Hc & Hr)];
    [congruence|].
  rewrite Hr in Hrun. injection Hrun as <-. cbn.
  pose proof Hc as Hc'. apply computed_inv in Hc' as (_ & (W & -> & HW) & _).
  unfold computed in Hc.
  apply bind_Ok in Hc as (frames' & Hframes & Hc).
  apply bind_Ok in Hc as (? & _ & Hc).
  apply bind_Ok in Hc as (? & _ & Hc).
  apply bind_Ok in Hc as (? & _ & Hc). injection Hc as <- _ _ _.
  cbn [array_nodes array_frames kept_frames] in Hframes.
  rewrite bool_decide_true in Hframes by done.
  assert (isSelected e = true) as Hsel by (apply isSelected_true; by rewrite Hidx).
  rewrite Hsel, Href, Hidx in Hframes. cbn [andb need mbind result_bind] in Hframes.
  assert ((if decide (length (take 1 (frame :: frames))
                      = length (frame :: frames))
           then take 1 (frame :: frames)
           else replicate (length (frame :: frames))
                          (default [] (head (take 1 (frame :: frames)))))
          = replicate (S (length frames)) frame) as Hsrc.
  { case_decide as Hl; [|done]. cbn in Hl. injection Hl as Hl.
    destruct frames; [done|]. cbn in Hl. lia. }
  rewrite Hsrc in Hframes.
  apply mapM_r_replicate in Hframes as (stored & Hst & ->); [|lia].
  exists stored. split_and!; [done..| |].
  - assert (length W = S (length frames)) as HlW.
    { destruct weights as [w|]; cbn in HW.
      - by apply checkWeights_shape in HW as [? _].
      - subst W. cbn. by rewrite length_replicate. }
    destruct W as [|w W]; [done|]. by exists w.
  - destruct (_confs e) eqn:Hcs; [done|]. by rewrite (wf_empty e Hwf).
Qed.

End addCoordset_defects.

(** C9 on a fresh ensemble: the first frame fixes two atoms and is stored
    with an empty row of weights. *)
Lemma addCoordset_first_weights_empty_witness :
  ∃ e', addCoordset (H:=spec_utilities) (Some (A2 [pt 1; pt 2])) None LNone
          false SeqNone fresh_ensemble = (e', Ok ()) ∧
        _n_atoms e' = 2 ∧ _weights e' = Some [[]].
Proof.
  eexists. split; [vm_compute; reflexivity|].
  match goal with
  | |- _n_atoms ?e' = 2 ∧ _ =>
    destruct (addCoordset_first_weights_empty (H:=spec_utilities)
                (A2 [pt 1; pt 2]) LNone false SeqNone fresh_ensemble e'
                eq_refl eq_refl) as (Hn & rows & Hw & Hlen & Hrows)
  end.
  split; [exact Hn|reflexivity].
Defined.

(** C6 on a fresh ensemble: two frames with one label raise, and the
    ensemble that had no atom count has two atoms. *)
Lemma addCoordset_raise_fixes_atom_count_witness :
  ∃ e', addCoordset (H:=spec_utilities)
          (Some (A3 2 [[pt 1; pt 2]; [pt 3; pt 4]])) None (LList ["a"]) false
          SeqNone fresh_ensemble = (e', Raise ValueError) ∧
        _n_atoms fresh_ensemble = 0 ∧ _n_atoms e' = 2.
Proof.
  eexists. split; [vm_compute; reflexivity|]. split; [reflexivity|].
  exact (addCoordset_raise_fixes_atom_count (H:=spec_utilities)
           (A3 2 [[pt 1; pt 2]; [pt 3; pt 4]]) None (LList ["a"]) false
           SeqNone fresh_ensemble _ ValueError eq_refl eq_refl eq_refl).
Defined.

Lemma selected_ensemble_wf : well_formed selected_ensemble.
Proof.
  split; cbn; try (intros ? [= <-]; cbn; repeat constructor); done.
Qed.

(** C4 on the selected ensemble: a degenerate stack of two frames adds two
    conformations and counts one. *)
Lemma addCoordset_degenerate_scatter_witness :
  ∃ e', addCoordset (H:=spec_utilities)
          (Some (A3 2 [[pt 1; pt 2]; [pt 3; pt 4]])) None LNone true SeqNone
          selected_ensemble = (e', Ok ()) ∧
        _confs e' = Some [[pt 1; pt 20; pt 2]; [pt 1; pt 20; pt 2]] ∧
        _n_csets e' = 1.
Proof.
  eexists. split; [vm_compute; reflexivity|].
  match goal with
  | |- _confs ?e' = _ ∧ _ =>
    destruct (addCoordset_degenerate_scatter (H:=spec_utilities)
                selected_ensemble [pt 10; pt 20; pt 30] [0; 2]
                [pt 1; pt 2] [[pt 3; pt 4]] None LNone SeqNone e'
                selected_ensemble_wf eq_refl eq_refl)
      as (stored & Hst & Hconfs & _ & Hn);
      [done|repeat constructor|reflexivity|]
  end.
  split; [reflexivity|exact Hn].
Defined.

(** C3 on the selected ensemble: a frame of two atoms is stored as a frame
    of three, with the reference in the middle. *)
Lemma addCoordset_scatters_selection_witness :
  ∃ e' stored,
    addCoordset (H:=spec_utilities) (Some (A2 [pt 1; pt 2])) None LNone false
      SeqNone selected_ensemble = (e', Ok ()) ∧
    _confs e' = Some [stored] ∧ stored !! 1 = Some (pt 20).
Proof.
  destruct (addCoordset_scatters_selection (H:=spec_utilities)
              selected_ensemble [pt 10; pt 20; pt 30] [0; 2] [pt 1; pt 2]
              LNone selected_ensemble_wf eq_refl eq_refl)
    as (e' & stored & Hrun & Hconfs & _ & _ & Hrest).
  - repeat constructor; set_solver.
  - reflexivity.
  - reflexivity.
  - exists e', stored. split; [exact Hrun|]. split; [exact Hconfs|].
    apply (Hrest 1). set_solver.
Defined.

(** C2 on the still ensemble. *)
Lemma getRMSDs_pairwise_symmetric_witness :
  ∃ M, getRMSDs (H:=first_atom_alignment) true still_ensemble
       = Ok (Some (RMSDMatrix M)) ∧
       length M = 3 ∧ entry M 0 1 = entry M 1 0.
Proof.
  destruct (getRMSDs_pairwise_symmetric (H:=first_atom_alignment)
              still_ensemble _ _ _ still_ensemble_wf eq_refl eq_refl eq_refl)
    as (M & HM & Hlen & _ & Hsym).
  exists M. split; [exact HM|]. split; [exact Hlen|].
  destruct (Hsym 0 1) as (Hs & _); [cbn; lia..|]. exact Hs.
Defined.

(** * Further properties of the code *)

(** ** Indexing *)

(** X8. [getConformation] returns a position exactly when conformations are
    set and the index lies in [[-n, n)], [n] being the number of coordinate
    sets; the position is the index counted from the end when negative, that
    is, the index modulo [n]. *)
Theorem getConformation_position i e k :
  getConformation i e = Ok k ↔
  is_Some (_confs e) ∧
  (- Z.of_nat (_n_csets e) ≤ i < Z.of_nat (_n_csets e))%Z ∧
  Z.of_nat k = (i mod Z.of_nat (_n_csets e))%Z.
Proof.
  unfold getConformation. destruct (_confs e) as [confs|].
  - case_decide as Hr.
    + split.
      * intros [= <-]. split_and!; [by eexists|lia..|].
        case_decide.
        -- rewrite Z2Nat.id by lia.
           rewrite <- (Z.mod_unique_pos i (Z.of_nat (_n_csets e)) (-1)
                         (Z.of_nat (_n_csets e) + i)); lia.
        -- rewrite Z2Nat.id by lia. rewrite Z.mod_small; lia.
      * intros (_ & _ & Hk). f_equal. apply Nat2Z.inj. rewrite Hk.
        case_decide.
        -- rewrite Z2Nat.id by lia.
           rewrite <- (Z.mod_unique_pos i (Z.of_nat (_n_csets e)) (-1)
                         (Z.of_nat (_n_csets e) + i)); lia.
        -- rewrite Z2Nat.id by lia. rewrite Z.mod_small; lia.
    + split; [done|]. intros (_ & ? & _). lia.
  - split; [done|]. by intros ([? ?] & _).
Qed.

(** X10. The rows a slice selects from an axis of [n] rows are rows of the
    axis: taking a slice of the conformations, of the weights or of the labels
    never reads past the end. *)
Theorem slice_rows_in_range n s rows :
  slice_rows n s = Ok rows → Forall (λ r, r < n) rows.
Proof.
  unfold slice_rows, slice_adjust.
  set (step := default 1%Z (slice_step s)).
  destruct (decide (step = 0%Z)) as [|Hstep]; [done|]. cbn.
  set (neg := bool_decide (step < 0)%Z).
  set (lower := if neg then (-1)%Z else 0%Z).
  set (upper := if neg then (Z.of_nat n - 1)%Z else Z.of_nat n).
  set (clamp := λ i : Z,
    if decide (i < 0)%Z then Z.max (i + Z.of_nat n) lower else Z.min i upper).
  set (start := from_option clamp (if neg then upper else lower) (slice_start s)).
  set (stop := from_option clamp (if neg then lower else upper) (slice_stop s)).
  intros [= <-]. apply Forall_forall. intros r Hr.
  apply list_elem_of_fmap in Hr as (k & -> & Hk).
  apply elem_of_seq in Hk as [_ Hk]. cbn in Hk.
  assert (∀ i, lower ≤ clamp i ≤ upper)%Z as Hclamp.
  { intros i. unfold clamp, lower, upper, neg.
    case_bool_decide; destruct (decide (i < 0)%Z); lia. }
  assert (lower ≤ start ≤ upper)%Z as Hstart.
  { unfold start. destruct (slice_start s) as [i|]; cbn; [done|].
    unfold lower, upper, neg. case_bool_decide; lia. }
  assert (lower ≤ stop ≤ upper)%Z as Hstop.
  { unfold stop. destruct (slice_stop s) as [i|]; cbn; [done|].
    unfold lower, upper, neg. case_bool_decide; lia. }
  clearbody start stop. clear clamp Hclamp.
  subst lower upper neg. clearbody step.
  destruct (decide (step < 0)%Z) as [Hneg|Hpos].
  - rewrite bool_decide_true in Hstart, Hstop by done.
    destruct (decide (stop < start)%Z) as [Hlt|]; [|cbn in Hk; lia].
    assert (0 ≤ (start - stop - 1) / - step)%Z as Hq
      by (apply Z.div_pos; lia).
    assert (- step * ((start - stop - 1) / - step) ≤ start - stop - 1)%Z as Hm
      by (apply Z.mul_div_le; lia).
    assert (Z.of_nat k ≤ (start - stop - 1) / - step)%Z as Hkq by lia.
    assert (0 ≤ start + Z.of_nat k * step ≤ start)%Z as [? ?] by nia.
    lia.
  - rewrite bool_decide_false in Hstart, Hstop by done.
    destruct (decide (start < stop)%Z) as [Hlt|]; [|cbn in Hk; lia].
    assert (0 ≤ (stop - start - 1) / step)%Z as Hq
      by (apply Z.div_pos; lia).
    assert (step * ((stop - start - 1) / step) ≤ stop - start - 1)%Z as Hm
      by (apply Z.mul_div_le; lia).
    assert (Z.of_nat k ≤ (stop - start - 1) / step)%Z as Hkq by lia.
    assert (start ≤ start + Z.of_nat k * step < stop)%Z as [? ?] by nia.
    lia.
Qed.

Lemma slice_rows_in_range_witness :
  slice_rows 3 (mkSlice None None (Some (-2)%Z)) = Ok [2; 0] ∧
  Forall (λ r, r < 3) [2; 0].
Proof.
  split; [reflexivity|].
  exact (slice_rows_in_range 3 (mkSlice None None (Some (-2)%Z)) [2; 0]
           eq_refl).
Defined.

(** ** Sub-ensembles and the arrays they share *)

Lemma load_ext h h' o :
  (∀ p, p ∈ Store.locs o → h' !! p = h !! p) →
  Store.load h' o = Store.load h o.
Proof.
  intros Heq. unfold Store.load.
  rewrite (read_attr_ext (A:=vec3) h h' (Store.o_coords o))
    by (intros b Hb; apply Heq, locs_elem; auto).
  rewrite (read_attr_ext (A:=weightset) h h' (Store.o_weights o))
    by (intros b Hb; apply Heq, locs_elem; auto).
  rewrite (read_attr_ext (A:=coordset) h h' (Store.o_confs o))
    by (intros b Hb; apply Heq, locs_elem; auto).
  rewrite (read_attr_ext (A:=nat) h h' (Store.o_indices o))
    by (intros b Hb; apply Heq, locs_elem; auto 10).
  rewrite (read_attr_ext (A:=mat4) h h' (Store.o_trans o))
    by (intros b Hb; apply Heq, locs_elem; auto 10).
  done.
Qed.

Lemma load_locs_in_dom h o e p :
  Store.load h o = Some e → p ∈ Store.locs o → p ∈ dom h.
Proof.
  intros Hload Hp.
  destruct (load_inv h o e Hload) as (Hc & Hws & Hcs & Hi & Ht & _).
  unfold Store.locs in Hp.
  apply list_elem_of_fmap in Hp as (a & -> & Ha).
  apply list_elem_of_omap in Ha as (oa & Hoa & Hid). cbn in Hid. subst oa.
  rewrite !elem_of_cons, elem_of_nil in Hoa.
  destruct Hoa as [Hoa|[Hoa|[Hoa|[Hoa|[Hoa|[]]]]]].
  - by eapply (read_attr_in_dom (A:=vec3)).
  - by eapply (read_attr_in_dom (A:=weightset)).
  - by eapply (read_attr_in_dom (A:=coordset)).
  - by eapply (read_attr_in_dom (A:=nat)).
  - by eapply (read_attr_in_dom (A:=mat4)).
Qed.

Section sharing.
Context `{Utilities}.

(** X11. The reference, the conformations and the weights of a sub-ensemble
    are arrays of their own: whatever is written into one of them, the
    ensemble it was taken from holds what it held. *)
Theorem getitem_copies_spare_parent {A} `{Store.Rowlike A} index h self e h'
    ens a k (x : A) :
  Store.load h self = Some e →
  Store.__getitem__ index h self = Some (h', Ok (Store.SubEnsemble ens)) →
  Store.o_coords ens = Some a ∨ Store.o_confs ens = Some a
  ∨ Store.o_weights ens = Some a →
  Store.load (Store.setitem a k x h') self = Some e.
Proof.
  intros Hload Hget Ha.
  destruct (getitem_arrays _ _ _ _ _ Hget) as (Hsame & Hfresh & _).
  rewrite <- Hload. apply load_ext. intros p Hp.
  pose proof (load_locs_in_dom h self e p Hload Hp) as Hdom.
  unfold Store.setitem. destruct (Store.buffer_row a k); [|by apply Hsame].
  rewrite lookup_alter_ne; [by apply Hsame|].
  intros <-. by apply (Hfresh a Ha).
Qed.

(** X12. And whatever is written into an array of the ensemble, the reference,
    the conformations and the weights of a sub-ensemble taken from it before
    show what they showed. *)
Theorem getitem_parent_spares_copies {A} `{Store.Rowlike A} index h self e h'
    ens a b k (x : A) :
  Store.load h self = Some e →
  Store.__getitem__ index h self = Some (h', Ok (Store.SubEnsemble ens)) →
  Store.o_coords ens = Some a ∨ Store.o_confs ens = Some a
  ∨ Store.o_weights ens = Some a →
  Store.base b ∈ Store.locs self →
  Store.read_rows (Store.setitem b k x h') a = Store.read_rows h' a.
Proof.
  intros Hload Hget Ha Hb.
  destruct (getitem_arrays _ _ _ _ _ Hget) as (Hsame & Hfresh & _).
  apply read_rows_ext. unfold Store.setitem.
  destruct (Store.buffer_row b k); [|done].
  apply lookup_alter_ne. intros Heq. apply (Hfresh a Ha).
  rewrite <- Heq. by eapply load_locs_in_dom.
Qed.

(** X13. The matrices of a sub-ensemble taken with an index list are an array
    of their own as well; the array of selected indices and the atoms are
    those of the ensemble, for a slice and for a list alike. *)
Theorem getitem_list_trans_is_new l h self e h' ens :
  Store.load h self = Some e →
  Store.__getitem__ (IList l) h self
    = Some (h', Ok (Store.SubEnsemble ens)) →
  (∀ v, Store.o_trans ens = Some v → Store.base v ∉ Store.locs self) ∧
  Store.o_indices ens = Store.o_indices self ∧
  Store.o_atoms ens = Store.o_atoms self.
Proof.
  intros Hload Hget.
  destruct (getitem_arrays _ _ _ _ _ Hget) as (_ & _ & Hi & Ha & Hnew).
  split_and!; [|done..]. intros v Hv Hin.
  apply (Hnew v Hv). by eapply load_locs_in_dom.
Qed.

End sharing.

Lemma getitem_copies_spare_parent_witness :
  ∃ h' child a,
    Store.__getitem__ (H:=spec_utilities)
      (ISlice (mkSlice (Some 0%Z) (Some 2%Z) None))
      (stored tracked_ensemble ∅).1 (stored tracked_ensemble ∅).2
    = Some (h', Ok (Store.SubEnsemble child)) ∧
    Store.o_confs child = Some a ∧
    Store.load (Store.setitem a 0 [pt 7; pt 8] h')
               (stored tracked_ensemble ∅).2 = Some tracked_ensemble.
Proof.
  eexists _, _, _. split; [vm_compute; reflexivity|].
  split; [reflexivity|].
  eapply (getitem_copies_spare_parent (H:=spec_utilities)
            (ISlice (mkSlice (Some 0%Z) (Some 2%Z) None))
            (stored tracked_ensemble ∅).1 (stored tracked_ensemble ∅).2).
  - vm_compute. reflexivity.
  - vm_compute. reflexivity.
  - right. left. reflexivity.
Defined.

Lemma getitem_parent_spares_copies_witness :
  ∃ h' child a b,
    Store.__getitem__ (H:=spec_utilities)
      (ISlice (mkSlice (Some 0%Z) (Some 2%Z) None))
      (stored tracked_ensemble ∅).1 (stored tracked_ensemble ∅).2
    = Some (h', Ok (Store.SubEnsemble child)) ∧
    Store.o_confs child = Some a ∧
    Store.o_confs (stored tracked_ensemble ∅).2 = Some b ∧
    Store.read_rows (Store.setitem b 0 [pt 7; pt 8] h') a
    = Store.read_rows h' a.
Proof.
  eexists _, _, _, _. split; [vm_compute; reflexivity|].
  split; [reflexivity|]. split; [vm_compute; reflexivity|].
  eapply (getitem_parent_spares_copies (H:=spec_utilities)
            (ISlice (mkSlice (Some 0%Z) (Some 2%Z) None))
            (stored tracked_ensemble ∅).1 (stored tracked_ensemble ∅).2).
  - vm_compute. reflexivity.
  - vm_compute. reflexivity.
  - right. left. reflexivity.
  - vm_compute. set_solver.
Defined.

Lemma getitem_list_trans_is_new_witness :
  ∃ h' child v,
    Store.__getitem__ (H:=spec_utilities) (IList [0%Z; 1%Z])
      (stored tracked_ensemble ∅).1 (stored tracked_ensemble ∅).2
    = Some (h', Ok (Store.SubEnsemble child)) ∧
    Store.o_trans child = Some v ∧
    Store.base v ∉ Store.locs (stored tracked_ensemble ∅).2.
Proof.
  eexists _, _, _. split; [vm_compute; reflexivity|].
  split; [reflexivity|].
  eapply (getitem_list_trans_is_new (H:=spec_utilities) [0%Z; 1%Z]
            (stored tracked_ensemble ∅).1 (stored tracked_ensemble ∅).2).
  - vm_compute. reflexivity.
  - vm_compute. reflexivity.
  - reflexivity.
Defined.

(** ** The theorems on concrete ensembles *)

Lemma addCoordset_keeps_well_formed_witness :
  ∃ e', addCoordset (H:=spec_utilities) (Some (A2 [pt 1; pt 2])) None LNone
          false SeqNone still_ensemble = (e', Ok ()) ∧
        well_formed e' ∧ _n_csets e' = 4.
Proof.
  eexists. split; [vm_compute; reflexivity|].
  match goal with
  | |- well_formed ?e' ∧ _ =>
    destruct (addCoordset_keeps_well_formed (U:=spec_utilities)
                (checkCoords_fits (H:=spec_utilities)) still_ensemble
                (A2 [pt 1; pt 2]) LNone SeqNone e' still_ensemble_wf)
      as (Hwf & Hn & _)
  end.
  - repeat constructor.
  - cbn. lia.
  - cbn. lia.
  - done.
  - by left.
  - vm_compute. reflexivity.
  - split; [exact Hwf|exact Hn].
Defined.

Lemma addCoordset_atomic_witness :
  addCoordset (H:=spec_utilities)
    (Some (A3 2 [[pt 1; pt 2]; [pt 3; pt 4]])) None (LList ["a"]) false
    SeqNone still_ensemble = (still_ensemble, Raise ValueError).
Proof.
  assert (∃ e', addCoordset (H:=spec_utilities)
            (Some (A3 2 [[pt 1; pt 2]; [pt 3; pt 4]])) None (LList ["a"]) false
            SeqNone still_ensemble = (e', Raise ValueError)) as [e' Hrun].
  { eexists. vm_compute. reflexivity. }
  rewrite Hrun. f_equal.
  eapply (addCoordset_atomic (U:=spec_utilities)
            (checkCoords_fits (H:=spec_utilities)) still_ensemble
            (Some (A3 2 [[pt 1; pt 2]; [pt 3; pt 4]])) (LList ["a"]) false
            e' ValueError still_ensemble_wf);
    [|cbn; lia|cbn; lia|reflexivity|reflexivity|exact Hrun].
  repeat constructor.
Defined.

Lemma addCoordset_default_weights_witness :
  ∃ e', addCoordset (H:=spec_utilities) (Some (A2 [pt 1; pt 2])) None LNone
          false SeqNone still_ensemble = (e', Ok ()) ∧
        _weights e' = Some [[1; 0]; [1; 0]; [1; 0]; [1; 1]]%float.
Proof.
  eexists. split; [vm_compute; reflexivity|].
  match goal with
  | |- _weights ?e' = _ =>
    exact (addCoordset_default_weights (H:=spec_utilities) still_ensemble
             (A2 [pt 1; pt 2]) LNone false SeqNone e' still_ensemble_wf
             ltac:(repeat constructor) ltac:(cbn; lia) ltac:(cbn; lia)
             eq_refl)
  end.
Defined.

Lemma addCoordset_degenerate_first_witness :
  ∃ e', addCoordset (H:=spec_utilities)
          (Some (A3 2 [[pt 1; pt 2]; [pt 3; pt 4]])) None LNone true SeqNone
          still_ensemble = (e', Ok ()) ∧
        _n_csets e' = 4 ∧
        _confs e' = Some (default [] (_confs still_ensemble) ++ [[pt 1; pt 2]]).
Proof.
  eexists. split; [vm_compute; reflexivity|].
  match goal with
  | |- _n_csets ?e' = _ ∧ _ =>
    destruct (addCoordset_degenerate_first (H:=spec_utilities) still_ensemble
                2 [pt 1; pt 2] [[pt 3; pt 4]] None LNone SeqNone e'
                still_ensemble_wf)
      as (Hconfs & _ & Hn)
  end.
  - repeat constructor.
  - cbn. lia.
  - cbn. lia.
  - by left.
  - vm_compute. reflexivity.
  - split; [exact Hn|exact Hconfs].
Defined.

Lemma getCoordsets_substitutes_reference_witness :
  ∃ out, getCoordsets None true still_ensemble = Ok (Some (Stack out)) ∧
    out !! 1 = Some [(tenth, 0, 0); (1, 0, 0)]%float.
Proof.
  destruct (getCoordsets_substitutes_reference still_ensemble true _ _ _
              still_ensemble_wf eq_refl eq_refl eq_refl)
    as (out & Hout & _ & _).
  exists out. split; [exact Hout|].
  vm_compute in Hout. injection Hout as <-. reflexivity.
Defined.


(** The tracked ensemble without its weights: [weights[i]] raises. *)
Lemma superpose_raise_keeps_trans_witness :
  ∃ e', _superpose (H:=first_atom_alignment) false
          (set_weights None tracked_ensemble) = (e', Raise TypeError) ∧
        _trans e' = Some [zeros4; zeros4; zeros4].
Proof.
  eexists. split; [vm_compute; reflexivity|].
  match goal with
  | |- _trans ?e' = _ =>
    exact (_superpose_raise_keeps_trans (H:=first_atom_alignment) false
             (set_weights None tracked_ensemble) e' TypeError eq_refl)
  end.
Defined.

(** * Concatenation *)

Section concatenation_facts.
Context `{UtilitiesSpec}.

Lemma stack_wf n (confs : list coordset) :
  Forall (λ c, length c = n) confs → array_wf (A3 (shape1 n confs) confs).
Proof. intros Hc. unfold array_wf. cbn. by rewrite shape1_wf. Qed.

(** A successful [addCoordset] of a whole stack with its labels, onto an
    ensemble without atom selection: the stack and the labels are appended
    as they are. *)
Lemma addCoordset_stack e n (confs : list coordset) weights labels sequence e' :
  well_formed e → _n_atoms e ≠ 0 → _indices e = None →
  Forall (λ c, length c = n) confs → confs ≠ [] →
  length labels = length confs →
  addCoordset (Some (A3 (shape1 n confs) confs)) weights (LList labels) false
              sequence e = (e', Ok ()) →
  well_formed e' ∧
  _confs e' = Some (default [] (_confs e) ++ confs) ∧
  _labels e' = _labels e ++ labels ∧
  _n_csets e' = _n_csets e + length confs ∧
  _coords e' = _coords e ∧ _n_atoms e' = _n_atoms e ∧
  _indices e' = None ∧ _trans e' = _trans e ∧ _atoms e' = _atoms e ∧
  _title e' = _title e ∧ is_Some (_weights e').
Proof.
  intros Hwf Hn Hidx Hconfs Hne Hlen Hrun.
  assert (numSelected e = _n_atoms e) as Hns.
  { unfold numSelected. by rewrite Hidx. }
  destruct (addCoordset_grows e (A3 (shape1 n confs) confs) weights
              (LList labels) sequence e')
    as (frames & ws & seqs & labs & Hc & -> & Hwf' & Hll & Hcount);
    [done|by apply stack_wf|done|by rewrite Hns|done| |done|].
  { right. right. by exists labels. }
  apply computed_inv in Hc as (Hfr & _ & Hlabs).
  cbn [array_frames] in *.
  rewrite resolve_labels_list in Hlabs;
    [|done|destruct confs; [done|cbn; lia]].
  injection Hlabs as <-.
  assert (frames = confs) as ->.
  { apply Hfr. unfold isSelected. rewrite Hidx.
    rewrite (bool_decide_false (is_Some None)) by apply is_Some_None.
    apply andb_false_r. }
  cbn. split_and!; done.
Qed.

Lemma new_ensemble_setCoords title (ref : coordset) :
  setCoords (Some ref) (new_ensemble title)
  = (mkEnsemble title (Some ref) (length ref) 0 None None None None [] None
                None, Ok ()).
Proof. done. Qed.

(** X14. [self + other], when it returns, is an ensemble with the reference
    coordinates of [self], the conformations of [self] followed by those of
    [other], their labels in the same order, and one weight row per
    conformation; it is well formed, holds no transformations, and has the
    atom selection of [self] if [self] has atoms and that of [other]
    otherwise. *)
Theorem add_concatenates self other ens ref c1 c2 :
  well_formed self → well_formed other → _n_atoms self ≠ 0 →
  _coords self = Some ref → _confs self = Some c1 → _confs other = Some c2 →
  c1 ≠ [] → c2 ≠ [] →
  __add__ self other = Ok ens →
  well_formed ens ∧
  _coords ens = Some ref ∧ _confs ens = Some (c1 ++ c2) ∧
  _labels ens = _labels self ++ _labels other ∧
  _n_csets ens = _n_csets self + _n_csets other ∧
  _n_atoms ens = _n_atoms self ∧ _trans ens = None ∧
  _indices ens = match _atoms self with
                 | Some _ => _indices self
                 | None => _indices other
                 end.
Proof.
  intros Hwf1 Hwf2 Hn Href Hc1 Hc2 Hne1 Hne2. unfold __add__, numAtoms.
  case_decide as Hsame; [done|].
  destruct (wf_confs _ Hwf1 _ Hc1) as [Hl1 Hr1].
  destruct (wf_confs _ Hwf2 _ Hc2) as [Hl2 Hr2].
  pose proof (wf_coords _ Hwf1 _ Href) as Hlr.
  rewrite Href, new_ensemble_setCoords. cbn [mbind result_bind].
  set (e0 := mkEnsemble _ (Some ref) (length ref) 0 None None None None []
                        None None).
  assert (well_formed e0) as Hwf0
    by (split; cbn; try done; by intros ? [= <-]).
  rewrite Hc1. unfold stack_arg. rewrite Hc1, Hc2. cbn [fmap option_fmap option_map].
  destruct (addCoordset _ _ _ _ _ e0) as [e1 [[]|x]] eqn:Hrun1; [|done].
  cbn [mbind result_bind].
  destruct (addCoordset_stack e0 (_n_atoms self) c1 (W3 <$> _weights self)
              (_labels self) (msa_arg self) e1 Hwf0)
    as (Hwf1' & Hcs1 & Hlab1 & Hcount1 & Hco1 & Hna1 & Hi1 & Ht1 & Ha1 & _);
    [cbn; lia|done|done|done|by rewrite (wf_labels _ Hwf1)|exact Hrun1|].
  destruct (addCoordset _ _ _ _ _ e1) as [e2 [[]|x]] eqn:Hrun2; [|done].
  cbn [mbind result_bind].
  destruct (addCoordset_stack e1 (_n_atoms other) c2 (W3 <$> _weights other)
              (_labels other) (msa_arg other) e2 Hwf1')
    as (Hwf2' & Hcs2 & Hlab2 & Hcount2 & Hco2 & Hna2 & Hi2 & Ht2 & Ha2 & _);
    [rewrite Hna1; cbn; lia|done|done|done|by rewrite (wf_labels _ Hwf2)
    |exact Hrun2|].
  cbn in Hcs1, Hlab1, Hcount1, Hco1, Hna1, Ht1.
  rewrite Hcs1 in Hcs2. rewrite Hlab1 in Hlab2. rewrite Hcount1 in Hcount2.
  rewrite Hco1 in Hco2. rewrite Hna1 in Hna2. rewrite Ht1 in Ht2.
  cbn in Hcs2, Hlab2.
  assert (∀ idx, from_option (Forall (λ i, i < _n_atoms e2)) True idx →
            ∀ atoms, well_formed (set_indices idx (set_atoms atoms e2)))
    as Hfinal.
  { intros idx Hidx atoms. destruct Hwf2'. split; try (by destruct e2).
    intros indices. destruct e2. cbn. intros ->. done. }
  assert (∀ e, well_formed e → _n_atoms e = _n_atoms e2 →
            from_option (Forall (λ i, i < _n_atoms e2)) True (_indices e))
    as Hin.
  { intros e Hwfe Hne. destruct (_indices e) as [idx|] eqn:Hidx; [|done].
    cbn. rewrite <- Hne. by apply (wf_indices e Hwfe). }
  unfold setAtoms, mthen, massign.
  destruct (_atoms self) as [a|]; cbn [mbind result_bind].
  - intros [= <-]. split_and!; try (by destruct e2).
    + apply Hfinal, Hin; [done|lia].
    + destruct e2; cbn in *. lia.
    + destruct e2; cbn in *. lia.
  - intros [= <-]. split_and!; try (by destruct e2).
    + apply Hfinal, Hin; [done|lia].
    + destruct e2; cbn in *. lia.
    + destruct e2; cbn in *. lia.
Qed.

End concatenation_facts.

Lemma add_concatenates_witness :
  ∃ ens, __add__ (H:=spec_utilities) still_ensemble still_ensemble = Ok ens ∧
    _n_csets ens = 6 ∧ _labels ens = ["a"; "b"; "c"; "a"; "b"; "c"].
Proof.
  eexists. split; [vm_compute; reflexivity|].
  match goal with
  | |- _n_csets ?ens = _ ∧ _ =>
    destruct (add_concatenates (H:=spec_utilities) still_ensemble
                still_ensemble ens _ _ _ still_ensemble_wf still_ensemble_wf
                ltac:(cbn; lia) eq_refl eq_refl eq_refl ltac:(done)
                ltac:(done) eq_refl)
      as (_ & _ & _ & Hlab & Hn & _)
  end.
  split; [exact Hn|exact Hlab].
Defined.

(** * Deleting coordinate sets *)

(** ** Sorting *)

Lemma insert_desc_perm i l : insert_desc i l ≡ₚ i :: l.
Proof.
  induction l as [|j l IH]; [done|]. cbn. case_decide; [done|].
  rewrite IH. apply Permutation_swap.
Qed.

Lemma sort_desc_perm l : sort_desc l ≡ₚ l.
Proof.
  induction l as [|i l IH]; [done|]. cbn.
  by rewrite insert_desc_perm, IH.
Qed.

Lemma insert_desc_sorted i l :
  StronglySorted (λ a b, (b ≤ a)%Z) l →
  StronglySorted (λ a b, (b ≤ a)%Z) (insert_desc i l).
Proof.
  induction 1 as [|j l Hl IH Hj]; cbn; [by repeat constructor|].
  case_decide as Hij.
  - constructor; [by constructor|]. constructor; [done|].
    eapply Forall_impl; [exact Hj|]. cbn. intros; lia.
  - constructor; [done|]. rewrite insert_desc_perm.
    constructor; [lia|done].
Qed.

Lemma sort_desc_sorted l : StronglySorted (λ a b, (b ≤ a)%Z) (sort_desc l).
Proof.
  induction l as [|i l IH]; cbn; [constructor|]. by apply insert_desc_sorted.
Qed.

Lemma sorted_strict l :
  StronglySorted (λ a b, (b ≤ a)%Z) l → NoDup l →
  StronglySorted (λ a b, (b < a)%Z) l.
Proof.
  induction 1 as [|i l Hl IH Hi]; intros Hnd; [constructor|].
  apply NoDup_cons in Hnd as [Hni Hnd]. constructor; [by apply IH|].
  apply Forall_forall. intros j Hj.
  pose proof (proj1 (Forall_forall _ _) Hi j Hj) as Hle. cbn in Hle.
  assert (j ≠ i) by (by intros ->). lia.
Qed.

(** ** Popping from the largest index down *)

Lemma filter_ext_in {A} (P Q : A → Prop) `{!∀ x, Decision (P x)}
    `{!∀ x, Decision (Q x)} (l : list A) :
  (∀ x, x ∈ l → P x ↔ Q x) → filter P l = filter Q l.
Proof.
  induction l as [|a l IH]; intros Hpq; [done|].
  rewrite !filter_cons.
  rewrite IH by (intros x Hx; apply Hpq; by right).
  destruct (decide (P a)) as [Hp|Hp], (decide (Q a)) as [Hq|Hq]; try done.
  - destruct Hq. apply Hpq; [by left|done].
  - destruct Hp. apply Hpq; [by left|done].
Qed.

Lemma filter_all {A} (P : A → Prop) `{!∀ x, Decision (P x)} (l : list A) :
  Forall P l → filter P l = l.
Proof.
  induction 1 as [|a l Ha _ IH]; [done|].
  by rewrite filter_cons_True, IH.
Qed.

Lemma positions_left_cons (i : Z) s n :
  (0 ≤ i < Z.of_nat n)%Z → Forall (λ j, (0 ≤ j < i)%Z) s →
  positions_left (i :: s) n
  = (λ p, if decide (p < Z.to_nat i) then p else S p)
    <$> positions_left s (n - 1).
Proof.
  intros Hi Hs. unfold positions_left.
  set (k := Z.to_nat i).
  assert (Z.of_nat k = i) as Hk by (unfold k; lia). clearbody k.
  assert (∀ p, k ≤ p → Z.of_nat p ∉ s) as Habove.
  { intros p Hp Hin. pose proof (proj1 (Forall_forall _ _) Hs _ Hin) as Hlt.
    cbn in Hlt. lia. }
  set (m := n - 1 - k).
  assert (seq 0 n = seq 0 k ++ k :: seq (S k) m) as ->.
  { replace n with (k + S m) by (unfold m; lia). by rewrite seq_app. }
  assert (seq 0 (n - 1) = seq 0 k ++ seq k m) as ->.
  { replace (n - 1) with (k + m) by (unfold m; lia). by rewrite seq_app. }
  clearbody m.
  rewrite !filter_app, fmap_app. f_equal.
  - rewrite (filter_ext_in _ (λ p, Z.of_nat p ∉ s)).
    + symmetry. erewrite list_fmap_ext; [apply list_fmap_id|].
      intros j p Hp. apply list_elem_of_lookup_2 in Hp.
      apply list_elem_of_filter in Hp as [_ Hp].
      apply elem_of_seq in Hp. rewrite decide_True by lia. done.
    + intros p Hp. apply elem_of_seq in Hp. rewrite not_elem_of_cons.
      split; [by intros [_ ?]|]. intros Hps. split; [lia|done].
  - rewrite filter_cons_False by (intros Hn; apply Hn; rewrite Hk; by left).
    rewrite (filter_all _ (seq (S k) m)).
    + rewrite (filter_all _ (seq k m)).
      * rewrite <- fmap_S_seq. apply list_fmap_ext.
        intros j p Hp. apply list_elem_of_lookup_2, elem_of_seq in Hp.
        by rewrite decide_False by lia.
      * apply Forall_forall. intros p Hp. apply elem_of_seq in Hp.
        apply Habove. lia.
    + apply Forall_forall. intros p Hp. apply elem_of_seq in Hp.
      rewrite not_elem_of_cons. split; [lia|]. apply Habove. lia.
Qed.

(** Popping the positions of a strictly descending list of indices leaves
    the entries at the other positions, in their order. *)
Lemma pops_descending {A} (s : list Z) : ∀ l : list A,
  StronglySorted (λ a b, (b < a)%Z) s →
  Forall (λ i, (0 ≤ i < Z.of_nat (length l))%Z) s →
  ∃ l', foldM (λ l i, pop i l) l s = Ok l' ∧
        picks (positions_left s (length l)) l l'.
Proof.
  induction s as [|i s IH]; intros l Hsorted Hrange.
  - exists l. split; [done|]. unfold positions_left.
    rewrite filter_all; [apply picks_seq|].
    apply Forall_forall. intros ? _. apply not_elem_of_nil.
  - apply StronglySorted_inv in Hsorted as [Hsorted Hi].
    apply Forall_cons in Hrange as [Hir Hrange].
    assert (Forall (λ j, (0 ≤ j < i)%Z) s) as Hbelow.
    { apply Forall_forall. intros j Hj.
      pose proof (proj1 (Forall_forall _ _) Hi j Hj).
      pose proof (proj1 (Forall_forall _ _) Hrange j Hj). cbn in *. lia. }
    cbn [foldM]. unfold pop at 2, norm_index.
    rewrite decide_True by done. cbn [mbind result_bind].
    set (k := Z.to_nat i).
    assert (length (delete k l) = length l - 1) as Hlen.
    { rewrite length_delete; [lia|]. apply lookup_lt_is_Some. lia. }
    destruct (IH (delete k l) Hsorted) as (l' & Hrun & Hpicks).
    { eapply Forall_impl; [exact Hbelow|]. cbn. intros j Hj. lia. }
    exists l'. split; [done|].
    rewrite positions_left_cons by done. rewrite Hlen in Hpicks.
    unfold picks in *. apply Forall2_fmap_l.
    eapply Forall2_impl; [exact Hpicks|]. cbn. intros p x Hp.
    fold k. case_decide.
    + by rewrite list_lookup_delete_lt in Hp.
    + by rewrite list_lookup_delete_ge in Hp by lia.
Qed.

Lemma picks_inj {A} sel (l a b : list A) : picks sel l a → picks sel l b → a = b.
Proof.
  unfold picks. revert a b. induction sel as [|i sel IH]; intros a b Ha Hb.
  - by inversion Ha; inversion Hb.
  - inversion Ha as [|? x ? a' Hx Ha']; inversion Hb as [|? y ? b' Hy Hb'];
      subst. f_equal; [congruence|by apply IH].
Qed.

Lemma set_labels_twice a b e : set_labels a (set_labels b e) = set_labels a e.
Proof. by destruct e. Qed.

Lemma set_labels_same e : set_labels (_labels e) e = e.
Proof. by destruct e. Qed.

(** The loop over the sorted indices, when no [pop] raises. *)
Lemma mfor_pops s : ∀ e l',
  foldM (λ l i, pop i l) (_labels e) s = Ok l' →
  mfor s (λ i, labels ← mread (λ e, pop i (_labels e));
               massign (set_labels labels)) e
  = (set_labels l' e, Ok ()).
Proof.
  induction s as [|i s IH]; intros e l' Hrun.
  - injection Hrun as <-. by rewrite set_labels_same.
  - cbn [foldM] in Hrun. apply bind_Ok in Hrun as (l1 & Hpop & Hrun).
    cbn [mfor]. unfold mthen at 1.
    unfold mbind at 1, method_bind at 1, mthen at 1, mread at 1.
    rewrite Hpop. unfold massign at 1.
    rewrite (IH (set_labels l1 e) l') by (by destruct e).
    by rewrite set_labels_twice.
Qed.

(** X15. For distinct indices, each the number of a label, the statements of
    [delCoordset] that follow the call of the base class return; the labels
    they leave are the labels at the positions that are not in [index], in
    their order, in whatever order the indices were given; nothing else of the
    ensemble changes but the alignment, which keeps the rows at the same
    positions, so that an alignment labelled like the ensemble stays labelled
    like it. *)
Theorem delCoordset_labels_pruned index e :
  NoDup index →
  Forall (λ i, (0 ≤ i < Z.of_nat (length (_labels e)))%Z) index →
  (∀ m, _msa e = Some m → length (msa_labels m) = length (msa_seqs m)) →
  ∃ labels msa,
    delCoordset_labels index e = (set_msa msa (set_labels labels e), Ok ()) ∧
    picks (positions_left index (length (_labels e))) (_labels e) labels ∧
    match _msa e with
    | None => msa = None
    | Some m =>
      ∃ m', msa = Some m' ∧
        picks (positions_left index (length (msa_seqs m))) (msa_seqs m)
              (msa_seqs m') ∧
        picks (positions_left index (length (msa_seqs m))) (msa_labels m)
              (msa_labels m') ∧
        (msa_labels m = _labels e → msa_labels m' = labels)
    end.
Proof.
  intros Hnd Hrange Hmsa.
  assert (∀ n, positions_left (sort_desc index) n = positions_left index n)
    as Hsame.
  { intros n. unfold positions_left. apply list_filter_iff. intros p.
    by rewrite (sort_desc_perm index). }
  destruct (pops_descending (sort_desc index) (_labels e))
    as (labels & Hpops & Hpicks).
  { apply sorted_strict; [apply sort_desc_sorted|].
    by rewrite sort_desc_perm. }
  { apply Forall_forall. intros j Hj. rewrite sort_desc_perm in Hj.
    by apply (proj1 (Forall_forall _ _) Hrange). }
  rewrite Hsame in Hpicks.
  unfold delCoordset_labels.
  unfold mbind at 1, method_bind at 1, mthen at 1.
  rewrite (mfor_pops _ e labels Hpops).
  unfold mbind at 1, method_bind at 1, mthen at 1, mread at 1.
  assert (_msa (set_labels labels e) = _msa e) as -> by (by destruct e).
  destruct (_msa e) as [m|] eqn:Hm.
  - specialize (Hmsa m eq_refl).
    fold (positions_left (sort_desc index) (length (msa_seqs m))).
    rewrite Hsame.
    set (rest := positions_left index (length (msa_seqs m))).
    assert (Forall (λ p, p < length (msa_seqs m)) rest) as Hrest.
    { apply Forall_forall. intros p Hp. unfold rest, positions_left in Hp.
      apply list_elem_of_filter in Hp as [_ Hp]. apply elem_of_seq in Hp.
      lia. }
    destruct (take_total rest (msa_seqs m) Hrest) as [seqs Hseqs].
    destruct (take_total rest (msa_labels m)) as [labs Hlabs];
      [by rewrite Hmsa|].
    unfold mbind, method_bind, mthen, mread, massign, msa_rows.
    rewrite Hseqs, Hlabs. cbn.
    exists labels, (Some (mkMSA seqs (msa_title m) labs)).
    apply take_Ok in Hseqs, Hlabs.
    split_and!; [done..|]. eexists. split_and!; [done..|].
    cbn. intros Heq. rewrite Heq in Hlabs.
    assert (length (msa_seqs m) = length (_labels e)) as Hlen by congruence.
    unfold rest in Hlabs. rewrite Hlen in Hlabs.
    by eapply picks_inj.
  - exists labels, None. split_and!; [|done..].
    unfold mreturn. f_equal. destruct e; cbn in *. by subst.
Qed.

(** X16. For a single negative index [i] with [-n <= i < 0], [n] the number of
    labels, the label counted from the end is removed, but the alignment keeps
    every row: no row number is negative. *)
Theorem delCoordset_negative_index_keeps_rows i e m :
  (- Z.of_nat (length (_labels e)) ≤ i < 0)%Z →
  _msa e = Some m → length (msa_labels m) = length (msa_seqs m) →
  delCoordset_labels [i] e
  = (set_labels (delete (Z.to_nat (Z.of_nat (length (_labels e)) + i))
                        (_labels e)) e, Ok ()).
Proof.
  intros Hi Hm Hlen. unfold delCoordset_labels. cbn [sort_desc foldr insert_desc].
  unfold mbind at 1, method_bind at 1, mthen at 1.
  rewrite (mfor_pops [i] e
             (delete (Z.to_nat (Z.of_nat (length (_labels e)) + i)) (_labels e))).
  2:{ cbn. unfold pop, norm_index. rewrite decide_False by lia.
      rewrite decide_True by lia. done. }
  unfold mbind at 1, method_bind at 1, mthen at 1, mread at 1.
  assert (∀ l, _msa (set_labels l e) = _msa e) as Hl by (by destruct e).
  rewrite Hl, Hm.
  assert (filter (λ p, Z.of_nat p ∉ [i]) (seq 0 (length (msa_seqs m)))
          = seq 0 (length (msa_seqs m))) as ->.
  { apply filter_all, Forall_forall. intros p _.
    rewrite not_elem_of_cons. split; [lia|apply not_elem_of_nil]. }
  unfold mbind, method_bind, mthen, mread, massign, msa_rows.
  rewrite (proj2 (take_Ok _ _ _) (picks_seq (msa_seqs m))).
  rewrite <- Hlen.
  rewrite (proj2 (take_Ok _ _ _) (picks_seq (msa_labels m))). cbn.
  f_equal. destruct e, m; cbn in *. by subst.
Qed.

Lemma delCoordset_labels_pruned_witness :
  ∃ e', delCoordset_labels [0%Z; 2%Z] labelled = (e', Ok ()) ∧
        _labels e' = ["b"] ∧
        (msa_labels <$> _msa e') = Some ["b"].
Proof.
  destruct (delCoordset_labels_pruned [0%Z; 2%Z] labelled)
    as (labels & msa & Hrun & Hlabels & m' & -> & _ & _ & Hstep).
  - repeat constructor; set_solver.
  - repeat constructor; cbn; lia.
  - by intros m [= <-].
  - eexists. split; [exact Hrun|].
    assert (labels = ["b"]) as Hb.
    { eapply picks_inj; [exact Hlabels|]. by repeat constructor. }
    cbn. split; [exact Hb|]. by rewrite (Hstep eq_refl), Hb.
Defined.

Lemma delCoordset_negative_index_keeps_rows_witness :
  ∃ e', delCoordset_labels [(-1)%Z] labelled = (e', Ok ()) ∧
        _labels e' = ["a"; "b"] ∧
        (msa_labels <$> _msa e') = Some ["a"; "b"; "c"].
Proof.
  eexists. split.
  - apply (delCoordset_negative_index_keeps_rows (-1)%Z labelled
             (mkMSA ["AC"; "AG"; "AT"] "still" ["a"; "b"; "c"]));
      [cbn; lia|reflexivity..].
  - split; reflexivity.
Defined.

(** * What a sub-ensemble holds *)

Section extraction_facts.
Context `{UtilitiesSpec}.

Lemma picks_Forall {A} (P : A → Prop) sel (l out : list A) :
  picks sel l out → Forall P l → Forall P out.
Proof.
  intros Hp Hl. apply Forall_forall. intros x Hx.
  apply list_elem_of_lookup in Hx as [k Hk].
  destruct (Forall2_lookup_r _ _ _ _ _ Hp Hk) as (i & _ & Hi).
  by eapply Forall_lookup_1 in Hl.
Qed.

(** X17. The ensemble that [__getitem__] builds for a slice or an index list
    that selects at least one conformation, when it is built: it is well
    formed, has the reference coordinates and the atom count of the ensemble
    it is taken from, and holds the conformations and the labels at the
    selected positions, in the order of the selection. *)
Theorem getitem_ensemble_selects index msa e ens ref confs rows :
  well_formed e → _n_atoms e ≠ 0 →
  _coords e = Some ref → _confs e = Some confs →
  selector_rows (_n_csets e) index = Ok rows → rows ≠ [] →
  getitem_ensemble index msa e = Ok ens →
  well_formed ens ∧ _coords ens = Some ref ∧
  _n_atoms ens = _n_atoms e ∧ _n_csets ens = length rows ∧
  (∃ frames, _confs ens = Some frames ∧ picks rows confs frames) ∧
  picks rows (_labels e) (_labels ens).
Proof.
  intros Hwf Hn Href Hconfs Hrows Hne. unfold getitem_ensemble.
  destruct (wf_confs _ Hwf _ Hconfs) as [Hlc Hrc].
  pose proof (wf_coords _ Hwf _ Href) as Hlr.
  pose proof (wf_labels _ Hwf) as Hll.
  destruct (match index with
            | ISlice s => slice_title (_title e) (_n_csets e) s
            | _ => Ok (_title e)
            end) as [title|]; [|done].
  cbn [mbind result_bind]. rewrite Href, new_ensemble_setCoords.
  cbn [mbind result_bind]. rewrite Hconfs. cbn [need mbind result_bind].
  rewrite Hlc, Hrows. cbn [mbind result_bind].
  destruct (np.take rows confs) as [frames|] eqn:Hframes; [|done].
  cbn [mbind result_bind]. apply take_Ok in Hframes.
  destruct (_weights e) as [ws|] eqn:Hws; [|done].
  destruct (wf_weights _ Hwf _ Hws) as [Hlw _].
  cbn [need mbind result_bind]. rewrite Hlw, Hrows. cbn [mbind result_bind].
  destruct (np.take rows ws) as [ws'|]; [|done].
  cbn [mbind result_bind]. rewrite Hll, Hrows. cbn [mbind result_bind].
  destruct (np.take rows (_labels e)) as [labels|] eqn:Hlabels; [|done].
  cbn [mbind result_bind]. apply take_Ok in Hlabels.
  set (e0 := mkEnsemble title (Some ref) (length ref) 0 None None None None []
                        None None).
  assert (well_formed e0) as Hwf0
    by (split; cbn; try done; by intros ? [= <-]).
  assert (Forall (λ c, length c = _n_atoms e) frames) as Hfr
    by (by eapply picks_Forall).
  assert (frames ≠ []) as Hfne.
  { intros ->. apply picks_length in Hframes. by destruct rows. }
  assert (shape1 (_n_atoms e) confs = shape1 (_n_atoms e) frames) as ->
    by (by rewrite !shape1_wf).
  destruct (addCoordset _ _ _ _ _ e0) as [e1 [[]|x]] eqn:Hrun; [|done].
  cbn [mbind result_bind]. intros [= <-].
  destruct (addCoordset_stack e0 (_n_atoms e) frames (Some (W3 ws')) labels
              (match msa with Some m => SeqMSA m | None => SeqNone end) e1
              Hwf0)
    as (Hwf1 & Hcs & Hlab & Hcount & Hco & Hna & _);
    [cbn; lia|done|done|done| |exact Hrun|].
  { apply picks_length in Hframes, Hlabels. congruence. }
  cbn in Hcs, Hlab, Hcount, Hco, Hna.
  split_and!; [done|done|lia| |by exists frames|by rewrite Hlab].
  apply picks_length in Hframes. lia.
Qed.

End extraction_facts.

Lemma getitem_ensemble_selects_witness :
  ∃ ens, getitem_ensemble (H:=spec_utilities) (IList [2%Z; 0%Z]) None
           still_ensemble = Ok ens ∧
         _labels ens = ["c"; "a"] ∧ _n_csets ens = 2.
Proof.
  eexists. split; [vm_compute; reflexivity|].
  match goal with
  | |- _labels ?ens = _ ∧ _ =>
    destruct (getitem_ensemble_selects (H:=spec_utilities) (IList [2%Z; 0%Z])
                None still_ensemble ens _ _ [2; 0] still_ensemble_wf
                ltac:(cbn; lia) eq_refl eq_refl eq_refl ltac:(done) eq_refl)
      as (_ & _ & _ & Hn & _ & Hlab)
  end.
  split; [reflexivity|exact Hn].
Defined.

(** * Superposition in place *)

Section in_place.
Context `{RigidAlignment}.

(** X18. On the heap, [_superpose] on a well-formed ensemble whose array of
    conformations is no view and shares no buffer with the reference, the
    weights or the selected indices writes the moved conformations into that
    very array, which stays the array of the object, binds a new array (or
    [None]) to [_trans], and changes no other buffer: the object then holds
    the ensemble that [_superpose] computes. *)
Theorem superpose_in_place trans h self e a ref confs ws :
  Store.load h self = Some e → well_formed e →
  _coords e = Some ref → _confs e = Some confs → _weights e = Some ws →
  Store.o_confs self = Some a → Store.window a = None →
  Store.base a ∉ read_only self →
  ∃ h' self' e',
    Store._superpose trans h self = Some (h', self', Ok ()) ∧
    _superpose trans e = (e', Ok ()) ∧
    Store.load h' self' = Some e' ∧
    Store.o_confs self' = Some a ∧
    (∀ v, Store.o_trans self' = Some v → Store.base v ∉ dom h) ∧
    ∀ p, p ∈ dom h → p ≠ Store.base a → h' !! p = h !! p.
Proof.
  intros Hload Hwf Href Hconfs Hws Ha Hwin Hsep.
  destruct (_superpose_run trans e ref confs ws)
    as (confs' & trans' & Hrun & Hlen & _); [done..|].
  destruct (wf_confs _ Hwf _ Hconfs) as [Hlc _].
  pose proof Hrun as Hrun'.
  unfold Store._superpose. rewrite Hload. cbn -[Store.alloc_attr].
  rewrite Hrun, Ha. cbn -[Store.alloc_attr].
  destruct (store_superpose_refines trans h self e a confs confs' trans')
    as (h' & t & Hstore & Hload' & Hframe); [done..|lia|done|].
  unfold Store._superpose in Hstore. rewrite Hload in Hstore.
  cbn -[Store.alloc_attr] in Hstore.
  rewrite Hrun, Ha in Hstore. cbn -[Store.alloc_attr] in Hstore.
  pose proof (alloc_attr_fresh trans' (Store.setitems a confs' h)) as Hfresh.
  destruct (Store.alloc_attr trans' (Store.setitems a confs' h))
    as [h1 t1] eqn:Halloc.
  injection Hstore as <- <-.
  eexists _, _, _. split_and!; [done|done|exact Hload'|done| |done].
  cbn. intros v Hv Hin. apply (Hfresh v Hv).
  by apply setitems_dom.
Qed.

End in_place.

Lemma superpose_in_place_witness :
  ∃ h' self' e',
    Store._superpose (H:=first_atom_alignment) true
      (stored still_ensemble ∅).1 (stored still_ensemble ∅).2
    = Some (h', self', Ok ()) ∧
    Store.load h' self' = Some e' ∧
    Store.o_confs self' = Store.o_confs (stored still_ensemble ∅).2.
Proof.
  edestruct (superpose_in_place (H:=first_atom_alignment) true
               (stored still_ensemble ∅).1 (stored still_ensemble ∅).2
               still_ensemble)
    as (h' & self' & e' & Hrun & _ & Hload & Hconfs & _).
  - vm_compute. reflexivity.
  - exact still_ensemble_wf.
  - reflexivity.
  - reflexivity.
  - reflexivity.
  - vm_compute. reflexivity.
  - reflexivity.
  - vm_compute. intros Hin.
    repeat (apply elem_of_cons in Hin as [Hin|Hin]; [discriminate Hin|]).
    by apply elem_of_nil in Hin.
  - exists h', self', e'. split; [exact Hrun|]. split; [exact Hload|].
    rewrite Hconfs. vm_compute. reflexivity.
Defined.

